(** * keepassx: entry resolution of the [kp] command line tool

    A shallow embedding of [keepassx/main.py]: the field lookups
    [_find_password] and [_find_string], the [MultiDict] title index and
    the staged search [_search_for_entry] with its nested functions
    [fuzzy_search_by_title], [_get_title] and [_filter_entries], together
    with the part of Python's [difflib] the search calls
    ([SequenceMatcher] and [get_close_matches]). *)

From Stdlib Require Import String Ascii List ZArith QArith Lia Permutation.
From stdpp Require Import base option list sorting strings gmap.

Local Open Scope string_scope.
Local Open Scope list_scope.

(** ** Python values the program works on *)

(** [str.lower()]: the letters [A]..[Z] are moved to [a]..[z], every other
    byte is left as it is.  Strings are byte strings. *)
Definition ascii_lower (c : ascii) : ascii :=
  let n := nat_of_ascii c in
  if (65 <=? n)%nat && (n <=? 90)%nat then ascii_of_nat (n + 32) else c.

Fixpoint lower (s : string) : string :=
  match s with
  | EmptyString => EmptyString
  | String c s' => String (ascii_lower c) (lower s')
  end.

(** [sub in s] on strings: [sub] occurs in [s] as a contiguous block. *)
Fixpoint str_in (sub s : string) : bool :=
  String.prefix sub s ||
  match s with
  | EmptyString => false
  | String _ s' => str_in sub s'
  end.

(** The slice [l[s:s+n]]. *)
Definition slice {A} (l : list A) (s n : nat) : list A := take n (drop s l).

(** How often [x] occurs in [l]. *)
Definition occurrences {A} `{EqDecision A} (x : A) (l : list A) : nat :=
  length (filter (fun y => y = x) l).

(** Exceptions the modelled code can raise, and results of fallible code. *)
Inductive exn : Type :=
  | AttributeError
  | KeyError (key : string)
  | EntryNotFoundError (msg : string).

Inductive res (A : Type) : Type :=
  | Ok (a : A)
  | Raise (e : exn).
Arguments Ok {A} a.
Arguments Raise {A} e.

Definition res_bind {A B} (m : res A) (k : A -> res B) : res B :=
  match m with
  | Ok a => k a
  | Raise e => Raise e
  end.

Notation "'let*' x ':=' m 'in' k" := (res_bind m (fun x => k))
  (at level 10, x name, m at level 100, k at level 200).

(** A [for] loop whose body may raise: the loop state is threaded through
    the elements in order and the first exception ends the loop. *)
Fixpoint for_each {A S} (body : S -> A -> res S) (l : list A) (s : S) : res S :=
  match l with
  | [] => Ok s
  | x :: l' => let* s' := body s x in for_each body l' s'
  end.

(** ** The database as the program sees it

    An entry is an element with its [String] children (each a [Key] and a
    [Value]) and the element that contains it;
    [db.obj_root.findall('.//Entry')] is the list of the entries.  It
    lists every [Entry] element of the file: the entries of the groups,
    whose parent is a [Group] element with a [Name] child, and the earlier
    versions KeePass keeps of an entry, whose parent is the [History]
    element of that entry, which has no [Name] child.  [parent_Name] is
    the text of the [Name] child of the parent, [None] when there is
    none.  [Entry_String] lists the [String] children; KeePass writes at
    least one for every entry, and for an element without any the program
    fails with [AttributeError] at [entry.String], which the lookups below
    do not show: the theorems that say when the program fails take stores
    whose entries have a [String] child. *)
Record StringField : Type := { Key : string; Value : string }.

Record Entry : Type := {
  Entry_String : list StringField;
  parent_Name : option string
}.

Global Instance StringField_eq_dec : EqDecision StringField.
Proof. solve_decision. Defined.
Global Instance Entry_eq_dec : EqDecision Entry.
Proof. solve_decision. Defined.

(** [entry.getparent().Name] and [entry.getparent()['Name']]: looking up
    a child the parent does not have raises [AttributeError]. *)
Definition getparent_Name (entry : Entry) : res string :=
  match parent_Name entry with
  | Some name => Ok name
  | None => Raise AttributeError
  end.

(** ** Field lookups *)

(** [_find_password]: the first field whose key is exactly ['Password']. *)
Fixpoint _find_password_loop (ss : list StringField) : option string :=
  match ss with
  | [] => None
  | s :: ss' =>
      if String.eqb (Key s) "Password" then Some (Value s)
      else _find_password_loop ss'
  end.

Definition _find_password (entry : Entry) : option string :=
  _find_password_loop (Entry_String entry).

(** [_find_string]: the first field whose lowered key is the lowered [key]. *)
Fixpoint _find_string_loop (ss : list StringField) (key : string) : option string :=
  match ss with
  | [] => None
  | s :: ss' =>
      if String.eqb (lower (Key s)) (lower key) then Some (Value s)
      else _find_string_loop ss' key
  end.

Definition _find_string (entry : Entry) (key : string) : option string :=
  _find_string_loop (Entry_String entry) key.

(** ** MultiDict

    A [dict] whose item assignment appends to the list stored under the
    key, creating it first when the key is new.  Keys are kept in the order
    of their first assignment. *)
Definition MultiDict (V : Type) : Type := list (string * list V).

Definition MultiDict_contains {V} (key : string) (d : MultiDict V) : bool :=
  existsb (fun kv => String.eqb (fst kv) key) d.

Fixpoint MultiDict_append {V} (key : string) (value : V) (d : MultiDict V)
  : MultiDict V :=
  match d with
  | [] => []
  | (k, vs) :: d' =>
      if String.eqb k key then (k, vs ++ [value]) :: d'
      else (k, vs) :: MultiDict_append key value d'
  end.

Definition MultiDict_setitem {V} (key : string) (value : V) (d : MultiDict V)
  : MultiDict V :=
  let d1 := if MultiDict_contains key d then d else d ++ [(key, [])] in
  MultiDict_append key value d1.

Definition MultiDict_keys {V} (d : MultiDict V) : list string := map fst d.

Fixpoint MultiDict_getitem {V} (d : MultiDict V) (key : string) : res (list V) :=
  match d with
  | [] => Raise (KeyError key)
  | (k, vs) :: d' => if String.eqb k key then Ok vs else MultiDict_getitem d' key
  end.

(** The values stored under a key, none when the key is not there. *)
Definition entries_of {V} (d : MultiDict V) (key : string) : list V :=
  match MultiDict_getitem d key with
  | Ok vs => vs
  | Raise _ => []
  end.

(** ** difflib

    The part of Python's standard [difflib] module that the search calls:
    [SequenceMatcher] without a junk predicate (as [get_close_matches]
    builds it) and [get_close_matches].

    The similarity scores are floats in Python, [2.0 * matches / length]
    for two naturals.  They are modelled as the exact rationals: the float
    quotient of two naturals is the rational rounded to nearest, so as
    long as the lengths of the two sequences add up to less than [2^26]
    two scores compare as their rationals do, and a score compares with
    the float literal [0.7] as its rational does with [7/10]. *)
Module difflib.

Definition _calculate_ratio (matches length : nat) : Q :=
  if (length =? 0)%nat then 1%Q
  else (2 * Z.of_nat matches # Pos.of_nat length)%Q.

(** A match [(i, j, k)] says [a[i:i+k] == b[j:j+k]]. *)
Definition Match : Type := (nat * nat * nat)%type.

Section SequenceMatcher.
Context {E : Type} `{Countable E}.
Variables (a b : list E).

(** [__chain_b]: for every element of [b] the ascending list of the
    positions it occurs at ... *)
Definition b2j_all : gmap E (list nat) :=
  fold_left
    (fun (b2j : gmap E (list nat)) (p : nat * E) =>
       let '(i, elt) := p in
       <[elt := default [] (b2j !! elt) ++ [i]]> b2j)
    (combine (seq 0 (length b)) b) ∅.

(** ... there is no junk predicate, so [bjunk] stays empty ... *)
Definition bjunk : gset E := ∅.

Definition isbjunk (x : E) : bool := bool_decide (x ∈ bjunk).

(** ... and when [b] has 200 elements or more, the elements that occur
    more than [n // 100 + 1] times are "popular" and leave [b2j]. *)
Definition b2j : gmap E (list nat) :=
  let n := length b in
  if (200 <=? n)%nat then
    let ntest := (n / 100 + 1)%nat in
    filter (fun kv : E * list nat => (length (snd kv) <= ntest)%nat) b2j_all
  else b2j_all.

(** [find_longest_match], the inner [for j in b2j.get(a[i], nothing)]:
    [continue] below [blo], [break] from [bhi] on.  [j2len.get(j-1, 0)]
    at [j = 0] asks for the key [-1], which is never there. *)
Fixpoint flm_row (i blo bhi : nat) (j2len : gmap nat nat) (js : list nat)
    (best : Match) (newj2len : gmap nat nat) : Match * gmap nat nat :=
  match js with
  | [] => (best, newj2len)
  | j :: js' =>
      if (j <? blo)%nat then flm_row i blo bhi j2len js' best newj2len
      else if (bhi <=? j)%nat then (best, newj2len)
      else
        let k := (match j with
                  | O => 0
                  | S j' => default 0 (j2len !! j')
                  end + 1)%nat in
        let newj2len := <[j := k]> newj2len in
        let '(besti, bestj, bestsize) := best in
        let best := if (bestsize <? k)%nat
                    then ((i + 1 - k)%nat, (j + 1 - k)%nat, k)
                    else (besti, bestj, bestsize) in
        flm_row i blo bhi j2len js' best newj2len
  end.

(** The outer [for i in range(alo, ahi)]; [a[i]] is in range because
    [ahi <= len(a)] at every call. *)
Definition flm_scan (alo ahi blo bhi : nat) : Match :=
  fst (fold_left
         (fun (st : Match * gmap nat nat) (i : nat) =>
            let '(best, j2len) := st in
            match a !! i with
            | Some x => flm_row i blo bhi j2len (default [] (b2j !! x)) best ∅
            | None => (best, ∅)
            end)
         (seq alo (ahi - alo)) ((alo, blo, 0%nat), ∅)).

(** The two kinds of [while] loops that extend the best match: to the
    left while the elements before it agree, to the right while the
    elements after it agree; [junk] tells which elements of [b] the loop
    accepts ([not isbjunk] in the first pair of loops, [isbjunk] in the
    second). *)
Fixpoint extend_left (junk : bool) (alo blo besti bestj bestsize : nat) : Match :=
  match besti, bestj with
  | S i', S j' =>
      match a !! i', b !! j' with
      | Some x, Some y =>
          if (alo <? besti)%nat && (blo <? bestj)%nat
             && Bool.eqb (isbjunk y) junk && bool_decide (x = y)
          then extend_left junk alo blo i' j' (S bestsize)
          else (besti, bestj, bestsize)
      | _, _ => (besti, bestj, bestsize)
      end
  | _, _ => (besti, bestj, bestsize)
  end.

Fixpoint extend_right (fuel : nat) (junk : bool) (ahi bhi besti bestj bestsize : nat)
  : Match :=
  match fuel with
  | O => (besti, bestj, bestsize)
  | S fuel' =>
      match a !! (besti + bestsize)%nat, b !! (bestj + bestsize)%nat with
      | Some x, Some y =>
          if (besti + bestsize <? ahi)%nat && (bestj + bestsize <? bhi)%nat
             && Bool.eqb (isbjunk y) junk && bool_decide (x = y)
          then extend_right fuel' junk ahi bhi besti bestj (S bestsize)
          else (besti, bestj, bestsize)
      | _, _ => (besti, bestj, bestsize)
      end
  end.

Definition find_longest_match (alo ahi blo bhi : nat) : Match :=
  let '(besti, bestj, bestsize) := flm_scan alo ahi blo bhi in
  let '(besti, bestj, bestsize) := extend_left false alo blo besti bestj bestsize in
  let '(besti, bestj, bestsize) :=
    extend_right (ahi - (besti + bestsize)) false ahi bhi besti bestj bestsize in
  let '(besti, bestj, bestsize) := extend_left true alo blo besti bestj bestsize in
  extend_right (ahi - (besti + bestsize)) true ahi bhi besti bestj bestsize.

(** [get_matching_blocks].  The work list is a stack ([queue.pop()] takes
    the element appended last): its top is the head of [queue].  Every
    turn of the [while queue] loop is one unit of [fuel]; the loop hands
    back what is left of the queue with the blocks found. *)
Definition Range : Type := (nat * nat * nat * nat)%type.

Fixpoint gmb_loop (fuel : nat) (queue : list Range) (matching_blocks : list Match)
  : list Range * list Match :=
  match fuel with
  | O => (queue, matching_blocks)
  | S fuel' =>
      match queue with
      | [] => ([], matching_blocks)
      | (alo, ahi, blo, bhi) :: queue =>
          let '(i, j, k) := find_longest_match alo ahi blo bhi in
          if (k =? 0)%nat then gmb_loop fuel' queue matching_blocks
          else
            let matching_blocks := matching_blocks ++ [(i, j, k)] in
            let queue :=
              if (alo <? i)%nat && (blo <? j)%nat
              then (alo, i, blo, j) :: queue else queue in
            let queue :=
              if (i + k <? ahi)%nat && (j + k <? bhi)%nat
              then ((i + k)%nat, ahi, (j + k)%nat, bhi) :: queue else queue in
            gmb_loop fuel' queue matching_blocks
      end
  end.

(** Order of tuples of naturals, and [list.sort()] on them. *)
Definition Match_ltb (x y : Match) : bool :=
  let '(i1, j1, k1) := x in
  let '(i2, j2, k2) := y in
  (i1 <? i2)%nat
  || ((i1 =? i2)%nat && ((j1 <? j2)%nat || ((j1 =? j2)%nat && (k1 <? k2)%nat))).

Fixpoint Match_insert (x : Match) (l : list Match) : list Match :=
  match l with
  | [] => [x]
  | y :: l' => if Match_ltb x y then x :: y :: l' else y :: Match_insert x l'
  end.

Definition Match_sort (l : list Match) : list Match :=
  fold_left (fun acc x => Match_insert x acc) l [].

(** The loop that collapses adjacent equal blocks; the state is
    [(i1, j1, k1)] and [non_adjacent]. *)
Definition collapse_step (st : Match * list Match) (m : Match)
  : Match * list Match :=
  let '((i1, j1, k1), non_adjacent) := st in
  let '(i2, j2, k2) := m in
  if (i1 + k1 =? i2)%nat && (j1 + k1 =? j2)%nat
  then ((i1, j1, (k1 + k2)%nat), non_adjacent)
  else ((i2, j2, k2),
        if (k1 =? 0)%nat then non_adjacent else non_adjacent ++ [(i1, j1, k1)]).

(** Every turn of the loop takes a range off the work list and puts back
    at most two that together are shorter: [2 * len(a) + 1] turns empty
    the list. *)
Definition gmb_fuel : nat := (2 * length a + 1)%nat.

Definition get_matching_blocks : list Match :=
  let la := length a in
  let lb := length b in
  let matching_blocks := snd (gmb_loop gmb_fuel [(0, la, 0, lb)%nat] []) in
  let matching_blocks := Match_sort matching_blocks in
  let '((i1, j1, k1), non_adjacent) :=
    fold_left collapse_step matching_blocks ((0, 0, 0)%nat, []) in
  let non_adjacent :=
    if (k1 =? 0)%nat then non_adjacent else non_adjacent ++ [(i1, j1, k1)] in
  non_adjacent ++ [(la, lb, 0%nat)].

Definition ratio_matches : nat :=
  fold_left (fun s (triple : Match) => (s + snd triple)%nat) get_matching_blocks 0%nat.

Definition ratio : Q := _calculate_ratio ratio_matches (length a + length b).

(** [quick_ratio]: [fullbcount] counts the elements of [b]; [avail]
    overrides it for the elements of [a] seen so far. *)
Definition fullbcount : gmap E Z :=
  fold_left
    (fun (m : gmap E Z) elt => <[elt := (default 0 (m !! elt) + 1)%Z]> m) b ∅.

Definition numb_of (avail : gmap E Z) (elt : E) : Z :=
  match avail !! elt with
  | Some n => n
  | None => default 0%Z (fullbcount !! elt)
  end.

Definition quick_step (st : gmap E Z * nat) (elt : E) : gmap E Z * nat :=
  let '(avail, matches) := st in
  let numb := numb_of avail elt in
  (<[elt := (numb - 1)%Z]> avail,
   if (0 <? numb)%Z then (matches + 1)%nat else matches).

Definition quick_matches : nat := snd (fold_left quick_step a (∅, 0%nat)).

Definition quick_ratio : Q := _calculate_ratio quick_matches (length a + length b).

Definition real_quick_ratio : Q :=
  _calculate_ratio (Nat.min (length a) (length b)) (length a + length b).

(** What the docstring of [find_longest_match] promises of a match
    [(i, j, k)] for the ranges [alo:ahi] and [blo:bhi]: it lies inside
    them and [a[i:i+k] == b[j:j+k]]. *)
Definition Match_ok (alo ahi blo bhi : nat) (m : Match) : Prop :=
  let '(i, j, k) := m in
  (alo <= i /\ i + k <= ahi /\ blo <= j /\ j + k <= bhi
   /\ forall t, t < k -> exists x, a !! (i + t) = Some x /\ b !! (j + t) = Some x)%nat.

(** The ranges [get_matching_blocks] puts on its work list. *)
Definition Range_ok (r : Range) : Prop :=
  let '(alo, ahi, blo, bhi) := r in
  (alo <= ahi /\ ahi <= length a /\ blo <= bhi /\ bhi <= length b)%nat.

(** The elements of [a] and of [b] a match stands for, the elements a
    range of the work list still has to look at, and the number of turns
    of the loop a range can cost. *)
Definition Match_a (m : Match) : list E := let '(i, _, k) := m in slice a i k.
Definition Match_b (m : Match) : list E := let '(_, j, k) := m in slice b j k.
Definition Range_a (r : Range) : list E :=
  let '(alo, ahi, _, _) := r in slice a alo (ahi - alo).
Definition Range_b (r : Range) : list E :=
  let '(_, _, blo, bhi) := r in slice b blo (bhi - blo).
Definition Range_weight (r : Range) : nat :=
  let '(alo, ahi, _, _) := r in (2 * (ahi - alo) + 1)%nat.

(** What the loop of [get_matching_blocks] keeps true: the ranges are well
    formed, the blocks are matches, and the blocks found together with the
    ranges still to look at take their elements of [a] (and of [b]) from
    different places. *)
Definition gmb_inv (queue : list Range) (blocks : list Match) : Prop :=
  Forall Range_ok queue
  /\ Forall (Match_ok 0 (length a) 0 (length b)) blocks
  /\ (blocks ≫= Match_a) ++ (queue ≫= Range_a) ⊆+ a
  /\ (blocks ≫= Match_b) ++ (queue ≫= Range_b) ⊆+ b.

(** [j2len] while row [i] is scanned: a length [k] stored under [j]
    stands for a match of [k] elements that ends with [a[i-1]] and
    [b[j]]. *)
Definition Row_ok (alo blo bhi i : nat) (j2len : gmap nat nat) : Prop :=
  forall j k, j2len !! j = Some k ->
    (1 <= k /\ k <= i - alo /\ k <= j + 1 - blo /\ j < bhi
     /\ forall t, t < k ->
          exists x, a !! (i - k + t) = Some x /\ b !! (j + 1 - k + t) = Some x)%nat.

End SequenceMatcher.

(** Order of [(score, x)] tuples: by score, then by the string. *)
Definition scored_ltb (p q : Q * string) : bool :=
  match (fst p ?= fst q)%Q with
  | Lt => true
  | Gt => false
  | Eq => String.ltb (snd p) (snd q)
  end.

(** "Not below": the order [sorted(..., reverse=True)] puts its result in. *)
Definition scored_ge (p q : Q * string) : Prop := scored_ltb p q = false.

(** [sorted(result, reverse=True)]: descending, elements that compare equal
    keep the order they came in. *)
Fixpoint scored_insert (x : Q * string) (l : list (Q * string)) : list (Q * string) :=
  match l with
  | [] => [x]
  | y :: l' => if scored_ltb x y then y :: scored_insert x l' else x :: y :: l'
  end.

Definition sorted_reverse (l : list (Q * string)) : list (Q * string) :=
  fold_right scored_insert [] l.

(** [heapq.nlargest(n, iterable)], which is
    [sorted(iterable, reverse=True)[:n]]. *)
Definition _nlargest (n : nat) (l : list (Q * string)) : list (Q * string) :=
  take n (sorted_reverse l).

(** [get_close_matches(word, possibilities, n, cutoff)] for [n > 0] and
    [0 <= cutoff <= 1]; [word] is the second sequence of the matcher and
    each possibility in turn the first. *)
Definition score (word x : string) : Q :=
  ratio (list_ascii_of_string x) (list_ascii_of_string word).

Definition close_enough (word x : string) (cutoff : Q) : bool :=
  let a := list_ascii_of_string x in
  let b := list_ascii_of_string word in
  Qle_bool cutoff (real_quick_ratio a b)
  && Qle_bool cutoff (quick_ratio a b)
  && Qle_bool cutoff (ratio a b).

Definition get_close_matches (word : string) (possibilities : list string)
    (n : nat) (cutoff : Q) : list string :=
  let result :=
    fold_left
      (fun (result : list (Q * string)) x =>
         if close_enough word x cutoff
         then result ++ [(score word x, x)]
         else result)
      possibilities [] in
  map snd (_nlargest n result).

End difflib.

(** ** _search_for_entry and its nested functions *)

(** Truth value of a list: [if entries:] holds when it is not empty. *)
Definition truthy {A} (l : list A) : bool :=
  match l with
  | [] => false
  | _ :: _ => true
  end.

(** [x.lower()] where [x] is what [_get_title] returned: [None] has no
    such method. *)
Definition str_lower (x : option string) : res string :=
  match x with
  | Some s => Ok (lower s)
  | None => Raise AttributeError
  end.

Definition _get_title (entry : Entry) : option string := _find_string entry "Title".

(** [_filter_entries]: the list comprehension reads the group name of
    every entry, in order, and the first that has none ends it. *)
Definition _filter_entries (entries : list Entry) (ignore_groups : option (list string))
  : res (list Entry) :=
  match ignore_groups with
  | None => Ok entries
  | Some ignore_groups =>
      for_each
        (fun kept entry =>
           let* name := getparent_Name entry in
           Ok (if bool_decide (name ∉ ignore_groups) then kept ++ [entry] else kept))
        entries []
  end.

(** The title index of stage 4: [entry_map = MultiDict()] filled by
    [entry_map[_get_title(entry).lower()] = entry] for every entry. *)
Definition build_entry_map (db_entries : list Entry) : res (MultiDict Entry) :=
  for_each
    (fun (entry_map : MultiDict Entry) entry =>
       let* t := str_lower (_get_title entry) in
       Ok (MultiDict_setitem t entry entry_map))
    db_entries [].

Definition fuzzy_search_by_title (db_entries : list Entry) (title : string)
    (ignore_groups : option (list string)) : res (list Entry) :=
  let entries : list Entry := [] in
  (* Exact matches trump *)
  let entries :=
    fold_left
      (fun entries entry =>
         if bool_decide (_get_title entry = Some title)
         then entries ++ [entry] else entries)
      db_entries entries in
  if truthy entries then _filter_entries entries ignore_groups else
  (* Case insensitive matches next. *)
  let title_lower := lower title in
  let* entries :=
    for_each
      (fun entries entry =>
         let* t := str_lower (_get_title entry) in
         Ok (if String.eqb t (lower title) then entries ++ [entry] else entries))
      db_entries entries in
  if truthy entries then _filter_entries entries ignore_groups else
  (* Subsequence/prefix matches next. *)
  let* entries :=
    for_each
      (fun entries entry =>
         let* t := str_lower (_get_title entry) in
         Ok (if str_in title_lower t then entries ++ [entry] else entries))
      db_entries entries in
  if truthy entries then _filter_entries entries ignore_groups else
  (* Finally close matches that might have mispellings. *)
  let* entry_map := build_entry_map db_entries in
  let matches :=
    difflib.get_close_matches (lower title) (MultiDict_keys entry_map) 3 (7 # 10) in
  if truthy matches then
    let* lists :=
      for_each
        (fun lists name =>
           let* l := MultiDict_getitem entry_map name in Ok (lists ++ [l]))
        matches [] in
    _filter_entries (concat lists) ignore_groups
  else Ok [].

Definition _search_for_entry (db : list Entry) (term : string) : res (list Entry) :=
  (* Do a fuzzy match and see if we come up with anything. *)
  let* entries := fuzzy_search_by_title db term (Some ["Backup"]) in
  if negb (truthy entries)
  then Raise (EntryNotFoundError ("Could not find an entry for: " +:+ term))
  else Ok entries.

(** ** The four stages as candidate lists

    What each stage of [fuzzy_search_by_title] collects before any
    filtering, written without the loops; the theorems below relate the
    loops of the code to these lists. *)

Definition has_title (entry : Entry) : Prop := is_Some (_get_title entry).

(** The element that contains the entry has a name. *)
Definition has_group (entry : Entry) : Prop := is_Some (parent_Name entry).

Definition lower_title (entry : Entry) : option string := lower <$> _get_title entry.

Definition exact_candidates (db : list Entry) (title : string) : list Entry :=
  filter (fun entry => _get_title entry = Some title) db.

Definition caseless_candidates (db : list Entry) (title : string) : list Entry :=
  filter (fun entry => lower_title entry = Some (lower title)) db.

Definition title_contains (title : string) (entry : Entry) : bool :=
  match lower_title entry with
  | Some t => str_in (lower title) t
  | None => false
  end.

Definition substring_candidates (db : list Entry) (title : string) : list Entry :=
  filter (fun entry => title_contains title entry = true) db.

(** The title index: its keys are the lowered titles in the order of their
    first occurrence in the store, the bucket of a key holds the entries
    with that lowered title in store order. *)
Fixpoint first_occurrences (l : list string) : list string :=
  match l with
  | [] => []
  | x :: l' => x :: filter (fun y => y <> x) (first_occurrences l')
  end.

Definition TitleIndex_keys (db : list Entry) : list string :=
  first_occurrences (omap lower_title db).

Definition bucket (db : list Entry) (key : string) : list Entry :=
  filter (fun entry => lower_title entry = Some key) db.

(** Similarity of a key of the index to the lowered search term. *)
Definition similarity (title key : string) : Q := difflib.score (lower title) key.

(** The keys the approximate stage keeps, and the entries it collects. *)
Definition kept_keys (db : list Entry) (title : string) : list string :=
  difflib.get_close_matches (lower title) (TitleIndex_keys db) 3 (7 # 10).

Definition approximate_candidates (db : list Entry) (title : string) : list Entry :=
  concat (map (bucket db) (kept_keys db title)).

Definition stages (db : list Entry) (title : string) : list (list Entry) :=
  [exact_candidates db title; caseless_candidates db title;
   substring_candidates db title; approximate_candidates db title].

(** The first list that is not empty, the empty list when there is none. *)
Fixpoint first_nonempty {A} (ls : list (list A)) : list A :=
  match ls with
  | [] => []
  | l :: ls' => if truthy l then l else first_nonempty ls'
  end.

(** ** The resolution as the specification words it

    Used only to state what the specification asks for, next to what the
    code does: every stage is filtered before its emptiness is decided,
    and the approximate stage keeps every key of the index whose
    similarity to the lowered term is at least 0.7, in index order. *)
Module Spec.

Definition qualifying_keys (db : list Entry) (term : string) : list string :=
  filter (fun key => Qle_bool (7 # 10) (similarity term key) = true) (TitleIndex_keys db).

Definition approximate (db : list Entry) (term : string) : list Entry :=
  concat (map (bucket db) (qualifying_keys db term)).

Definition Filter (candidates : list Entry) (excludedGroups : list string) : list Entry :=
  filter (fun entry => parent_Name entry ∉ (Some <$> excludedGroups)) candidates.

Definition Resolve (term : string) (entries : list Entry) (excludedGroups : list string)
  : list Entry :=
  first_nonempty
    [Filter (exact_candidates entries term) excludedGroups;
     Filter (caseless_candidates entries term) excludedGroups;
     Filter (substring_candidates entries term) excludedGroups;
     Filter (approximate entries term) excludedGroups].

End Spec.

(** The group of the entry has a name, and that name is in the list. *)
Definition in_groups (groups : list string) (entry : Entry) : Prop :=
  match parent_Name entry with
  | Some name => name ∈ groups
  | None => False
  end.

(** An entry passes the exclusion list when there is none, or when its
    group has a name that is not in it. *)
Definition not_excluded (ignore_groups : option (list string)) (entry : Entry) : Prop :=
  match ignore_groups with
  | None => True
  | Some ignore_groups =>
      match parent_Name entry with
      | Some name => name ∉ ignore_groups
      | None => False
      end
  end.

Global Instance in_groups_dec groups entry : Decision (in_groups groups entry).
Proof. unfold in_groups. destruct (parent_Name entry); apply _. Defined.
Global Instance not_excluded_dec ignore_groups entry :
  Decision (not_excluded ignore_groups entry).
Proof.
  unfold not_excluded. destruct ignore_groups; [|apply _].
  destruct (parent_Name entry); apply _.
Defined.

(** The message [_search_for_entry] raises [EntryNotFoundError] with. *)
Definition not_found (term : string) : exn :=
  EntryNotFoundError ("Could not find an entry for: " +:+ term).

(** ** Stores used in the examples *)

(** An entry as KeePass writes it, with a title and a password. *)
Definition entry_titled (title group : string) : Entry :=
  {| Entry_String := [ {| Key := "Title"; Value := title |};
                       {| Key := "UserName"; Value := "user" |};
                       {| Key := "Password"; Value := "secret" |} ];
     parent_Name := Some group |}.

(** An earlier version of an entry, as KeePass keeps it under the
    [History] element of the entry: that element has no [Name]. *)
Definition history_entry (title : string) : Entry :=
  {| Entry_String := [ {| Key := "Title"; Value := title |};
                       {| Key := "UserName"; Value := "user" |};
                       {| Key := "Password"; Value := "old secret" |} ];
     parent_Name := None |}.

(** ** The commands

    What the commands do to the outside world is kept as a list of events,
    in the order they happen; how a command ends is kept beside it. *)

(** A cell of a table row: the number of the row or what [_find_string]
    returned. *)
Inductive cell : Type :=
  | Int (n : Z)
  | Str (s : option string).

Inductive event : Type :=
  | Print (s : string)
  | PrintTable (field_names : list string) (rows : list (list cell))
  | StderrWrite (s : string)
  | Getpass (prompt : string)
  | RawInput (prompt : string)
  | ClipboardCopy (text : option string).

(** What ends a command early: an exception of the search, an index out
    of range, or [sys.exit] and [quit] with their status. *)
Inductive error : Type :=
  | Exn (e : exn)
  | IndexError
  | SystemExit (code : option Z).

(** [Asking]: the [while] loop of [do_get] was still asking when the fuel
    ran out. *)
Inductive ending : Type :=
  | Returned
  | Raised (e : error)
  | Asking.

(** The parsed command line. *)
Record Args : Type := {
  db_file : option string;
  key_file : option string;
  term : option string;
  entry_id : string;
  entry_fields : list string;
  clipboard_copy : bool;
  quiet : bool
}.

(** What [yaml.safe_load] gives for the configuration file: a mapping (of
    strings, the values the program goes on to use as file names) or
    anything else. *)
Inductive yaml : Type :=
  | YDict (d : gmap string string)
  | YOther.

(** [merge_config_file_values]; [config] is [None] when
    [os.path.isfile(CONFIG_FILENAME)] does not hold. *)
Definition merge_config_file_values (config : option yaml) (args : Args) : Args :=
  match config with
  | None => args
  | Some YOther => args
  | Some (YDict config_data) =>
      let args :=
        match db_file args with
        | None =>
            {| db_file := config_data !! "db_file"; key_file := key_file args;
               term := term args; entry_id := entry_id args;
               entry_fields := entry_fields args;
               clipboard_copy := clipboard_copy args; quiet := quiet args |}
        | Some _ => args
        end in
      match key_file args with
      | None =>
          {| db_file := db_file args; key_file := config_data !! "key_file";
             term := term args; entry_id := entry_id args;
             entry_fields := entry_fields args;
             clipboard_copy := clipboard_copy args; quiet := quiet args |}
      | Some _ => args
      end
  end.

Section create_db.
(** [os.path.expanduser], which belongs to the operating system. *)
Variable expanduser : string -> string.

(** [create_db] up to the call of [keepass.open]: the events so far and
    either the early end or the [db_file] and [keyfile] the database is
    opened with. *)
Definition create_db (args : Args) (environ : gmap string string)
  : list event * (error + string * option string) :=
  match
    match db_file args with
    | Some f => Some (expanduser f)
    | None =>
        match environ !! "KP_DB_FILE" with
        | Some f => Some (expanduser f)
        | None => None
        end
    end
  with
  | None => ([StderrWrite ("Must supply a db filename." +:+ String "010" "")],
             inl (SystemExit (Some 1%Z)))
  | Some db_file =>
      let key_file :=
        match key_file args with
        | Some f => Some (expanduser f)
        | None =>
            match environ !! "KP_KEY_FILE" with
            | Some f => Some (expanduser f)
            | None => None
            end
        end in
      ([Getpass "Password: "], inr (db_file, key_file))
  end.

(** What [main] does before the command runs: the configuration file is
    merged into the arguments, then the command opens the database. *)
Definition locate_db (config : option yaml) (args : Args) (environ : gmap string string)
  : list event * (error + string * option string) :=
  create_db (merge_config_file_values config args) environ.

End create_db.

(** The first value that is given, in the order of the list. *)
Fixpoint first_given (values : list (option string)) : option string :=
  match values with
  | [] => None
  | Some v :: _ => Some v
  | None :: values' => first_given values'
  end.

(** What the configuration file gives for a key: nothing when there is no
    file or it holds no mapping. *)
Definition config_get (config : option yaml) (key : string) : option string :=
  match config with
  | Some (YDict config_data) => config_data !! key
  | _ => None
  end.

(** [sorted(db_entries, key=...)]: the keys are computed first, the sort
    compares keys only and is stable. *)
Fixpoint insert_by_key (x : string * Entry) (l : list (string * Entry))
  : list (string * Entry) :=
  match l with
  | [] => [x]
  | y :: l' =>
      if String.leb (fst x) (fst y) then x :: y :: l' else y :: insert_by_key x l'
  end.

Definition sorted_by_key (l : list (string * Entry)) : list (string * Entry) :=
  fold_right insert_by_key [] l.

Definition sorted_by_title (db_entries : list Entry) : res (list Entry) :=
  let* keyed :=
    for_each
      (fun keyed x =>
         let* k := str_lower (_find_string x "Title") in Ok (keyed ++ [(k, x)]))
      db_entries [] in
  Ok (map snd (sorted_by_key keyed)).

(** [do_list], given the entries of the opened database. *)
Definition list_row (entry : Entry) (group_name : string) : list cell :=
  [Str (_find_string entry "Title"); Str (_find_string entry "UserName");
   Str (Some group_name)].

Definition do_list (db : list Entry) (args : Args) : list event * ending :=
  let out := [Print ("Entries:" +:+ String "010" "")] in
  let t : list (list cell) := [] in
  match
    let* entries :=
      match term args with
      | None => sorted_by_title db
      | Some term => _search_for_entry db term
      end in
    for_each
      (fun t entry =>
         let* group_name := getparent_Name entry in
         if String.eqb group_name "Backup" then Ok t
         else Ok (t ++ [list_row entry group_name]))
      entries t
  with
  | Raise e => (out, Raised (Exn e))
  | Ok t => (out ++ [PrintTable ["Title"; "User Name"; "Group"] t], Returned)
  end.

(** The row [do_list] shows for an entry: none for an entry of the
    ["Backup"] group, nor for one whose parent has no name. *)
Definition shown_row (entry : Entry) : option (list cell) :=
  match parent_Name entry with
  | Some group_name =>
      if String.eqb group_name "Backup" then None
      else Some (list_row entry group_name)
  | None => None
  end.

(** What the user does at a [raw_input] prompt: a line, or Ctrl-C.  When
    the list is used up the input is at its end, and stays there. *)
Inductive input : Type :=
  | Typed (line : string)
  | Interrupt.

Inductive asked : Type :=
  | Choice (choice : Z)
  | Interrupted
  | StillAsking.

(** [l[i]] for a Python list: a negative index counts from the end. *)
Definition list_getitem {A} (l : list A) (i : Z) : option A :=
  if (0 <=? i)%Z then l !! Z.to_nat i
  else if (- i <=? Z.of_nat (length l))%Z then l !! (length l - Z.to_nat (- i))%nat
  else None.

(** ["%-10s %s" % (field + ':', value)]: the name left-justified in ten
    columns; [None] prints as [None]. *)
Definition ljust (width : nat) (s : string) : string :=
  s +:+ string_of_list_ascii (repeat " "%char (width - String.length s)).

Definition str_of (value : option string) : string :=
  match value with
  | Some v => v
  | None => "None"
  end.

Definition field_line (entry : Entry) (field : string) : string :=
  ljust 10 (field +:+ ":") +:+ " " +:+ str_of (_find_string entry field).

Section do_get.
(** [int] of a typed line: the number, or [None] for [ValueError]. *)
Variable int : string -> option Z.

(** The [while not choice] loop for [n] entries; every turn is one unit of
    [fuel] and one prompt.  At the end of the input [raw_input] raises
    [EOFError], which the bare [except] takes like a wrong answer. *)
Fixpoint which_entry (fuel : nat) (inputs : list input) (n : nat)
  : list event * asked :=
  match fuel with
  | O => ([], StillAsking)
  | S fuel' =>
      let again (rest : list input) :=
        let '(events, a) := which_entry fuel' rest n in
        (RawInput "Which entry? " :: events, a) in
      match inputs with
      | [] => again []
      | Interrupt :: _ => ([RawInput "Which entry? "], Interrupted)
      | Typed line :: rest =>
          match int line with
          | Some choice =>
              if (choice <? 1)%Z || (Z.of_nat n <? choice)%Z
              then again rest
              else ([RawInput "Which entry? "], Choice choice)
          | None => again rest
          end
      end
  end.

(** An answer the loop does not take: a line that is no number, or a
    number that is not one of [1 .. n]. *)
Definition wrong_answer (n : nat) (i : input) : Prop :=
  match i with
  | Typed line =>
      match int line with
      | Some choice => (choice < 1 \/ Z.of_nat n < choice)%Z
      | None => True
      end
  | Interrupt => False
  end.

Definition get_row (i : nat) (entry : Entry) : list cell :=
  [Int (Z.of_nat i); Str (_find_string entry "Title");
   Str (_find_string entry "UserName"); Str (_find_string entry "URL")].

(** The part of [do_get] after the entry is picked. *)
Definition show_entry (args : Args) (entry : Entry) : list event :=
  if clipboard_copy args then
    [ClipboardCopy (_find_password entry)]
    ++ (if negb (quiet args) then
          let default_fields := ["title"; "username"; "url"] in
          let fields :=
            if truthy (entry_fields args) then entry_fields args else default_fields in
          [StderrWrite (String "010" "")]
          ++ map (fun field => Print (field_line entry field)) fields
        else [])
    ++ [StderrWrite (String "010" "Password has been copied to clipboard."
                     +:+ String "010" "")]
  else [].

(** [do_get], given the entries of the opened database and what the user
    types. *)
Definition do_get (fuel : nat) (inputs : list input) (db : list Entry) (args : Args)
  : list event * ending :=
  match _search_for_entry db (entry_id args) with
  | Raise (EntryNotFoundError msg) =>
      ([StderrWrite msg; StderrWrite (String "010" "")], Returned)
  | Raise e => ([], Raised (Exn e))
  | Ok entries =>
      let t :=
        fold_left
          (fun t (p : nat * Entry) => let '(i, entry) := p in t ++ [get_row i entry])
          (combine (seq 1 (length entries)) entries) [] in
      let out := [PrintTable ["#"; "Title"; "Username"; "URL"] t] in
      let '(events, selected) :=
        if (1 <? length entries)%nat then
          let '(events, a) := which_entry fuel inputs (length entries) in
          (events,
           match a with
           | Choice choice => inr (choice - 1)%Z
           | Interrupted => inl (Raised (SystemExit None))
           | StillAsking => inl Asking
           end)
        else ([], inr 0%Z) in
      match selected with
      | inl e => (out ++ events, e)
      | inr selected =>
          match list_getitem entries selected with
          | None => (out ++ events, Raised IndexError)
          | Some entry => (out ++ events ++ show_entry args entry, Returned)
          end
      end
  end.

End do_get.

(** The table [do_get] prints: the entries numbered from 1. *)
Definition numbered_rows (entries : list Entry) : list (list cell) :=
  imap (fun i entry => get_row (S i) entry) entries.

Definition get_table (entries : list Entry) : event :=
  PrintTable ["#"; "Title"; "Username"; "URL"] (numbered_rows entries).

(** [int] on the lines typed in the examples: a run of decimal digits is
    its number, any other line there is no number. *)
Definition digit_of (c : ascii) : option Z :=
  let n := nat_of_ascii c in
  if (48 <=? n)%nat && (n <=? 57)%nat then Some (Z.of_nat (n - 48)) else None.

Fixpoint int_digits (acc : Z) (s : string) : option Z :=
  match s with
  | EmptyString => Some acc
  | String c s' =>
      match digit_of c with
      | Some d => int_digits (10 * acc + d)%Z s'
      | None => None
      end
  end.

Definition int_decimal (line : string) : option Z :=
  match line with
  | EmptyString => None
  | _ => int_digits 0 line
  end.

(** * Properties *)

(** ** Field lookups *)

Lemma _find_string_loop_None ss key :
  _find_string_loop ss key = None <->
  forall s, s ∈ ss -> lower (Key s) <> lower key.
Proof.
  induction ss as [|s ss IH]; simpl.
  - split; [intros _ s Hs; inversion Hs | reflexivity].
  - destruct (String.eqb_spec (lower (Key s)) (lower key)) as [Heq|Hne].
    + split; [discriminate|]. intros Hall. exfalso.
      apply (Hall s); [left | exact Heq].
    + rewrite IH. split.
      * intros Hall s' Hs'. apply elem_of_cons in Hs' as [->|Hs']; auto.
      * intros Hall s' Hs'. apply Hall. by right.
Qed.

Lemma _find_string_loop_first pre s post key :
  (forall s', s' ∈ pre -> lower (Key s') <> lower key) ->
  lower (Key s) = lower key ->
  _find_string_loop (pre ++ s :: post) key = Some (Value s).
Proof.
  intros Hpre Hs. induction pre as [|p pre IH]; simpl.
  - apply String.eqb_eq in Hs. by rewrite Hs.
  - destruct (String.eqb_spec (lower (Key p)) (lower key)) as [Heq|_].
    + exfalso. apply (Hpre p); [left | exact Heq].
    + apply IH. intros s' Hs'. apply Hpre. by right.
Qed.

Lemma _find_string_loop_lower ss key key' :
  lower key' = lower key ->
  _find_string_loop ss key' = _find_string_loop ss key.
Proof.
  intros Hk. induction ss as [|s ss IH]; simpl; [done|].
  by rewrite Hk, IH.
Qed.

Lemma _find_password_loop_None ss :
  _find_password_loop ss = None <-> forall s, s ∈ ss -> Key s <> "Password".
Proof.
  induction ss as [|s ss IH]; simpl.
  - split; [intros _ s Hs; inversion Hs | reflexivity].
  - destruct (String.eqb_spec (Key s) "Password") as [Heq|Hne].
    + split; [discriminate|]. intros Hall. exfalso.
      apply (Hall s); [left | exact Heq].
    + rewrite IH. split.
      * intros Hall s' Hs'. apply elem_of_cons in Hs' as [->|Hs']; auto.
      * intros Hall s' Hs'. apply Hall. by right.
Qed.

Lemma _find_password_loop_first pre s post :
  (forall s', s' ∈ pre -> Key s' <> "Password") ->
  Key s = "Password" ->
  _find_password_loop (pre ++ s :: post) = Some (Value s).
Proof.
  intros Hpre Hs. induction pre as [|p pre IH]; simpl.
  - by rewrite Hs.
  - destruct (String.eqb_spec (Key p) "Password") as [Heq|_].
    + exfalso. apply (Hpre p); [left | exact Heq].
    + apply IH. intros s' Hs'. apply Hpre. by right.
Qed.

(** C7. [_find_string] compares the lowered query key with every lowered
    stored key: it returns the value of the first field whose key agrees
    with the query up to case, whatever the case of either; it returns
    [None], and raises nothing, exactly when no stored key agrees. *)
Theorem find_string_case_insensitive (entry : Entry) (key : string) :
  (forall pre s post,
      Entry_String entry = pre ++ s :: post ->
      (forall s', s' ∈ pre -> lower (Key s') <> lower key) ->
      lower (Key s) = lower key ->
      _find_string entry key = Some (Value s))
  /\ (_find_string entry key = None <->
      forall s, s ∈ Entry_String entry -> lower (Key s) <> lower key)
  /\ (forall key', lower key' = lower key ->
        _find_string entry key' = _find_string entry key).
Proof.
  unfold _find_string. split; [|split].
  - intros pre s post -> Hpre Hs. by apply _find_string_loop_first.
  - apply _find_string_loop_None.
  - intros key' Hk. by apply _find_string_loop_lower.
Qed.

(** C10. [_find_password] compares the stored key with ['Password'] as it
    is: it returns the value of the first field whose key is exactly
    ['Password'], and [None] when there is none, also when some stored key
    agrees with ['Password'] up to case only, which [_find_string] does
    find. *)
Theorem find_password_case_sensitive (entry : Entry) :
  (forall pre s post,
      Entry_String entry = pre ++ s :: post ->
      (forall s', s' ∈ pre -> Key s' <> "Password") ->
      Key s = "Password" ->
      _find_password entry = Some (Value s))
  /\ (_find_password entry = None <->
      forall s, s ∈ Entry_String entry -> Key s <> "Password")
  /\ ((forall s, s ∈ Entry_String entry -> Key s <> "Password") ->
      (exists s, s ∈ Entry_String entry /\ lower (Key s) = lower "Password") ->
      _find_password entry = None /\ is_Some (_find_string entry "Password")).
Proof.
  unfold _find_password, _find_string. split; [|split].
  - intros pre s post -> Hpre Hs. by apply _find_password_loop_first.
  - apply _find_password_loop_None.
  - intros Hno [s [Hs Hlow]]. split.
    + by apply _find_password_loop_None.
    + destruct (_find_string_loop (Entry_String entry) "Password") eqn:E; [eauto|].
      exfalso. rewrite _find_string_loop_None in E. by apply (E s).
Qed.

(** A concrete entry whose password field is keyed ["password"]. *)
Lemma find_password_case_sensitive_witness :
  let entry := {| Entry_String := [ {| Key := "Title"; Value := "mail" |};
                                    {| Key := "password"; Value := "hunter2" |} ];
                  parent_Name := Some "Internet" |} in
  _find_password entry = None /\ is_Some (_find_string entry "Password").
Proof.
  intros entry.
  apply (proj2 (proj2 (find_password_case_sensitive entry))).
  - intros s Hs. apply (bool_decide_unpack _).
    by repeat (apply elem_of_cons in Hs as [->|Hs]; [by vm_compute|]); inversion Hs.
  - exists {| Key := "password"; Value := "hunter2" |}. split; [|done]. right. left.
Defined.

Lemma find_string_case_insensitive_witness :
  let entry := entry_titled "mail" "Internet" in
  _find_string entry "USERNAME" = Some "user"
  /\ _find_string entry "username" = _find_string entry "UserName".
Proof.
  intros entry. destruct (find_string_case_insensitive entry "USERNAME") as (Hfirst & _ & Hcase).
  split.
  - apply (Hfirst [ {| Key := "Title"; Value := "mail" |} ]
                  {| Key := "UserName"; Value := "user" |}
                  [ {| Key := "Password"; Value := "secret" |} ]); [done| |done].
    intros s Hs. apply list_elem_of_singleton in Hs as ->. by vm_compute.
  - rewrite (Hcase "username" eq_refl). symmetry. by apply Hcase.
Defined.

(** ** The exclusion filter *)

Lemma filter_all_elem {A} (P : A -> Prop) `{forall x, Decision (P x)} (l : list A) :
  (forall x, x ∈ l -> P x) -> filter P l = l.
Proof.
  induction l as [|x l IH]; intros HP; [done|].
  rewrite filter_cons_True by (apply HP; left).
  rewrite IH; [done|]. intros y Hy. apply HP. by right.
Qed.

Lemma _filter_entries_loop ig entries kept :
  for_each
    (fun kept entry =>
       let* name := getparent_Name entry in
       Ok (if bool_decide (name ∉ ig) then kept ++ [entry] else kept))
    entries kept
  = if bool_decide (Forall has_group entries)
    then Ok (kept ++ filter (not_excluded (Some ig)) entries)
    else Raise AttributeError.
Proof.
  revert kept. induction entries as [|e l IH]; intros kept.
  - simpl. by rewrite app_nil_r.
  - cbn [for_each]. rewrite filter_cons.
    assert (Hne : forall name, parent_Name e = Some name ->
                    (not_excluded (Some ig) e <-> name ∉ ig)).
    { intros name Hname. unfold not_excluded. by rewrite Hname. }
    unfold getparent_Name at 1.
    destruct (parent_Name e) as [name|] eqn:Hname; cbn [res_bind].
    + specialize (Hne name eq_refl).
      rewrite IH. destruct (bool_decide (Forall _ l)) eqn:Hall.
      * apply bool_decide_eq_true_1 in Hall.
        rewrite (bool_decide_eq_true_2 (Forall has_group (e :: l)))
          by (constructor; [unfold has_group; rewrite Hname; eauto|done]).
        destruct (decide (name ∉ ig)) as [Hn|Hn].
        -- rewrite (bool_decide_eq_true_2 (name ∉ ig)) by done.
           rewrite decide_True by (by apply Hne). by rewrite <- app_assoc.
        -- rewrite (bool_decide_eq_false_2 (name ∉ ig)) by done.
           rewrite decide_False; [done|]. intros Hc. by apply Hne in Hc.
      * apply bool_decide_eq_false_1 in Hall.
        rewrite (bool_decide_eq_false_2 (Forall has_group (e :: l))); [done|].
        intros Hc. apply Hall. by inversion Hc.
    + rewrite (bool_decide_eq_false_2 (Forall has_group (e :: l))); [done|].
      intros Hc. inversion Hc as [|? ? [name Hn] ?]; subst. congruence.
Qed.

(** What [_filter_entries] computes: the candidates themselves without an
    exclusion list; with one, the candidates that pass it when every
    candidate has a group name, and [AttributeError] otherwise. *)
Lemma _filter_entries_eq entries ig :
  _filter_entries entries ig =
  match ig with
  | None => Ok entries
  | Some _ =>
      if bool_decide (Forall has_group entries)
      then Ok (filter (not_excluded ig) entries)
      else Raise AttributeError
  end.
Proof.
  destruct ig as [ig|]; [|done]. unfold _filter_entries.
  by rewrite _filter_entries_loop.
Qed.

Lemma _filter_entries_Ok entries ig found :
  _filter_entries entries ig = Ok found -> found = filter (not_excluded ig) entries.
Proof.
  rewrite _filter_entries_eq. destruct ig as [ig|].
  - destruct (bool_decide (Forall has_group entries)); congruence.
  - intros [= <-]. symmetry. clear. induction entries as [|e l IH]; [done|].
    rewrite filter_cons_True by done. by rewrite IH.
Qed.

Lemma _filter_entries_groups entries ig :
  Forall has_group entries ->
  _filter_entries entries ig = Ok (filter (not_excluded ig) entries).
Proof.
  intros Hall.
  destruct (_filter_entries entries ig) as [found|e] eqn:Hf.
  - by rewrite (_filter_entries_Ok _ _ _ Hf).
  - rewrite _filter_entries_eq in Hf. destruct ig; [|done].
    by rewrite bool_decide_eq_true_2 in Hf.
Qed.

Lemma _filter_entries_raises entries ig e :
  _filter_entries entries ig = Raise e ->
  e = AttributeError /\ ~ Forall has_group entries.
Proof.
  rewrite _filter_entries_eq. destruct ig as [ig|]; [|done].
  destruct (bool_decide (Forall has_group entries)) eqn:Hall; [done|].
  apply bool_decide_eq_false_1 in Hall. by intros [= <-].
Qed.

Lemma _filter_entries_sublist entries ignore_groups found :
  _filter_entries entries ignore_groups = Ok found -> sublist found entries.
Proof. intros Hf. apply _filter_entries_Ok in Hf as ->. apply sublist_filter. Qed.

Lemma _filter_entries_elem entries ig found entry :
  _filter_entries entries ig = Ok found ->
  entry ∈ found <-> entry ∈ entries /\ not_excluded ig entry.
Proof. intros Hf. apply _filter_entries_Ok in Hf as ->. rewrite list_elem_of_filter. tauto. Qed.

Lemma _filter_entries_nil ig : _filter_entries [] ig = Ok [].
Proof. by destruct ig. Qed.

Lemma not_excluded_Some ig entry :
  not_excluded (Some ig) entry <->
  exists name, parent_Name entry = Some name /\ name ∉ ig.
Proof.
  unfold not_excluded. destruct (parent_Name entry) as [name|].
  - split; [eauto|]. by intros (? & [= <-] & ?).
  - split; [done|]. by intros (? & ? & _).
Qed.

Lemma in_groups_iff groups entry :
  in_groups groups entry <->
  exists name, parent_Name entry = Some name /\ name ∈ groups.
Proof.
  unfold in_groups. destruct (parent_Name entry) as [name|].
  - split; [eauto|]. by intros (? & [= <-] & ?).
  - split; [done|]. by intros (? & ? & _).
Qed.




(** ** The loops of [fuzzy_search_by_title] *)

Lemma fold_left_append_filter {A} (P : A -> Prop) `{forall x, Decision (P x)}
    (l acc : list A) :
  fold_left (fun acc x => if bool_decide (P x) then acc ++ [x] else acc) l acc
  = acc ++ filter P l.
Proof.
  revert acc. induction l as [|x l IH]; intros acc; simpl.
  - by rewrite app_nil_r.
  - rewrite IH, filter_cons. case_bool_decide.
    + rewrite decide_True by done. by rewrite <- app_assoc.
    + by rewrite decide_False by done.
Qed.

(** A loop that collects the entries whose lowered title passes a test
    raises [AttributeError] when some entry has no title, and otherwise
    appends the entries that pass, in order. *)
Lemma for_each_lower_title (test : string -> bool) (l acc : list Entry) :
  for_each
    (fun entries entry =>
       let* t := str_lower (_get_title entry) in
       Ok (if test t then entries ++ [entry] else entries)) l acc
  = if bool_decide (Forall has_title l)
    then Ok (acc ++ filter (fun entry => from_option test false (lower_title entry) = true) l)
    else Raise AttributeError.
Proof.
  revert acc. induction l as [|e l IH]; intros acc; simpl.
  - by rewrite filter_nil, app_nil_r.
  - unfold has_title, lower_title in *. destruct (_get_title e) as [t|] eqn:Ht; simpl.
    + rewrite IH. rewrite filter_cons. unfold lower_title. rewrite Ht. simpl.
      destruct (bool_decide (Forall _ l)) eqn:Hall.
      * apply bool_decide_eq_true_1 in Hall.
        rewrite bool_decide_eq_true_2
          by (constructor; [rewrite Ht; eauto | done]).
        destruct (test (lower t)).
        -- rewrite decide_True by done. by rewrite <- app_assoc.
        -- by rewrite decide_False by done.
      * apply bool_decide_eq_false_1 in Hall.
        rewrite bool_decide_eq_false_2; [done|].
        intros Hc. apply Hall. by inversion Hc.
    + rewrite bool_decide_eq_false_2; [done|].
      intros Hc. inversion Hc as [|? ? [t Ht'] ?]; subst. congruence.
Qed.

(** ** The title index *)

Lemma MultiDict_getitem_keys {V} (d : MultiDict V) key :
  (key ∈ MultiDict_keys d -> exists vs, MultiDict_getitem d key = Ok vs)
  /\ (key ∉ MultiDict_keys d -> MultiDict_getitem d key = Raise (KeyError key)).
Proof.
  induction d as [|[k vs] d [IH1 IH2]]; simpl.
  - split; [intros Hin; inversion Hin | done].
  - destruct (String.eqb_spec k key) as [->|Hne].
    + split; [eauto|]. intros Hn. exfalso. apply Hn. left.
    + split.
      * intros Hin. apply elem_of_cons in Hin as [Heq|Hin]; [congruence|auto].
      * intros Hn. apply IH2. intros Hin. apply Hn. by right.
Qed.

Lemma MultiDict_append_keys {V} key (value : V) d :
  MultiDict_keys (MultiDict_append key value d) = MultiDict_keys d.
Proof.
  induction d as [|[k vs] d IH]; simpl; [done|].
  destruct (String.eqb k key); simpl; [done|]. f_equal. exact IH.
Qed.

Lemma MultiDict_append_getitem {V} key (value : V) d key' :
  MultiDict_getitem (MultiDict_append key value d) key' =
  if decide (key = key')
  then (let* vs := MultiDict_getitem d key in Ok (vs ++ [value]))
  else MultiDict_getitem d key'.
Proof.
  induction d as [|[k vs] d IH]; simpl.
  - destruct (decide (key = key')); by subst.
  - destruct (String.eqb_spec k key) as [->|Hne]; simpl.
    + destruct (decide (key = key')) as [->|Hne'].
      * by rewrite !String.eqb_refl.
      * destruct (String.eqb_spec key key'); [congruence|done].
    + rewrite IH. destruct (decide (key = key')) as [<-|Hne'].
      * destruct (String.eqb_spec k key); [congruence|done].
      * done.
Qed.

Lemma MultiDict_contains_keys {V} key (d : MultiDict V) :
  MultiDict_contains key d = bool_decide (key ∈ MultiDict_keys d).
Proof.
  induction d as [|[k vs] d IH]; simpl; [done|].
  rewrite IH. destruct (String.eqb_spec k key) as [->|Hne]; simpl.
  - symmetry. apply bool_decide_eq_true_2. left.
  - apply bool_decide_ext. rewrite elem_of_cons.
    split; [auto | intros [?|?]; [congruence | done]].
Qed.

Lemma MultiDict_getitem_app {V} (d1 d2 : MultiDict V) key :
  MultiDict_getitem (d1 ++ d2) key =
  if decide (key ∈ MultiDict_keys d1) then MultiDict_getitem d1 key
  else MultiDict_getitem d2 key.
Proof.
  induction d1 as [|[k vs] d1 IH]; simpl; [done|].
  destruct (String.eqb_spec k key) as [->|Hne].
  - rewrite decide_True; [done | left].
  - rewrite IH. apply decide_ext. rewrite elem_of_cons.
    split; [auto | intros [?|?]; [congruence | done]].
Qed.

Lemma MultiDict_setitem_keys {V} key (value : V) d :
  MultiDict_keys (MultiDict_setitem key value d) =
  if decide (key ∈ MultiDict_keys d) then MultiDict_keys d
  else MultiDict_keys d ++ [key].
Proof.
  unfold MultiDict_setitem. rewrite MultiDict_append_keys, MultiDict_contains_keys.
  destruct (decide (key ∈ MultiDict_keys d)) as [Hin|Hn].
  - by rewrite bool_decide_eq_true_2.
  - rewrite bool_decide_eq_false_2 by done.
    unfold MultiDict_keys. by rewrite map_app.
Qed.

Lemma MultiDict_setitem_entries {V} key (value : V) d key' :
  entries_of (MultiDict_setitem key value d) key' =
  if decide (key = key') then entries_of d key ++ [value] else entries_of d key'.
Proof.
  unfold entries_of, MultiDict_setitem.
  rewrite MultiDict_append_getitem, MultiDict_contains_keys.
  destruct (decide (key ∈ MultiDict_keys d)) as [Hin|Hn].
  - rewrite bool_decide_eq_true_2 by done.
    destruct (decide (key = key')); [|done].
    destruct (proj1 (MultiDict_getitem_keys d key) Hin) as [vs ->]. done.
  - rewrite bool_decide_eq_false_2 by done.
    rewrite !MultiDict_getitem_app.
    destruct (decide (key = key')) as [<-|Hne].
    + rewrite decide_False by done.
      rewrite (proj2 (MultiDict_getitem_keys d key) Hn). simpl.
      by rewrite String.eqb_refl.
    + destruct (decide (key' ∈ MultiDict_keys d)) as [|Hn']; [done|]. simpl.
      destruct (String.eqb_spec key key'); [congruence|].
      by rewrite (proj2 (MultiDict_getitem_keys d key') Hn').
Qed.

Lemma first_occurrences_filter_seen (seen : list string) t (l : list string) :
  t ∈ seen ->
  filter (fun y => y ∉ seen) (filter (fun y => y <> t) l) = filter (fun y => y ∉ seen) l.
Proof.
  intros Hin. rewrite list_filter_filter. apply list_filter_iff.
  intros y. split; [tauto|]. intros Hy. split; [done|]. by intros ->.
Qed.

Lemma first_occurrences_filter_new (seen : list string) t (l : list string) :
  filter (fun y => y ∉ seen ++ [t]) l
  = filter (fun y => y ∉ seen) (filter (fun y => y <> t) l).
Proof.
  rewrite list_filter_filter. apply list_filter_iff.
  intros y. rewrite elem_of_app, list_elem_of_singleton. tauto.
Qed.

(** The loop that builds [entry_map]. *)
Lemma entry_map_loop (l : list Entry) (d : MultiDict Entry) :
  Forall has_title l ->
  exists d',
    for_each
      (fun (entry_map : MultiDict Entry) entry =>
         let* t := str_lower (_get_title entry) in
         Ok (MultiDict_setitem t entry entry_map)) l d = Ok d'
    /\ MultiDict_keys d' =
       MultiDict_keys d
       ++ filter (fun y => y ∉ MultiDict_keys d) (first_occurrences (omap lower_title l))
    /\ forall key, entries_of d' key = entries_of d key ++ bucket l key.
Proof.
  revert d. induction l as [|e l IH]; intros d Hall; simpl.
  - exists d. split; [done|]. split.
    + by rewrite filter_nil, app_nil_r.
    + intros key. unfold bucket. by rewrite filter_nil, app_nil_r.
  - inversion Hall as [|? ? [t Ht] Hall']; subst.
    unfold lower_title at 1. rewrite Ht. simpl.
    destruct (IH (MultiDict_setitem (lower t) e d) Hall') as (d' & Hrun & Hkeys & Hent).
    exists d'. split; [exact Hrun|]. split.
    + rewrite Hkeys, MultiDict_setitem_keys. rewrite filter_cons.
      destruct (decide (lower t ∈ MultiDict_keys d)) as [Hin|Hn].
      * rewrite decide_False by (intros Hc; by apply Hc).
        by rewrite first_occurrences_filter_seen.
      * rewrite decide_True by done.
        rewrite first_occurrences_filter_new. by rewrite <- app_assoc.
    + intros key. rewrite Hent, MultiDict_setitem_entries.
      unfold bucket. rewrite filter_cons.
      assert (Hlt : lower_title e = Some (lower t)) by (unfold lower_title; by rewrite Ht).
      rewrite Hlt.
      destruct (decide (lower t = key)) as [->|Hne].
      * rewrite decide_True by done. by rewrite <- app_assoc.
      * rewrite decide_False by congruence. done.
Qed.

(** Reading the buckets of keys that are all in the index raises nothing. *)
Lemma getitem_loop (d : MultiDict Entry) (names : list string) (acc : list (list Entry)) :
  Forall (fun name => name ∈ MultiDict_keys d) names ->
  for_each
    (fun lists name => let* l := MultiDict_getitem d name in Ok (lists ++ [l]))
    names acc
  = Ok (acc ++ map (fun name => entries_of d name) names).
Proof.
  revert acc. induction names as [|name names IH]; intros acc Hall; simpl.
  - by rewrite app_nil_r.
  - inversion Hall as [|? ? Hin Hall']; subst.
    destruct (proj1 (MultiDict_getitem_keys d name) Hin) as [vs Hvs].
    rewrite Hvs. simpl. rewrite IH by done.
    unfold entries_of at 2. rewrite Hvs. by rewrite <- app_assoc.
Qed.

(** ** Order of the scored possibilities and [_nlargest] *)

Lemma String_ltb_leb a b : String.ltb a b = negb (String.leb b a).
Proof.
  unfold String.ltb, String.leb. rewrite (String.compare_antisym a b).
  by destruct (String.compare b a).
Qed.

Lemma String_leb_trans a b c :
  String.leb a b = true -> String.leb b c = true -> String.leb a c = true.
Proof.
  intros Hab Hbc. apply Is_true_true.
  change (String.le a c). transitivity b; apply Is_true_true; assumption.
Qed.

Lemma Qlt_asym_False (x y : Q) : (x < y)%Q -> (y < x)%Q -> False.
Proof. intros H1 H2. apply (Qlt_irrefl x). exact (Qlt_trans _ _ _ H1 H2). Qed.

Lemma Qlt_Qeq_False (x y : Q) : (x < y)%Q -> (x == y)%Q -> False.
Proof. intros H1 H2. rewrite H2 in H1. exact (Qlt_irrefl _ H1). Qed.

Lemma scored_ltb_false p q :
  difflib.scored_ltb p q = false <->
  (fst q < fst p)%Q \/ ((fst p == fst q)%Q /\ String.leb (snd q) (snd p) = true).
Proof.
  unfold difflib.scored_ltb. rewrite String_ltb_leb.
  destruct (Qcompare_spec (fst p) (fst q)) as [Heq|Hlt|Hgt].
  - rewrite negb_false_iff. split; [auto|].
    intros [Hlt|[_ Hle]]; [|done]. destruct (Qlt_Qeq_False _ _ Hlt). by symmetry.
  - split; [done|]. intros [Hgt|[Heq _]].
    + destruct (Qlt_asym_False _ _ Hlt Hgt).
    + destruct (Qlt_Qeq_False _ _ Hlt Heq).
  - split; auto.
Qed.

Lemma scored_ltb_true p q :
  difflib.scored_ltb p q = true <->
  (fst p < fst q)%Q \/ ((fst p == fst q)%Q /\ String.ltb (snd p) (snd q) = true).
Proof.
  unfold difflib.scored_ltb.
  destruct (Qcompare_spec (fst p) (fst q)) as [Heq|Hlt|Hgt].
  - split; [auto|].
    intros [Hlt|[_ Hle]]; [|done]. destruct (Qlt_Qeq_False _ _ Hlt Heq).
  - split; auto.
  - split; [done|]. intros [Hlt|[Heq _]].
    + destruct (Qlt_asym_False _ _ Hlt Hgt).
    + destruct (Qlt_Qeq_False _ _ Hgt). by symmetry.
Qed.

Lemma scored_ge_trans p q r :
  difflib.scored_ltb p q = false -> difflib.scored_ltb q r = false ->
  difflib.scored_ltb p r = false.
Proof.
  rewrite !scored_ltb_false.
  intros [Hqp|[Hpq Hs1]] [Hrq|[Hqr Hs2]].
  - left. exact (Qlt_trans _ _ _ Hrq Hqp).
  - left. by rewrite <- Hqr.
  - left. by rewrite Hpq.
  - right. split; [by rewrite Hpq | by apply String_leb_trans with (snd q)].
Qed.

Lemma scored_ltb_asym p q :
  difflib.scored_ltb p q = true -> difflib.scored_ltb q p = false.
Proof.
  rewrite scored_ltb_true, scored_ltb_false.
  intros [Hlt|[Heq Hs]]; [by left|]. right. split; [by symmetry|].
  rewrite String_ltb_leb in Hs. apply negb_true_iff in Hs.
  destruct (String.leb_total (snd p) (snd q)) as [Hle|Hle]; congruence.
Qed.

(** Two scored possibilities neither of which is below the other carry the
    same string. *)
Lemma scored_ltb_total p q :
  difflib.scored_ltb p q = false -> difflib.scored_ltb q p = false ->
  snd p = snd q.
Proof.
  rewrite !scored_ltb_false.
  intros [Hqp|[Heq1 Hs1]] [Hpq|[Heq2 Hs2]].
  - destruct (Qlt_asym_False _ _ Hqp Hpq).
  - destruct (Qlt_Qeq_False _ _ Hqp Heq2).
  - destruct (Qlt_Qeq_False _ _ Hpq Heq1).
  - by apply String.leb_antisym.
Qed.

Lemma scored_insert_Permutation x l : difflib.scored_insert x l ≡ₚ x :: l.
Proof.
  induction l as [|y l IH]; simpl; [done|].
  destruct (difflib.scored_ltb x y); [|done].
  rewrite IH. apply perm_swap.
Qed.

Lemma sorted_reverse_Permutation l : difflib.sorted_reverse l ≡ₚ l.
Proof.
  induction l as [|x l IH]; simpl; [done|].
  rewrite scored_insert_Permutation. by rewrite IH.
Qed.

Lemma scored_insert_sorted x l :
  StronglySorted difflib.scored_ge l -> StronglySorted difflib.scored_ge (difflib.scored_insert x l).
Proof.
  induction 1 as [|y l Hl IH Hy]; simpl.
  - repeat constructor.
  - destruct (difflib.scored_ltb x y) eqn:Hxy.
    + constructor; [exact IH|].
      rewrite scored_insert_Permutation. constructor; [|exact Hy].
      by apply scored_ltb_asym.
    + constructor; [by constructor|]. constructor; [exact Hxy|].
      eapply Forall_impl; [exact Hy|]. simpl. intros z Hz.
      by apply scored_ge_trans with y.
Qed.

Lemma sorted_reverse_sorted l : StronglySorted difflib.scored_ge (difflib.sorted_reverse l).
Proof.
  induction l as [|x l IH]; simpl; [constructor|]. by apply scored_insert_sorted.
Qed.

Lemma StronglySorted_take {A} (R : relation A) n l :
  StronglySorted R l -> StronglySorted R (take n l).
Proof.
  intros Hl. rewrite <- (take_drop n l) in Hl.
  by apply StronglySorted_app_1_l in Hl.
Qed.

(** When [_nlargest] leaves something out it keeps [n] elements, and what
    it leaves out is not above anything it keeps. *)
Lemma _nlargest_full n l q :
  q ∈ l -> q ∉ difflib._nlargest n l -> length (difflib._nlargest n l) = n.
Proof.
  unfold difflib._nlargest. intros Hq Hnq.
  rewrite <- (sorted_reverse_Permutation l) in Hq.
  rewrite <- (take_drop n (difflib.sorted_reverse l)) in Hq.
  apply elem_of_app in Hq as [Hq|Hq]; [done|].
  apply length_take_le.
  destruct (decide (n <= length (difflib.sorted_reverse l))) as [|Hgt]; [done|].
  rewrite drop_ge in Hq by lia. inversion Hq.
Qed.

Lemma _nlargest_dropped n l p q :
  p ∈ difflib._nlargest n l -> q ∈ l -> q ∉ difflib._nlargest n l ->
  difflib.scored_ltb p q = false.
Proof.
  unfold difflib._nlargest. intros Hp Hq Hnq.
  pose proof (sorted_reverse_sorted l) as Hs.
  rewrite <- (sorted_reverse_Permutation l) in Hq.
  rewrite <- (take_drop n (difflib.sorted_reverse l)) in Hq, Hs.
  apply elem_of_app in Hq as [Hq|Hq]; [done|].
  by apply (StronglySorted_app_1_elem_of _ _ _ _ _ Hs).
Qed.

(** The scored list [get_close_matches] builds before it picks the best. *)
Lemma get_close_matches_result word possibilities cutoff acc :
  fold_left
    (fun (result : list (Q * string)) x =>
       if difflib.close_enough word x cutoff
       then result ++ [(difflib.score word x, x)]
       else result)
    possibilities acc
  = acc ++ map (fun x => (difflib.score word x, x))
               (filter (fun x => difflib.close_enough word x cutoff = true) possibilities).
Proof.
  revert acc. induction possibilities as [|x l IH]; intros acc; simpl.
  - by rewrite app_nil_r.
  - rewrite IH, filter_cons. destruct (difflib.close_enough word x cutoff).
    + rewrite decide_True by done. by rewrite <- app_assoc.
    + by rewrite decide_False by done.
Qed.

(** ** [get_close_matches] *)

Lemma map_fmap {A B} (f : A -> B) l : map f l = f <$> l.
Proof. induction l; simpl; by f_equal. Qed.

Lemma submseteq_NoDup {A} (l k : list A) : l ⊆+ k -> NoDup k -> NoDup l.
Proof.
  intros Hsub Hk. apply submseteq_Permutation in Hsub as [k' Hk'].
  rewrite Hk' in Hk. by apply NoDup_app in Hk as [? _].
Qed.

Lemma get_close_matches_eq word possibilities n cutoff :
  difflib.get_close_matches word possibilities n cutoff
  = map snd (difflib._nlargest n
      (map (fun x => (difflib.score word x, x))
           (filter (fun x => difflib.close_enough word x cutoff = true) possibilities))).
Proof.
  unfold difflib.get_close_matches. by rewrite get_close_matches_result.
Qed.

Lemma get_close_matches_submseteq word possibilities n cutoff :
  difflib.get_close_matches word possibilities n cutoff
  ⊆+ filter (fun x => difflib.close_enough word x cutoff = true) possibilities.
Proof.
  rewrite get_close_matches_eq. unfold difflib._nlargest.
  set (F := filter _ possibilities).
  assert (HF : F = map snd (map (fun x => (difflib.score word x, x)) F)).
  { rewrite map_map. simpl. by rewrite map_id. }
  rewrite HF at 2. rewrite !(map_fmap snd). apply fmap_submseteq.
  etrans; [apply submseteq_take|].
  apply Permutation_submseteq, sorted_reverse_Permutation.
Qed.

Lemma get_close_matches_elem word possibilities n cutoff x :
  x ∈ difflib.get_close_matches word possibilities n cutoff ->
  x ∈ possibilities /\ difflib.close_enough word x cutoff = true.
Proof.
  intros Hx. eapply elem_of_submseteq in Hx; [|apply get_close_matches_submseteq].
  by apply list_elem_of_filter in Hx as [? ?].
Qed.

Lemma get_close_matches_NoDup word possibilities n cutoff :
  NoDup possibilities ->
  NoDup (difflib.get_close_matches word possibilities n cutoff).
Proof.
  intros Hnd. eapply submseteq_NoDup; [apply get_close_matches_submseteq|].
  by apply NoDup_filter.
Qed.

Lemma get_close_matches_length word possibilities n cutoff :
  length (difflib.get_close_matches word possibilities n cutoff) <= n.
Proof.
  rewrite get_close_matches_eq. unfold difflib._nlargest.
  rewrite length_map, length_take. lia.
Qed.

(** The kept possibilities come in descending order of [(score, x)]. *)
Lemma get_close_matches_sorted word possibilities n cutoff :
  StronglySorted
    (fun x y => difflib.scored_ge (difflib.score word x, x) (difflib.score word y, y))
    (difflib.get_close_matches word possibilities n cutoff).
Proof.
  rewrite get_close_matches_eq. unfold difflib._nlargest.
  set (L := map _ (filter _ possibilities)).
  assert (Hall : Forall (fun p => fst p = difflib.score word (snd p))
                        (take n (difflib.sorted_reverse L))).
  { apply Forall_forall. intros p Hp.
    pose proof (elem_of_submseteq _ _ _ Hp (submseteq_take (difflib.sorted_reverse L) n)) as Hp'.
    rewrite sorted_reverse_Permutation in Hp'. unfold L in Hp'.
    rewrite map_fmap in Hp'. by apply list_elem_of_fmap in Hp' as (x & -> & _). }
  pose proof (StronglySorted_take _ n _ (sorted_reverse_sorted L)) as Hs.
  induction Hs as [|p l Hl IH Hp]; simpl; [constructor|].
  inversion Hall as [|? ? Hp1 Hall']; subst. constructor; [by apply IH|].
  rewrite map_fmap. apply Forall_fmap, Forall_forall. intros q Hq. simpl.
  pose proof (proj1 (Forall_forall _ _) Hp q Hq) as Hpq.
  pose proof (proj1 (Forall_forall _ _) Hall' q Hq) as Hq1.
  destruct p as [s x], q as [s' y]. simpl in *. by subst.
Qed.

(** A close enough possibility that is not kept is below each of the [n]
    that are. *)
Lemma get_close_matches_full word possibilities n cutoff x :
  x ∈ possibilities -> difflib.close_enough word x cutoff = true ->
  x ∉ difflib.get_close_matches word possibilities n cutoff ->
  length (difflib.get_close_matches word possibilities n cutoff) = n.
Proof.
  rewrite get_close_matches_eq. set (L := map _ (filter _ possibilities)).
  intros Hx Hce Hnx. rewrite length_map.
  apply (_nlargest_full n L (difflib.score word x, x)).
  - unfold L. rewrite map_fmap. apply list_elem_of_fmap. exists x. split; [done|].
    by apply list_elem_of_filter.
  - intros Hc. apply Hnx. rewrite map_fmap. apply list_elem_of_fmap.
    by exists (difflib.score word x, x).
Qed.

Lemma get_close_matches_dropped word possibilities n cutoff x y :
  x ∈ possibilities -> difflib.close_enough word x cutoff = true ->
  x ∉ difflib.get_close_matches word possibilities n cutoff ->
  y ∈ difflib.get_close_matches word possibilities n cutoff ->
  difflib.scored_ltb (difflib.score word x, x) (difflib.score word y, y) = true.
Proof.
  rewrite get_close_matches_eq. set (L := map _ (filter _ possibilities)).
  intros Hx Hce Hnx Hy.
  assert (HxL : (difflib.score word x, x) ∈ L).
  { unfold L. rewrite map_fmap. apply list_elem_of_fmap. exists x. split; [done|].
    by apply list_elem_of_filter. }
  assert (Hxn : (difflib.score word x, x) ∉ difflib._nlargest n L).
  { intros Hc. apply Hnx. rewrite map_fmap. apply list_elem_of_fmap.
    by exists (difflib.score word x, x). }
  rewrite map_fmap in Hy. apply list_elem_of_fmap in Hy as (p & -> & Hp).
  assert (Hp' : p = (difflib.score word (snd p), snd p)).
  { pose proof (elem_of_submseteq _ _ _ Hp (submseteq_take (difflib.sorted_reverse L) n)) as Hp'.
    rewrite sorted_reverse_Permutation in Hp'. unfold L in Hp'.
    rewrite map_fmap in Hp'. by apply list_elem_of_fmap in Hp' as (z & -> & _). }
  pose proof (_nlargest_dropped n L p _ Hp HxL Hxn) as Hge.
  rewrite <- Hp'.
  destruct (difflib.scored_ltb (difflib.score word x, x) p) eqn:Hlt; [done|].
  exfalso. apply Hxn. pose proof (scored_ltb_total _ _ Hge Hlt) as Heq.
  rewrite Hp' in Hp. simpl in Heq. by rewrite Heq in Hp.
Qed.

(** The result does not depend on the order the possibilities come in:
    whichever order a [dict] lists its keys in, the same keys are kept, in
    the same order. *)
Lemma get_close_matches_Permutation word possibilities possibilities' n cutoff :
  possibilities ≡ₚ possibilities' ->
  difflib.get_close_matches word possibilities n cutoff
  = difflib.get_close_matches word possibilities' n cutoff.
Proof.
  intros Hperm. rewrite !get_close_matches_eq. unfold difflib._nlargest.
  do 2 f_equal. rewrite !map_fmap.
  set (f := fun x => (difflib.score word x, x)).
  set (P := fun x => difflib.close_enough word x cutoff = true).
  apply (StronglySorted_unique_strong difflib.scored_ge);
    [|apply sorted_reverse_sorted..|].
  - intros p q Hp Hq Hpq Hqp.
    rewrite sorted_reverse_Permutation in Hp, Hq.
    apply list_elem_of_fmap in Hp as (x & -> & _).
    apply list_elem_of_fmap in Hq as (y & -> & _).
    pose proof (scored_ltb_total _ _ Hpq Hqp) as Heq. simpl in Heq. by subst.
  - rewrite !sorted_reverse_Permutation. by rewrite Hperm.
Qed.

(** ** The staged search *)

Lemma filter_all {A} (P : A -> Prop) `{forall x, Decision (P x)} (l : list A) :
  (forall x, P x) -> filter P l = l.
Proof.
  intros HP. induction l as [|x l IH]; [done|].
  rewrite filter_cons_True by done. by rewrite IH.
Qed.

Lemma truthy_false {A} (l : list A) : truthy l = false <-> l = [].
Proof. destruct l; simpl; split; congruence. Qed.

Lemma caseless_test title (db : list Entry) :
  filter (fun entry =>
            from_option (fun t => String.eqb t (lower title)) false (lower_title entry) = true) db
  = caseless_candidates db title.
Proof.
  apply list_filter_iff. intros e. destruct (lower_title e) as [t|]; simpl.
  - rewrite String.eqb_eq. split; congruence.
  - split; discriminate.
Qed.

Lemma substring_test title (db : list Entry) :
  filter (fun entry =>
            from_option (fun t => str_in (lower title) t) false (lower_title entry) = true) db
  = substring_candidates db title.
Proof.
  apply list_filter_iff. intros e. unfold title_contains.
  by destruct (lower_title e).
Qed.

(** The index the code builds has the lowered titles as keys, in the order
    of their first occurrence, and under each key the entries with that
    lowered title, in store order. *)
Lemma build_entry_map_buckets db :
  Forall has_title db ->
  exists entry_map,
    build_entry_map db = Ok entry_map
    /\ MultiDict_keys entry_map = TitleIndex_keys db
    /\ forall key, entries_of entry_map key = bucket db key.
Proof.
  intros Hall. destruct (entry_map_loop db [] Hall) as (d & Hrun & Hkeys & Hent).
  exists d. split; [exact Hrun|]. split; [|exact Hent].
  rewrite Hkeys. simpl. apply filter_all. intros; apply not_elem_of_nil.
Qed.

(** The stage 4 block of the code, run on a store whose entries all have a
    title. *)
Lemma approximate_stage db title ig :
  Forall has_title db ->
  (let* entry_map := build_entry_map db in
   let matches :=
     difflib.get_close_matches (lower title) (MultiDict_keys entry_map) 3 (7 # 10) in
   if truthy matches then
     let* lists :=
       for_each
         (fun lists name =>
            let* l := MultiDict_getitem entry_map name in Ok (lists ++ [l]))
         matches [] in
     _filter_entries (concat lists) ig
   else Ok [])
  = _filter_entries (approximate_candidates db title) ig.
Proof.
  intros Hall. destruct (build_entry_map_buckets db Hall) as (d & -> & Hkeys & Hent).
  cbn [res_bind]. rewrite Hkeys. fold (kept_keys db title).
  unfold approximate_candidates.
  destruct (truthy (kept_keys db title)) eqn:Ht.
  - rewrite getitem_loop.
    + cbn [res_bind]. do 2 f_equal. apply map_ext. intros key. by rewrite Hent.
    + apply Forall_forall. intros key Hk. rewrite Hkeys.
      by apply get_close_matches_elem in Hk as [? _].
  - apply truthy_false in Ht. rewrite Ht. simpl. by rewrite _filter_entries_nil.
Qed.

(** What [fuzzy_search_by_title] computes, stage by stage: the exact
    matches decide alone when there are any; otherwise an entry without a
    title makes the search raise [AttributeError]; otherwise the first
    non-empty list among the case-insensitive, substring and approximate
    candidates is filtered and returned. *)
Lemma fuzzy_search_by_title_stages db title ig :
  fuzzy_search_by_title db title ig =
  if truthy (exact_candidates db title)
  then _filter_entries (exact_candidates db title) ig
  else if bool_decide (Forall has_title db)
  then _filter_entries
         (first_nonempty [caseless_candidates db title;
                          substring_candidates db title;
                          approximate_candidates db title]) ig
  else Raise AttributeError.
Proof.
  unfold fuzzy_search_by_title.
  rewrite (fold_left_append_filter (fun entry => _get_title entry = Some title)).
  rewrite app_nil_l. fold (exact_candidates db title).
  destruct (truthy (exact_candidates db title)) eqn:H1; [done|].
  apply truthy_false in H1. rewrite H1.
  rewrite (for_each_lower_title (fun t => String.eqb t (lower title))).
  destruct (bool_decide (Forall has_title db)) eqn:Hall; [|done].
  apply bool_decide_eq_true_1 in Hall.
  rewrite app_nil_l, caseless_test. unfold res_bind at 1. simpl first_nonempty.
  destruct (truthy (caseless_candidates db title)) eqn:H2; [done|].
  apply truthy_false in H2. rewrite H2.
  rewrite (for_each_lower_title (fun t => str_in (lower title) t)).
  rewrite bool_decide_eq_true_2 by done.
  rewrite app_nil_l, substring_test. unfold res_bind at 1.
  destruct (truthy (substring_candidates db title)) eqn:H3; [done|].
  etrans; [exact (approximate_stage db title ig Hall)|].
  destruct (truthy (approximate_candidates db title)) eqn:H4; [done|].
  apply truthy_false in H4. by rewrite H4.
Qed.

Lemma first_nonempty_elem {A} (ls : list (list A)) :
  first_nonempty ls <> [] -> first_nonempty ls ∈ ls.
Proof.
  induction ls as [|l ls IH]; simpl; [done|].
  destruct l as [|x l]; simpl; intros Hne; [right; auto | left].
Qed.


Lemma fuzzy_search_by_title_first db title ig :
  Forall has_title db ->
  fuzzy_search_by_title db title ig
  = _filter_entries (first_nonempty (stages db title)) ig.
Proof.
  intros Hall. rewrite fuzzy_search_by_title_stages. unfold stages.
  simpl first_nonempty. destruct (truthy (exact_candidates db title)); [done|].
  by rewrite bool_decide_eq_true_2.
Qed.

Lemma filter_none {A} (P : A -> Prop) `{forall x, Decision (P x)} (l : list A) :
  Forall (fun x => ~ P x) l -> filter P l = [].
Proof.
  induction 1 as [|x l Hx Hl IH]; [done|]. by rewrite filter_cons_False.
Qed.

(** C1, as the code has it.  For a store whose entries all have a title:
    the emptiness of a stage is decided on its raw candidates; the
    exclusion filter is applied to the candidates of the first stage that
    has any, and what the filter gives is the result.  So when every
    candidate of that stage lies in an excluded group the result is empty:
    no later stage is tried. *)
Theorem first_raw_stage_decides db title ig :
  Forall has_title db ->
  fuzzy_search_by_title db title ig
  = _filter_entries (first_nonempty (stages db title)) ig
  /\ (forall excluded,
        ig = Some excluded ->
        Forall (in_groups excluded) (first_nonempty (stages db title)) ->
        fuzzy_search_by_title db title ig = Ok []).
Proof.
  intros Hall. split; [by apply fuzzy_search_by_title_first|].
  intros excluded -> Hex. rewrite fuzzy_search_by_title_first by done.
  rewrite _filter_entries_groups.
  - f_equal. apply filter_none.
    eapply Forall_impl; [exact Hex|]. intros e He Hn.
    apply in_groups_iff in He as (name & Hname & Hin).
    apply not_excluded_Some in Hn as (name' & Hname' & Hnin). congruence.
  - eapply Forall_impl; [exact Hex|]. intros e He.
    apply in_groups_iff in He as (name & Hname & _). by exists name.
Qed.

(** C1 fails on the code: the only case-insensitive match of ["gmail"] is
    in the excluded group, a title outside it contains ["gmail"], and the
    search returns nothing instead of that entry. *)
Lemma escalation_after_filter_counterexample :
  let e1 := entry_titled "GMAIL" "Backup" in
  let e2 := entry_titled "My gmail account" "Internet" in
  let db := [e1; e2] in
  _filter_entries (caseless_candidates db "gmail") (Some ["Backup"]) = Ok []
  /\ _filter_entries (substring_candidates db "gmail") (Some ["Backup"]) = Ok [e2]
  /\ Spec.Resolve "gmail" db ["Backup"] = [e2]
  /\ fuzzy_search_by_title db "gmail" (Some ["Backup"]) = Ok []
  /\ fuzzy_search_by_title db "gmail" (Some ["Backup"])
     <> Ok (Spec.Resolve "gmail" db ["Backup"]).
Proof. vm_compute. repeat split; discriminate. Qed.

Lemma first_raw_stage_decides_witness :
  let db := [entry_titled "GMAIL" "Backup"; entry_titled "My gmail account" "Internet"] in
  Forall has_title db
  /\ fuzzy_search_by_title db "gmail" (Some ["Backup"]) = Ok [].
Proof.
  intros db.
  assert (Hall : Forall has_title db) by (repeat constructor; by eexists).
  split; [exact Hall|].
  destruct (first_raw_stage_decides db "gmail" (Some ["Backup"]) Hall) as [_ Hex].
  apply (Hex ["Backup"]); [reflexivity|].
  vm_compute. repeat constructor.
Defined.

(** ** [_search_for_entry] *)

Lemma _search_for_entry_eq db term :
  _search_for_entry db term =
  match fuzzy_search_by_title db term (Some ["Backup"]) with
  | Ok [] => Raise (not_found term)
  | Ok entries => Ok entries
  | Raise e => Raise e
  end.
Proof.
  unfold _search_for_entry, not_found.
  destruct (fuzzy_search_by_title db term (Some ["Backup"])) as [[|e es]|]; done.
Qed.

(** C4, as the code has it.  Take a store whose entries all have a title,
    and the candidates of the first stage that has any.  When the group of
    every candidate has a name, let [found] be what the exclusion of
    ["Backup"] leaves of them: the search raises [EntryNotFoundError],
    with the message that carries the term, exactly when [found] is
    empty, it returns [found] when it is not, and it raises nothing else.
    In particular it raises [EntryNotFoundError] when all four stages are
    empty after filtering.  When the parent of some candidate has no name
    the exclusion fails and the search raises [AttributeError]. *)
Theorem search_not_found db term :
  Forall has_title db ->
  let candidates := first_nonempty (stages db term) in
  let found := filter (not_excluded (Some ["Backup"])) candidates in
  (Forall has_group candidates ->
   _filter_entries candidates (Some ["Backup"]) = Ok found
   /\ (_search_for_entry db term = Raise (not_found term) <-> found = [])
   /\ (found <> [] -> _search_for_entry db term = Ok found)
   /\ (forall e, _search_for_entry db term = Raise e -> e = not_found term))
  /\ (~ Forall has_group candidates ->
      _search_for_entry db term = Raise AttributeError)
  /\ (Forall (fun stage => _filter_entries stage (Some ["Backup"]) = Ok [])
             (stages db term) ->
      _search_for_entry db term = Raise (not_found term)).
Proof.
  intros Hall candidates found.
  assert (Hrun : _search_for_entry db term =
                 match _filter_entries candidates (Some ["Backup"]) with
                 | Ok [] => Raise (not_found term)
                 | Ok entries => Ok entries
                 | Raise e => Raise e
                 end).
  { by rewrite _search_for_entry_eq, fuzzy_search_by_title_first by done. }
  split_and!.
  - intros Hg. rewrite (_filter_entries_groups _ _ Hg) in Hrun. fold found in Hrun.
    split; [by apply _filter_entries_groups|]. rewrite Hrun. split_and!.
    + by destruct found.
    + by destruct found.
    + destruct found; congruence.
  - intros Hno. rewrite Hrun, _filter_entries_eq. by rewrite bool_decide_eq_false_2.
  - intros Hst. rewrite Hrun. subst candidates found.
    destruct (first_nonempty (stages db term)) as [|e l] eqn:Hf; [done|].
    assert (Hin : e :: l ∈ stages db term).
    { rewrite <- Hf. apply first_nonempty_elem. by rewrite Hf. }
    by rewrite (proj1 (Forall_forall _ _) Hst _ Hin).
Qed.

(** C4 fails on the code.  The exact match of ["gmail"] is in the
    excluded group, the case-insensitive stage has an entry outside it, and
    the search raises [EntryNotFoundError] all the same.  And
    [EntryNotFoundError] is not the only error: when an earlier version of
    the entry is among the exact matches, the search raises
    [AttributeError]. *)
Lemma search_not_found_counterexample :
  let e1 := entry_titled "gmail" "Backup" in
  let e2 := entry_titled "Gmail" "Internet" in
  let db := [e1; e2] in
  _search_for_entry db "gmail" = Raise (not_found "gmail")
  /\ _filter_entries (caseless_candidates db "gmail") (Some ["Backup"]) = Ok [e2]
  /\ ~ (_search_for_entry db "gmail" = Raise (not_found "gmail") <->
        Forall (fun stage => _filter_entries stage (Some ["Backup"]) = Ok [])
               (stages db "gmail"))
  /\ _search_for_entry [entry_titled "gmail" "Internet"; history_entry "gmail"] "gmail"
     = Raise AttributeError.
Proof.
  split; [by vm_compute|]. split; [by vm_compute|]. split; [|by vm_compute].
  intros [Hc _]. specialize (Hc ltac:(by vm_compute)).
  inversion Hc as [|? ? _ Hc']; subst. inversion Hc' as [|? ? Hc'' _]; subst.
  vm_compute in Hc''. discriminate.
Qed.

Lemma search_not_found_witness :
  let db := [entry_titled "Gmail" "Internet"; entry_titled "GitHub" "Work";
             entry_titled "AWS" "Work"] in
  Forall has_title db
  /\ _search_for_entry db "zzz" = Raise (not_found "zzz")
  /\ _search_for_entry db "github" = Ok [entry_titled "GitHub" "Work"].
Proof.
  intros db.
  assert (Hall : Forall has_title db) by (repeat constructor; by eexists).
  split; [exact Hall|].
  destruct (search_not_found db "zzz" Hall) as (Hz & _).
  destruct (search_not_found db "github" Hall) as (Hg & _).
  split.
  - apply (proj1 (proj2 (Hz ltac:(by vm_compute)))). by vm_compute.
  - rewrite (proj1 (proj2 (proj2 (Hg ltac:(vm_compute; repeat constructor; by eexists)))));
      by vm_compute.
Defined.


(** The two ways a search can end: the filtered candidates of the first
    stage that has any, or [AttributeError] when no title is exactly the
    term and some entry has no title. *)
Lemma fuzzy_search_by_title_cases db title ig :
  fuzzy_search_by_title db title ig
  = _filter_entries (first_nonempty (stages db title)) ig
  \/ (exact_candidates db title = [] /\ ~ Forall has_title db
      /\ fuzzy_search_by_title db title ig = Raise AttributeError).
Proof.
  rewrite fuzzy_search_by_title_stages. unfold stages. simpl first_nonempty.
  destruct (truthy (exact_candidates db title)) eqn:H1; [by left|].
  apply truthy_false in H1.
  destruct (bool_decide (Forall has_title db)) eqn:Hall; [by left|].
  apply bool_decide_eq_false_1 in Hall. by right.
Qed.



(** ** The ["Backup"] group is never returned *)

Lemma fuzzy_search_by_title_filtered db title ig entries :
  fuzzy_search_by_title db title ig = Ok entries ->
  exists candidates, _filter_entries candidates ig = Ok entries.
Proof.
  rewrite fuzzy_search_by_title_stages.
  destruct (truthy (exact_candidates db title)); [eauto|].
  destruct (bool_decide (Forall has_title db)); [eauto|done].
Qed.

(** C8. [_search_for_entry] calls the staged matcher with the exclusion
    list [["Backup"]], and no entry of the list it returns has ["Backup"]
    as the name of its group: each has a group with a name, and that name
    is another one. *)
Theorem search_excludes_backup db term entries :
  _search_for_entry db term = Ok entries ->
  fuzzy_search_by_title db term (Some ["Backup"]) = Ok entries
  /\ Forall (fun entry => exists name,
               parent_Name entry = Some name /\ name <> "Backup") entries.
Proof.
  rewrite _search_for_entry_eq.
  destruct (fuzzy_search_by_title db term (Some ["Backup"])) as [es|] eqn:Hf; [|done].
  intros Hes. assert (es = entries) as -> by (destruct es; congruence).
  split; [done|].
  apply fuzzy_search_by_title_filtered in Hf as [candidates Hf].
  apply Forall_forall. intros entry Hin.
  apply (_filter_entries_elem _ _ _ entry Hf) in Hin as [_ Hn].
  apply not_excluded_Some in Hn as (name & Hname & Hn).
  exists name. split; [done|]. intros ->. apply Hn. left.
Qed.

Lemma search_excludes_backup_witness :
  let db := [entry_titled "Mail" "Backup"; entry_titled "Mail" "Internet";
             entry_titled "mail" "Backup"] in
  _search_for_entry db "Mail" = Ok [entry_titled "Mail" "Internet"]
  /\ Forall (fun entry => exists name,
               parent_Name entry = Some name /\ name <> "Backup")
            [entry_titled "Mail" "Internet"].
Proof.
  intros db. split; [by vm_compute|].
  apply (search_excludes_backup db "Mail"). by vm_compute.
Defined.

(** ** No entry is returned twice *)

Lemma first_occurrences_elem x l : x ∈ first_occurrences l <-> x ∈ l.
Proof.
  induction l as [|y l IH]; simpl; [done|].
  rewrite !elem_of_cons, list_elem_of_filter, IH.
  destruct (decide (x = y)); tauto.
Qed.

Lemma first_occurrences_NoDup l : NoDup (first_occurrences l).
Proof.
  induction l as [|y l IH]; simpl; constructor.
  - rewrite list_elem_of_filter. tauto.
  - by apply NoDup_filter.
Qed.

Lemma filter_or_disjoint {A} (P Q : A -> Prop)
    `{forall x, Decision (P x)} `{forall x, Decision (Q x)} (l : list A) :
  (forall x, P x -> Q x -> False) ->
  filter (fun x => P x \/ Q x) l ≡ₚ filter P l ++ filter Q l.
Proof.
  intros Hdis. induction l as [|x l IH]; [done|].
  rewrite !filter_cons.
  destruct (decide (P x)) as [HP|HP], (decide (Q x)) as [HQ|HQ].
  - destruct (Hdis x HP HQ).
  - rewrite decide_True by tauto. simpl. by rewrite IH.
  - rewrite decide_True by tauto. rewrite IH. apply Permutation_middle.
  - rewrite decide_False by tauto. exact IH.
Qed.

(** The buckets of distinct keys, put one after the other, hold the
    entries whose lowered title is one of the keys, each as often as the
    store does. *)
Lemma buckets_Permutation db (keys : list string) :
  NoDup keys ->
  concat (map (bucket db) keys)
  ≡ₚ filter (fun entry => lower_title entry ∈ (Some <$> keys)) db.
Proof.
  induction 1 as [|key keys Hnew Hnd IH]; simpl.
  - symmetry. apply Permutation_nil_r. apply filter_none.
    apply Forall_forall. intros e _. apply not_elem_of_nil.
  - rewrite IH. unfold bucket. rewrite <- filter_or_disjoint.
    + apply Permutation_refl'. apply list_filter_iff. intros e.
      by rewrite elem_of_cons.
    + intros e He Hin. apply Hnew.
      apply list_elem_of_fmap in Hin as (k & Hk & Hin). congruence.
Qed.

Lemma buckets_submseteq db (keys : list string) :
  NoDup keys -> concat (map (bucket db) keys) ⊆+ db.
Proof.
  intros Hnd. rewrite buckets_Permutation by done.
  apply sublist_submseteq, sublist_filter.
Qed.

Lemma kept_keys_NoDup db title : NoDup (kept_keys db title).
Proof. apply get_close_matches_NoDup, first_occurrences_NoDup. Qed.

Lemma stages_submseteq db title stage :
  stage ∈ stages db title -> stage ⊆+ db.
Proof.
  unfold stages. rewrite !elem_of_cons.
  intros [->|[->|[->|[->|Hnil]]]]; [..|inversion Hnil];
    try (apply sublist_submseteq, sublist_filter).
  apply buckets_submseteq, kept_keys_NoDup.
Qed.

Lemma fuzzy_search_by_title_submseteq db title ig entries :
  fuzzy_search_by_title db title ig = Ok entries -> entries ⊆+ db.
Proof.
  rewrite fuzzy_search_by_title_stages.
  assert (Hf : forall stage,
             stage ∈ stages db title -> _filter_entries stage ig = Ok entries ->
             entries ⊆+ db).
  { intros stage Hin Hrun. etrans; [|by apply (stages_submseteq db title)].
    by eapply sublist_submseteq, _filter_entries_sublist. }
  destruct (truthy (exact_candidates db title)).
  - apply Hf. left.
  - destruct (bool_decide (Forall has_title db)); [|done].
    set (ls := [caseless_candidates db title; substring_candidates db title;
                approximate_candidates db title]).
    destruct (first_nonempty ls) as [|e l] eqn:Hfn.
    + rewrite _filter_entries_nil. intros [= <-]. apply submseteq_nil_l.
    + rewrite <- Hfn. apply Hf. right.
      apply (first_nonempty_elem ls). by rewrite Hfn.
Qed.

(** C9. When the entries of the store are pairwise distinct, no entry
    occurs twice in the list the staged matcher returns, nor in the list
    [_search_for_entry] returns, in whichever stage it was found (the list
    returned holds no entry more often than the store does).  For the
    approximate stage: the keys of the index the code builds are pairwise
    distinct, so are the keys kept, and every entry of the store sits in
    the bucket of exactly one key, its lowered title. *)
Theorem search_no_duplicates db title ig entries :
  NoDup db ->
  fuzzy_search_by_title db title ig = Ok entries ->
  NoDup entries
  /\ entries ⊆+ db
  /\ (forall found, _search_for_entry db title = Ok found -> NoDup found)
  /\ NoDup (kept_keys db title)
  /\ (Forall has_title db ->
      exists entry_map,
        build_entry_map db = Ok entry_map
        /\ NoDup (MultiDict_keys entry_map)
        /\ forall entry, entry ∈ db ->
             exists key, key ∈ MultiDict_keys entry_map
               /\ lower_title entry = Some key
               /\ entry ∈ entries_of entry_map key
               /\ forall key', entry ∈ entries_of entry_map key' -> key' = key).
Proof.
  intros Hnd Hrun. split_and!.
  - eapply submseteq_NoDup; [|exact Hnd].
    by eapply fuzzy_search_by_title_submseteq.
  - by eapply fuzzy_search_by_title_submseteq.
  - intros found Hfound. rewrite _search_for_entry_eq in Hfound.
    destruct (fuzzy_search_by_title db title (Some ["Backup"])) as [es|] eqn:Hf; [|done].
    assert (es = found) as -> by (destruct es; congruence).
    eapply submseteq_NoDup; [|exact Hnd].
    by eapply fuzzy_search_by_title_submseteq.
  - apply kept_keys_NoDup.
  - intros Hall. destruct (build_entry_map_buckets db Hall) as (d & Hd & Hkeys & Hent).
    exists d. split; [exact Hd|]. split.
    + rewrite Hkeys. apply first_occurrences_NoDup.
    + intros entry Hin.
      destruct (proj1 (Forall_forall _ _) Hall entry Hin) as [t Ht].
      assert (Hlt : lower_title entry = Some (lower t)).
      { unfold lower_title. by rewrite Ht. }
      exists (lower t). split_and!; [|done| |].
      * rewrite Hkeys. apply first_occurrences_elem, list_elem_of_omap. eauto.
      * rewrite Hent. by apply list_elem_of_filter.
      * intros key'. rewrite Hent. intros Hk. apply list_elem_of_filter in Hk as [Hk _].
        congruence.
Qed.

Lemma search_no_duplicates_witness :
  let db := [entry_titled "gitlabs" "Work"; entry_titled "gitlab" "Work";
             entry_titled "Gitlab" "Home"; entry_titled "GitLab" "Backup"] in
  NoDup db
  /\ NoDup [entry_titled "gitlab" "Work"; entry_titled "Gitlab" "Home";
            entry_titled "gitlabs" "Work"].
Proof.
  intros db.
  assert (Hnd : NoDup db) by (apply (bool_decide_unpack _); by vm_compute).
  split; [exact Hnd|].
  refine (proj1 (search_no_duplicates db "gitlb" (Some ["Backup"]) _ Hnd _)).
  by vm_compute.
Defined.

(** ** SequenceMatcher: the matching blocks *)

Section SequenceMatcher_facts.
Context {E : Type} `{Countable E}.
Variables (a b : list E).

Lemma enumerate_lookup (l : list E) s i x :
  (i, x) ∈ combine (seq s (length l)) l -> s <= i /\ l !! (i - s) = Some x.
Proof.
  revert s. induction l as [|y l IH]; intros s; simpl; [by inversion 1|].
  rewrite elem_of_cons. intros [[= -> ->]|Hin].
  - split; [lia|]. by rewrite Nat.sub_diag.
  - apply IH in Hin as [Hle Hl]. split; [lia|].
    replace (i - s) with (S (i - S s)) by lia. done.
Qed.

(** Every position listed under an element in [b2j] holds that element. *)
Lemma b2j_all_lookup x js j :
  difflib.b2j_all b !! x = Some js -> j ∈ js -> b !! j = Some x.
Proof.
  unfold difflib.b2j_all.
  assert (Hps : forall i elt, (i, elt) ∈ combine (seq 0 (length b)) b -> b !! i = Some elt).
  { intros i elt Hin. apply enumerate_lookup in Hin as [_ Hl].
    by rewrite Nat.sub_0_r in Hl. }
  revert Hps. generalize (combine (seq 0 (length b)) b). intros ps Hps.
  assert (Hinv : forall y ys i, (∅ : gmap E (list nat)) !! y = Some ys -> i ∈ ys ->
                                b !! i = Some y) by (intros ? ? ?; by rewrite lookup_empty).
  revert Hinv x js j. generalize (∅ : gmap E (list nat)).
  induction ps as [|[i elt] ps IH]; intros m Hinv x js j; simpl; [apply Hinv|].
  apply IH.
  - intros i' elt' Hin. apply Hps. by right.
  - intros y ys i'. destruct (decide (elt = y)) as [->|Hne].
    + rewrite lookup_insert_eq. intros [= <-]. rewrite elem_of_app, list_elem_of_singleton.
      intros [Hin| ->]; [|apply Hps; left].
      destruct (m !! y) as [zs|] eqn:Hm; simpl in Hin; [by eapply Hinv|inversion Hin].
    + rewrite lookup_insert_ne by done. apply Hinv.
Qed.

Lemma b2j_lookup x js j :
  difflib.b2j b !! x = Some js -> j ∈ js -> b !! j = Some x.
Proof.
  unfold difflib.b2j. destruct (200 <=? length b)%nat.
  - intros Hf. apply map_lookup_filter_Some in Hf as [Hf _]. by apply b2j_all_lookup.
  - apply b2j_all_lookup.
Qed.

Lemma flm_row_ok alo ahi blo bhi i x j2len js best newj2len :
  alo <= i -> i < ahi -> a !! i = Some x ->
  (forall j, j ∈ js -> b !! j = Some x) ->
  difflib.Row_ok a b alo blo bhi i j2len -> difflib.Row_ok a b alo blo bhi (S i) newj2len ->
  difflib.Match_ok a b alo ahi blo bhi best ->
  let r := difflib.flm_row i blo bhi j2len js best newj2len in
  difflib.Match_ok a b alo ahi blo bhi (fst r) /\ difflib.Row_ok a b alo blo bhi (S i) (snd r).
Proof.
  intros Hlo Hhi Hx. revert best newj2len.
  induction js as [|j js IH]; intros best newj2len Hjs Hprev Hnew Hbest; simpl; [done|].
  assert (Hjs' : forall j', j' ∈ js -> b !! j' = Some x) by (intros; apply Hjs; by right).
  destruct (Nat.ltb_spec j blo) as [Hjlo|Hjlo]; [by apply IH|].
  destruct (Nat.leb_spec bhi j) as [Hjhi|Hjhi]; [done|].
  set (k := (match j with O => 0 | S j' => default 0 (j2len !! j') end + 1)).
  assert (Hk : 1 <= k /\ k <= S i - alo /\ k <= j + 1 - blo
               /\ forall t, t < k ->
                    exists y, a !! (S i - k + t) = Some y /\ b !! (j + 1 - k + t) = Some y).
  { assert (Hj : b !! j = Some x) by (apply Hjs; left).
    assert (Hend : forall k0 t, 1 <= k0 -> k0 <= S i -> k0 <= j + 1 -> t = k0 - 1 ->
              exists y, a !! (S i - k0 + t) = Some y /\ b !! (j + 1 - k0 + t) = Some y).
    { intros k0 t ? ? ? ->. exists x.
      replace (S i - k0 + (k0 - 1)) with i by lia.
      replace (j + 1 - k0 + (k0 - 1)) with j by lia. done. }
    unfold k. destruct j as [|j'].
    - split_and!; [lia..|]. intros t Ht. apply Hend; lia.
    - destruct (j2len !! j') as [k'|] eqn:Hj'; cbn [from_option id].
      + destruct (Hprev j' k' Hj') as (Hk1 & Hk2 & Hk3 & _ & Hm).
        split_and!; [lia..|]. intros t Ht.
        destruct (decide (t < k')) as [Hlt|Hge]; [|apply Hend; lia].
        destruct (Hm t Hlt) as (y & Hy1 & Hy2). exists y.
        replace (S i - (k' + 1) + t) with (i - k' + t) by lia.
        replace (S j' + 1 - (k' + 1) + t) with (j' + 1 - k' + t) by lia. done.
      + split_and!; [lia..|]. intros t Ht. apply Hend; lia. }
  destruct Hk as (Hk1 & Hk2 & Hk3 & Hm).
  destruct best as [[besti bestj] bestsize].
  apply IH; [done|done| |].
  - intros j0 k0. destruct (decide (j = j0)) as [<-|Hne].
    + rewrite lookup_insert_eq. intros [= <-]. split_and!; [lia..|done].
    + rewrite lookup_insert_ne by done. apply Hnew.
  - destruct (bestsize <? k)%nat; [|done].
    unfold difflib.Match_ok. split_and!; [lia..|].
    intros t Ht. destruct (Hm t Ht) as (y & Hy1 & Hy2). exists y.
    replace (i + 1 - k + t) with (S i - k + t) by lia. done.
Qed.

Lemma flm_scan_ok alo ahi blo bhi :
  alo <= ahi -> blo <= bhi ->
  difflib.Match_ok a b alo ahi blo bhi (difflib.flm_scan a b alo ahi blo bhi).
Proof.
  intros Ha Hb. unfold difflib.flm_scan.
  assert (Hgen : forall n s (st : difflib.Match * gmap nat nat),
    alo <= s -> s + n <= ahi ->
    difflib.Match_ok a b alo ahi blo bhi (fst st) ->
    difflib.Row_ok a b alo blo bhi s (snd st) ->
    difflib.Match_ok a b alo ahi blo bhi
      (fst (fold_left
              (fun (st : difflib.Match * gmap nat nat) (i : nat) =>
                 let '(best, j2len) := st in
                 match a !! i with
                 | Some x =>
                     difflib.flm_row i blo bhi j2len
                       (default [] (difflib.b2j b !! x)) best ∅
                 | None => (best, ∅)
                 end)
              (seq s n) st))).
  { induction n as [|n IH]; intros s [best j2len] Hs Hn Hbest Hrow; simpl; [done|].
    simpl in Hbest, Hrow.
    assert (Hst : forall st',
      st' = match a !! s with
            | Some x =>
                difflib.flm_row s blo bhi j2len (default [] (difflib.b2j b !! x)) best ∅
            | None => (best, ∅)
            end ->
      difflib.Match_ok a b alo ahi blo bhi (fst st')
      /\ difflib.Row_ok a b alo blo bhi (S s) (snd st')).
    { intros st' ->. destruct (a !! s) as [x|] eqn:Hx.
      - apply (flm_row_ok alo ahi blo bhi s x j2len _ best ∅); [lia|lia|done| |done| |done].
        + intros j Hj. destruct (difflib.b2j b !! x) as [js|] eqn:Hjs; simpl in Hj.
          * by eapply b2j_lookup.
          * inversion Hj.
        + intros j k. by rewrite lookup_empty.
      - split; [done|]. intros j k. simpl. by rewrite lookup_empty. }
    destruct (Hst _ eq_refl) as [Hm Hr].
    apply IH; [lia|lia|exact Hm|exact Hr]. }
  apply Hgen; [lia|lia| |].
  - simpl. split_and!; [lia..|]. intros t Ht. lia.
  - intros j k. simpl. by rewrite lookup_empty.
Qed.

Lemma extend_left_ok junk alo ahi blo bhi besti bestj bestsize :
  difflib.Match_ok a b alo ahi blo bhi (besti, bestj, bestsize) ->
  difflib.Match_ok a b alo ahi blo bhi
    (difflib.extend_left a b junk alo blo besti bestj bestsize).
Proof.
  revert bestj bestsize.
  induction besti as [|i' IH]; intros bestj bestsize Hok; simpl; [done|].
  destruct bestj as [|j']; [done|].
  destruct (a !! i') as [x|] eqn:Hx; [|done].
  destruct (b !! j') as [y|] eqn:Hy; [|done].
  match goal with
  | |- context [if ?c then difflib.extend_left _ _ _ _ _ _ _ _ else _] =>
      destruct c eqn:Hc
  end; [|done].
  apply andb_true_iff in Hc as [Hc Hxy]. apply andb_true_iff in Hc as [Hc _].
  apply andb_true_iff in Hc as [Hc1 Hc2].
  apply Nat.ltb_lt in Hc1. apply Nat.ltb_lt in Hc2. apply bool_decide_eq_true_1 in Hxy.
  subst y. apply IH. destruct Hok as (H3 & H4 & H5 & H6 & Hm).
  split_and!; [lia..|]. intros [|t] Ht.
  - exists x. by rewrite !Nat.add_0_r.
  - destruct (Hm t ltac:(lia)) as (z & Hz1 & Hz2). exists z.
    replace (i' + S t) with (S i' + t) by lia.
    replace (j' + S t) with (S j' + t) by lia. done.
Qed.

Lemma extend_right_ok fuel junk alo ahi blo bhi besti bestj bestsize :
  difflib.Match_ok a b alo ahi blo bhi (besti, bestj, bestsize) ->
  difflib.Match_ok a b alo ahi blo bhi
    (difflib.extend_right a b fuel junk ahi bhi besti bestj bestsize).
Proof.
  revert bestsize.
  induction fuel as [|fuel IH]; intros bestsize Hok; simpl; [done|].
  destruct (a !! (besti + bestsize)) as [x|] eqn:Hx; [|done].
  destruct (b !! (bestj + bestsize)) as [y|] eqn:Hy; [|done].
  match goal with
  | |- context [if ?c then difflib.extend_right _ _ _ _ _ _ _ _ _ else _] =>
      destruct c eqn:Hc
  end; [|done].
  apply andb_true_iff in Hc as [Hc Hxy]. apply andb_true_iff in Hc as [Hc _].
  apply andb_true_iff in Hc as [Hc1 Hc2].
  apply Nat.ltb_lt in Hc1. apply Nat.ltb_lt in Hc2. apply bool_decide_eq_true_1 in Hxy.
  subst y. apply IH. destruct Hok as (H3 & H4 & H5 & H6 & Hm).
  split_and!; [lia..|]. intros t Ht.
  destruct (decide (t = bestsize)) as [->|Hne]; [by exists x|].
  apply Hm. lia.
Qed.

(** [find_longest_match] returns a match inside the ranges it is given. *)
Lemma find_longest_match_ok alo ahi blo bhi :
  alo <= ahi -> blo <= bhi ->
  difflib.Match_ok a b alo ahi blo bhi (difflib.find_longest_match a b alo ahi blo bhi).
Proof.
  intros Ha Hb. unfold difflib.find_longest_match.
  pose proof (flm_scan_ok alo ahi blo bhi Ha Hb) as H0.
  destruct (difflib.flm_scan a b alo ahi blo bhi) as [[i0 j0] k0].
  pose proof (extend_left_ok false _ _ _ _ _ _ _ H0) as H1.
  destruct (difflib.extend_left a b false alo blo i0 j0 k0) as [[i1 j1] k1].
  pose proof (extend_right_ok (ahi - (i1 + k1)) false _ _ _ _ _ _ _ H1) as H2.
  destruct (difflib.extend_right a b (ahi - (i1 + k1)) false ahi bhi i1 j1 k1) as [[i2 j2] k2].
  pose proof (extend_left_ok true _ _ _ _ _ _ _ H2) as H3.
  destruct (difflib.extend_left a b true alo blo i2 j2 k2) as [[i3 j3] k3].
  by apply extend_right_ok.
Qed.

Lemma slice_split {A} (l : list A) s i k e :
  s <= i -> i + k <= e ->
  slice l s (e - s) = slice l s (i - s) ++ slice l i k ++ slice l (i + k) (e - (i + k)).
Proof.
  intros Hs He. unfold slice.
  replace (e - s) with ((i - s) + (k + (e - (i + k)))) by lia.
  rewrite <- take_take_drop, drop_drop. replace (s + (i - s)) with i by lia.
  by rewrite <- take_take_drop, drop_drop.
Qed.

Lemma slice_length {A} (l : list A) s n : s + n <= length l -> length (slice l s n) = n.
Proof. intros Hn. unfold slice. rewrite length_take, length_drop. lia. Qed.

Lemma slice_all {A} (l : list A) : slice l 0 (length l - 0) = l.
Proof. unfold slice. rewrite Nat.sub_0_r. simpl. apply firstn_all. Qed.

Lemma Match_ok_elems alo ahi blo bhi m :
  difflib.Match_ok a b alo ahi blo bhi m -> difflib.Match_a a m = difflib.Match_b b m.
Proof.
  destruct m as [[i j] k]. intros (_ & _ & _ & _ & Hm). simpl. unfold slice.
  apply list_eq. intros t. destruct (decide (t < k)) as [Hlt|Hge].
  - rewrite !lookup_take_lt, !lookup_drop by done.
    destruct (Hm t Hlt) as (x & -> & ->). done.
  - by rewrite !lookup_take_ge by lia.
Qed.

Lemma gmb_loop_inv fuel queue blocks :
  difflib.gmb_inv a b queue blocks ->
  difflib.gmb_inv a b (fst (difflib.gmb_loop a b fuel queue blocks))
                      (snd (difflib.gmb_loop a b fuel queue blocks)).
Proof.
  unfold difflib.gmb_inv.
  revert queue blocks. induction fuel as [|fuel IH]; intros queue blocks Hinv; [done|].
  simpl. destruct queue as [|[[[alo ahi] blo] bhi] queue]; [done|].
  destruct Hinv as (Hq & Hb & Ha' & Hb').
  inversion Hq as [|? ? Hr Hq']; subst.
  simpl in Hr. destruct Hr as (Hr1 & Hr2 & Hr3 & Hr4).
  pose proof (find_longest_match_ok alo ahi blo bhi Hr1 Hr3) as Hm.
  destruct (difflib.find_longest_match a b alo ahi blo bhi) as [[i j] k].
  rewrite !bind_cons in Ha', Hb'.
  destruct (Nat.eqb_spec k 0) as [->|Hk].
  - apply IH. split_and!; [done|done|..].
    + etrans; [|exact Ha']. solve_submseteq.
    + etrans; [|exact Hb']. solve_submseteq.
  - apply IH. destruct Hm as (Hm1 & Hm2 & Hm3 & Hm4 & Hm5).
    assert (Hmatch : difflib.Match_ok a b 0 (length a) 0 (length b) (i, j, k)).
    { split_and!; [lia..|done]. }
    pose proof (Match_ok_elems _ _ _ _ _ Hmatch) as Helems. simpl in Helems.
    simpl in Ha', Hb'.
    rewrite (slice_split a alo i k ahi) in Ha' by lia.
    rewrite (slice_split b blo j k bhi) in Hb' by lia.
    split_and!.
    + destruct ((alo <? i)%nat && (blo <? j)%nat), ((i + k <? ahi)%nat && (j + k <? bhi)%nat);
        repeat (constructor; [simpl; lia|]); done.
    + apply Forall_app. split; [done|]. by constructor.
    + rewrite bind_app, bind_cons. simpl.
      etrans; [|exact Ha'].
      destruct ((alo <? i)%nat && (blo <? j)%nat), ((i + k <? ahi)%nat && (j + k <? bhi)%nat);
        rewrite ?bind_cons; simpl; solve_submseteq.
    + rewrite bind_app, bind_cons. simpl.
      etrans; [|exact Hb'].
      destruct ((alo <? i)%nat && (blo <? j)%nat), ((i + k <? ahi)%nat && (j + k <? bhi)%nat);
        rewrite ?bind_cons; simpl; solve_submseteq.
Qed.

(** The fuel [get_matching_blocks] runs its loop with is enough: the loop
    stops because the work list is empty. *)
Lemma gmb_loop_terminates fuel queue blocks :
  Forall (difflib.Range_ok a b) queue ->
  sum_list_with difflib.Range_weight queue <= fuel ->
  fst (difflib.gmb_loop a b fuel queue blocks) = [].
Proof.
  revert queue blocks. induction fuel as [|fuel IH]; intros queue blocks Hq Hw.
  - destruct queue as [|[[[alo ahi] blo] bhi] queue]; [done|]. simpl in Hw. lia.
  - simpl. destruct queue as [|[[[alo ahi] blo] bhi] queue]; [done|].
    inversion Hq as [|? ? Hr Hq']; subst.
    simpl in Hr. destruct Hr as (Hr1 & Hr2 & Hr3 & Hr4).
    pose proof (find_longest_match_ok alo ahi blo bhi Hr1 Hr3) as Hm.
    destruct (difflib.find_longest_match a b alo ahi blo bhi) as [[i j] k].
    simpl in Hw. destruct (Nat.eqb_spec k 0) as [->|Hk].
    + apply IH; [done|lia].
    + destruct Hm as (Hm1 & Hm2 & Hm3 & Hm4 & _). apply IH.
      * destruct ((alo <? i)%nat && (blo <? j)%nat),
          ((i + k <? ahi)%nat && (j + k <? bhi)%nat);
          repeat (constructor; [simpl; lia|]); done.
      * destruct ((alo <? i)%nat && (blo <? j)%nat),
          ((i + k <? ahi)%nat && (j + k <? bhi)%nat); simpl; lia.
Qed.

Lemma get_matching_blocks_terminates :
  fst (difflib.gmb_loop a b (difflib.gmb_fuel a) [(0, length a, 0, length b)] []) = [].
Proof.
  apply gmb_loop_terminates.
  - constructor; [simpl; lia|constructor].
  - unfold difflib.gmb_fuel. simpl. lia.
Qed.

(** The blocks the loop finds stand for one list of elements that is, up
    to order, part of [a] and part of [b]. *)
Lemma gmb_loop_common :
  let blocks :=
    snd (difflib.gmb_loop a b (difflib.gmb_fuel a) [(0, length a, 0, length b)] []) in
  exists common,
    common ⊆+ a /\ common ⊆+ b
    /\ length common = sum_list_with snd blocks.
Proof.
  intros blocks.
  assert (Hinit : difflib.gmb_inv a b [(0, length a, 0, length b)] []).
  { unfold difflib.gmb_inv. split_and!.
    - constructor; [simpl; lia|constructor].
    - constructor.
    - simpl. by rewrite app_nil_r, slice_all.
    - simpl. by rewrite app_nil_r, slice_all. }
  apply (gmb_loop_inv (difflib.gmb_fuel a)) in Hinit.
  rewrite get_matching_blocks_terminates in Hinit. fold blocks in Hinit.
  destruct Hinit as (_ & Hb & Ha' & Hb'). simpl in Ha', Hb'.
  rewrite app_nil_r in Ha', Hb'.
  assert (Heq : blocks ≫= difflib.Match_a a = blocks ≫= difflib.Match_b b).
  { clear Ha' Hb'. induction Hb as [|m l Hm Hl IH]; [done|].
    rewrite !bind_cons, IH. f_equal. by eapply Match_ok_elems. }
  exists (blocks ≫= difflib.Match_a a). split_and!; [done|by rewrite Heq|].
  clear Ha' Hb' Heq. induction Hb as [|m l Hm Hl IH]; [done|].
  rewrite bind_cons, length_app, IH. simpl. f_equal.
  destruct m as [[i j] k]. destruct Hm as (_ & Hk & _). simpl.
  by apply slice_length.
Qed.

Lemma fold_left_sizes (l : list difflib.Match) n :
  fold_left (fun s (triple : difflib.Match) => (s + snd triple)%nat) l n
  = n + sum_list_with snd l.
Proof.
  revert n. induction l as [|m l IH]; intros n; simpl; [lia|]. rewrite IH. lia.
Qed.

Lemma Match_insert_Permutation x l : difflib.Match_insert x l ≡ₚ x :: l.
Proof.
  induction l as [|y l IH]; simpl; [done|].
  destruct (difflib.Match_ltb x y); [done|]. rewrite IH. apply perm_swap.
Qed.

Lemma Match_sort_Permutation l : difflib.Match_sort l ≡ₚ l.
Proof.
  unfold difflib.Match_sort.
  assert (Hgen : forall acc,
             fold_left (fun acc x => difflib.Match_insert x acc) l acc ≡ₚ acc ++ l).
  { induction l as [|x l IH]; intros acc; simpl; [by rewrite app_nil_r|].
    rewrite IH, Match_insert_Permutation. solve_Permutation. }
  by rewrite Hgen.
Qed.

(** Collapsing adjacent blocks keeps the total size. *)
Lemma collapse_sizes (l : list difflib.Match) (st : difflib.Match * list difflib.Match) :
  let st' := fold_left difflib.collapse_step l st in
  snd (fst st') + sum_list_with snd (snd st')
  = snd (fst st) + sum_list_with snd (snd st) + sum_list_with snd l.
Proof.
  revert st. induction l as [|[[i2 j2] k2] l IH]; intros [[[i1 j1] k1] na]; simpl; [lia|].
  simpl in IH. rewrite IH.
  destruct ((i1 + k1 =? i2)%nat && (j1 + k1 =? j2)%nat); simpl; [lia|].
  destruct (Nat.eqb_spec k1 0) as [->|Hk]; simpl; [lia|].
  rewrite sum_list_with_app. simpl. lia.
Qed.

(** The number of matches [ratio] counts is the total size of the blocks
    the loop found. *)
Lemma ratio_matches_blocks :
  difflib.ratio_matches a b
  = sum_list_with snd
      (snd (difflib.gmb_loop a b (difflib.gmb_fuel a) [(0, length a, 0, length b)] [])).
Proof.
  unfold difflib.ratio_matches, difflib.get_matching_blocks.
  set (blocks := snd (difflib.gmb_loop a b _ _ _)).
  pose proof (collapse_sizes (difflib.Match_sort blocks) ((0, 0, 0), [])) as Hc.
  assert (Hs : sum_list_with snd (difflib.Match_sort blocks) = sum_list_with snd blocks)
    by (by rewrite Match_sort_Permutation).
  simpl in Hc. rewrite Hs in Hc. clear Hs.
  destruct (fold_left difflib.collapse_step (difflib.Match_sort blocks) ((0, 0, 0), []))
    as [[[i1 j1] k1] na].
  simpl in Hc. rewrite fold_left_sizes, sum_list_with_app. simpl.
  destruct (Nat.eqb_spec k1 0) as [->|Hk]; [lia|].
  rewrite sum_list_with_app. simpl. lia.
Qed.

Lemma ratio_matches_common :
  exists common,
    common ⊆+ a /\ common ⊆+ b /\ length common = difflib.ratio_matches a b.
Proof.
  destruct gmb_loop_common as (common & Ha & Hb & Hlen).
  exists common. by rewrite ratio_matches_blocks.
Qed.

(** *** [quick_ratio] and [real_quick_ratio] are upper bounds of [ratio] *)

Lemma occurrences_cons (x y : E) l :
  occurrences x (y :: l) = (if decide (y = x) then 1 else 0) + occurrences x l.
Proof. unfold occurrences. rewrite filter_cons. by destruct (decide (y = x)). Qed.

Lemma occurrences_Permutation (x : E) l k : l ≡ₚ k -> occurrences x l = occurrences x k.
Proof. unfold occurrences. by intros ->. Qed.

Lemma occurrences_not_elem (x : E) l : x ∉ l -> occurrences x l = 0.
Proof.
  intros Hx. unfold occurrences. rewrite filter_none; [done|].
  apply Forall_forall. intros y Hy ->. by apply Hx.
Qed.

Lemma occurrences_submseteq (x : E) l k : l ⊆+ k -> occurrences x l <= occurrences x k.
Proof.
  intros Hsub. apply submseteq_Permutation in Hsub as [k' Hk].
  rewrite (occurrences_Permutation x _ _ Hk). unfold occurrences.
  rewrite filter_app, length_app. lia.
Qed.

Lemma fullbcount_occurrences x :
  default 0%Z (difflib.fullbcount b !! x) = Z.of_nat (occurrences x b).
Proof.
  unfold difflib.fullbcount.
  assert (Hgen : forall l (m : gmap E Z),
    default 0%Z (fold_left
                   (fun (m : gmap E Z) elt => <[elt := (default 0 (m !! elt) + 1)%Z]> m)
                   l m !! x)
    = (default 0 (m !! x) + Z.of_nat (occurrences x l))%Z).
  { induction l as [|y l IH]; intros m; simpl.
    - unfold occurrences. simpl. lia.
    - rewrite IH, occurrences_cons. destruct (decide (y = x)) as [->|Hne].
      + rewrite lookup_insert_eq. simpl. lia.
      + rewrite lookup_insert_ne by done. simpl. lia. }
  rewrite Hgen, lookup_empty. simpl. lia.
Qed.

Lemma numb_of_insert avail x n y :
  difflib.numb_of b (<[x := n]> avail) y
  = if decide (x = y) then n else difflib.numb_of b avail y.
Proof.
  unfold difflib.numb_of. destruct (decide (x = y)) as [->|Hne].
  - by rewrite lookup_insert_eq.
  - by rewrite lookup_insert_ne.
Qed.

(** The loop of [quick_ratio] counts at least the elements of any list
    that is part of [a] and whose elements are still available. *)
Lemma quick_loop_ge (l common : list E) avail matches :
  common ⊆+ l ->
  (forall x, (Z.of_nat (occurrences x common) <= Z.max 0 (difflib.numb_of b avail x))%Z) ->
  matches + length common <= snd (fold_left (difflib.quick_step b) l (avail, matches)).
Proof.
  revert common avail matches.
  induction l as [|x l IH]; intros common avail matches Hsub Hav.
  - apply submseteq_nil_r in Hsub as ->. simpl. lia.
  - simpl. set (numb := difflib.numb_of b avail x).
    destruct (decide (x ∈ common)) as [Hin|Hnin].
    + apply elem_of_Permutation in Hin as [common' Hc].
      rewrite Hc in Hsub. apply (submseteq_app_inv_l _ _ [x]) in Hsub.
      pose proof (Hav x) as Hx. rewrite (occurrences_Permutation x _ _ Hc) in Hx.
      rewrite occurrences_cons, decide_True in Hx by done. fold numb in Hx.
      assert (Hpos : (0 <? numb)%Z = true) by (apply Z.ltb_lt; lia).
      rewrite Hpos, Hc. simpl.
      etrans; [|apply (IH common'); [done|]].
      * lia.
      * intros y. rewrite numb_of_insert. destruct (decide (x = y)) as [<-|Hne].
        -- lia.
        -- specialize (Hav y). rewrite (occurrences_Permutation y _ _ Hc) in Hav.
           rewrite occurrences_cons, decide_False in Hav by done. done.
    + apply submseteq_cons_r in Hsub as [Hsub|(common' & Hc & _)].
      2:{ exfalso. apply Hnin. rewrite Hc. left. }
      etrans; [|apply (IH common); [done|]].
      * destruct (0 <? numb)%Z; lia.
      * intros y. rewrite numb_of_insert. destruct (decide (x = y)) as [<-|Hne].
        -- rewrite occurrences_not_elem by done. lia.
        -- apply Hav.
Qed.

Lemma ratio_matches_le_quick : difflib.ratio_matches a b <= difflib.quick_matches a b.
Proof.
  destruct ratio_matches_common as (common & Ha & Hb & <-).
  unfold difflib.quick_matches.
  etrans; [|apply (quick_loop_ge a common ∅ 0 Ha)]; [lia|].
  intros x. unfold difflib.numb_of. rewrite lookup_empty, fullbcount_occurrences.
  pose proof (occurrences_submseteq x _ _ Hb). lia.
Qed.

Lemma ratio_matches_le_min :
  difflib.ratio_matches a b <= Nat.min (length a) (length b).
Proof.
  destruct ratio_matches_common as (common & Ha & Hb & <-).
  apply submseteq_length in Ha, Hb. lia.
Qed.

End SequenceMatcher_facts.

Lemma _calculate_ratio_mono (m m' t : nat) :
  m <= m' -> (difflib._calculate_ratio m t <= difflib._calculate_ratio m' t)%Q.
Proof.
  intros Hm. unfold difflib._calculate_ratio.
  destruct (t =? 0)%nat; [apply Qle_refl|].
  unfold Qle. simpl. apply Z.mul_le_mono_nonneg_r; lia.
Qed.

(** [quick_ratio] and [real_quick_ratio] are upper bounds of [ratio], as
    their docstrings say. *)
Lemma ratio_upper_bounds {E : Type} `{Countable E} (a b : list E) :
  (difflib.ratio a b <= difflib.quick_ratio a b)%Q
  /\ (difflib.ratio a b <= difflib.real_quick_ratio a b)%Q.
Proof.
  split; apply _calculate_ratio_mono.
  - apply ratio_matches_le_quick.
  - apply ratio_matches_le_min.
Qed.

(** So the three tests of [get_close_matches] come down to the last one:
    a possibility is close enough exactly when its score reaches the
    cutoff. *)
Lemma close_enough_score word x cutoff :
  difflib.close_enough word x cutoff = Qle_bool cutoff (difflib.score word x).
Proof.
  unfold difflib.close_enough, difflib.score.
  set (a := list_ascii_of_string x). set (b := list_ascii_of_string word).
  destruct (Qle_bool cutoff (difflib.ratio a b)) eqn:Hr; [|apply andb_false_r].
  apply Qle_bool_iff in Hr. destruct (ratio_upper_bounds a b) as [Hq Hrq].
  rewrite !andb_true_iff. split; [split|done]; apply Qle_bool_iff.
  - by apply Qle_trans with (difflib.ratio a b).
  - by apply Qle_trans with (difflib.ratio a b).
Qed.

(** ** The approximate stage *)

Lemma StronglySorted_NoDup_impl {A} (R R' : relation A) l :
  (forall x y, R x y -> x <> y -> R' x y) ->
  StronglySorted R l -> NoDup l -> StronglySorted R' l.
Proof.
  intros Himpl. induction 1 as [|x l Hl IH Hx]; intros Hnd; [constructor|].
  apply NoDup_cons in Hnd as [Hnx Hnd]. constructor; [by apply IH|].
  apply Forall_forall. intros y Hy. apply Himpl.
  - by apply (proj1 (Forall_forall _ _) Hx).
  - intros ->. by apply Hnx.
Qed.

(** A key is above another when its similarity is higher or, at equal
    similarity, when the key itself is the larger string. *)
Lemma scored_above title key key' :
  difflib.scored_ltb (similarity title key, key) (similarity title key', key') = true <->
  (similarity title key < similarity title key')%Q
  \/ ((similarity title key == similarity title key')%Q /\ String.ltb key key' = true).
Proof. apply scored_ltb_true. Qed.

Lemma kept_keys_elem db title key :
  key ∈ kept_keys db title ->
  key ∈ TitleIndex_keys db /\ (7 # 10 <= similarity title key)%Q.
Proof.
  intros Hk. apply get_close_matches_elem in Hk as [Hin Hce].
  split; [done|]. rewrite close_enough_score in Hce. by apply Qle_bool_iff in Hce.
Qed.

Lemma kept_keys_full db title key :
  key ∈ TitleIndex_keys db -> (7 # 10 <= similarity title key)%Q ->
  key ∉ kept_keys db title -> length (kept_keys db title) = 3.
Proof.
  intros Hin Hq Hnk.
  apply (get_close_matches_full (lower title) (TitleIndex_keys db) 3 (7 # 10) key); try done.
  rewrite close_enough_score. by apply Qle_bool_iff.
Qed.

Lemma kept_keys_dropped db title key key' :
  key ∈ TitleIndex_keys db -> (7 # 10 <= similarity title key)%Q ->
  key ∉ kept_keys db title -> key' ∈ kept_keys db title ->
  difflib.scored_ltb (similarity title key, key) (similarity title key', key') = true.
Proof.
  intros Hin Hq Hnk Hk'.
  apply (get_close_matches_dropped _ (TitleIndex_keys db) 3 (7 # 10)); try done.
  rewrite close_enough_score. by apply Qle_bool_iff.
Qed.

Lemma kept_keys_sorted db title :
  StronglySorted
    (fun key key' =>
       difflib.scored_ltb (similarity title key', key') (similarity title key, key) = true)
    (kept_keys db title).
Proof.
  apply (StronglySorted_NoDup_impl
           (fun x y => difflib.scored_ge (difflib.score (lower title) x, x)
                                         (difflib.score (lower title) y, y)));
    [|exact (get_close_matches_sorted (lower title) (TitleIndex_keys db) 3 (7 # 10))
     |apply kept_keys_NoDup].
  intros x y Hge Hne. unfold difflib.scored_ge in Hge. unfold similarity.
  destruct (difflib.scored_ltb (similarity title y, y) (similarity title x, x)) eqn:Hlt;
    [done|].
  destruct Hne. exact (scored_ltb_total _ _ Hge Hlt).
Qed.

Lemma approximate_result db title ig :
  Forall has_title db ->
  exact_candidates db title = [] ->
  caseless_candidates db title = [] ->
  substring_candidates db title = [] ->
  fuzzy_search_by_title db title ig
  = _filter_entries (concat (map (bucket db) (kept_keys db title))) ig.
Proof.
  intros Hall H1 H2 H3. rewrite fuzzy_search_by_title_first by done.
  unfold stages. rewrite H1, H2, H3. cbn [first_nonempty truthy].
  fold (approximate_candidates db title).
  by destruct (approximate_candidates db title).
Qed.

(** C2, as the code has it.  The approximate stage keeps at most three
    keys of the index ([get_close_matches] is called with its default
    [n = 3]): the kept keys are pairwise distinct keys of the index whose
    similarity to the lowered term is at least 0.7; a key of that
    similarity that is not kept is below each of the three kept ones
    (lower similarity or, at the same similarity, smaller as a string); so
    when at most three keys reach 0.7 all of them are kept.  When the
    first three stages find nothing in a store whose entries all have a
    title, the result is the filtered concatenation of the entries the
    index holds under the kept keys. *)
Theorem approximate_keeps_three_best db title :
  let kept := kept_keys db title in
  length kept <= 3
  /\ NoDup kept
  /\ (forall key, key ∈ kept ->
        key ∈ TitleIndex_keys db /\ (7 # 10 <= similarity title key)%Q)
  /\ (forall key,
        key ∈ TitleIndex_keys db -> (7 # 10 <= similarity title key)%Q -> key ∉ kept ->
        length kept = 3
        /\ forall key', key' ∈ kept ->
             (similarity title key < similarity title key')%Q
             \/ ((similarity title key == similarity title key')%Q
                 /\ String.ltb key key' = true))
  /\ (length (Spec.qualifying_keys db title) <= 3 ->
      forall key, key ∈ TitleIndex_keys db -> (7 # 10 <= similarity title key)%Q ->
                  key ∈ kept)
  /\ (forall ig,
        Forall has_title db ->
        exact_candidates db title = [] ->
        caseless_candidates db title = [] ->
        substring_candidates db title = [] ->
        exists entry_map,
          build_entry_map db = Ok entry_map
          /\ MultiDict_keys entry_map = TitleIndex_keys db
          /\ fuzzy_search_by_title db title ig
             = _filter_entries (concat (map (entries_of entry_map) kept)) ig).
Proof.
  intros kept.
  assert (Hdrop : forall key,
        key ∈ TitleIndex_keys db -> (7 # 10 <= similarity title key)%Q -> key ∉ kept ->
        length kept = 3
        /\ forall key', key' ∈ kept ->
             (similarity title key < similarity title key')%Q
             \/ ((similarity title key == similarity title key')%Q
                 /\ String.ltb key key' = true)).
  { intros key Hin Hq Hnk. split.
    - by apply (kept_keys_full db title key).
    - intros key' Hk'. apply scored_above.
      by apply (kept_keys_dropped db title key key'). }
  split_and!.
  - apply get_close_matches_length.
  - apply kept_keys_NoDup.
  - apply kept_keys_elem.
  - exact Hdrop.
  - intros Hfew key Hin Hq. destruct (decide (key ∈ kept)) as [|Hnk]; [done|].
    exfalso. destruct (Hdrop key Hin Hq Hnk) as [Hlen _].
    assert (Hsub : key :: kept ⊆+ Spec.qualifying_keys db title).
    { apply NoDup_submseteq.
      - constructor; [done|apply kept_keys_NoDup].
      - intros k Hk. unfold Spec.qualifying_keys. apply list_elem_of_filter.
        apply elem_of_cons in Hk as [->|Hk].
        + split; [by apply Qle_bool_iff|done].
        + apply kept_keys_elem in Hk as [? ?]. split; [by apply Qle_bool_iff|done]. }
    apply submseteq_length in Hsub. simpl in Hsub. lia.
  - intros ig Hall H1 H2 H3.
    destruct (build_entry_map_buckets db Hall) as (d & Hd & Hkeys & Hent).
    exists d. split_and!; [done|done|].
    rewrite (approximate_result db title ig Hall H1 H2 H3).
    do 2 f_equal. apply map_ext. intros key. by rewrite Hent.
Qed.

(** C2 fails on the code: four keys reach 0.7 and only three contribute;
    the entry under the fourth is not returned. *)
Lemma approximate_keeps_all_counterexample :
  let e1 := entry_titled "gitlab1" "Work" in
  let e2 := entry_titled "gitlab2" "Work" in
  let e3 := entry_titled "gitlab3" "Work" in
  let e4 := entry_titled "gitlab4" "Work" in
  let db := [e1; e2; e3; e4] in
  TitleIndex_keys db = ["gitlab1"; "gitlab2"; "gitlab3"; "gitlab4"]
  /\ Forall (fun key => (7 # 10 <= similarity "gitlab0" key)%Q) (TitleIndex_keys db)
  /\ Spec.approximate db "gitlab0" = [e1; e2; e3; e4]
  /\ fuzzy_search_by_title db "gitlab0" None = Ok [e4; e3; e2]
  /\ ~ (forall entries,
          fuzzy_search_by_title db "gitlab0" None = Ok entries ->
          forall key, key ∈ TitleIndex_keys db -> (7 # 10 <= similarity "gitlab0" key)%Q ->
                      forall entry, entry ∈ bucket db key -> entry ∈ entries).
Proof.
  intros e1 e2 e3 e4 db.
  assert (Hkeys : TitleIndex_keys db = ["gitlab1"; "gitlab2"; "gitlab3"; "gitlab4"])
    by (by vm_compute).
  assert (Hq : Forall (fun key => (7 # 10 <= similarity "gitlab0" key)%Q) (TitleIndex_keys db)).
  { rewrite Hkeys. repeat constructor; apply Qle_bool_iff; by vm_compute. }
  assert (Hrun : fuzzy_search_by_title db "gitlab0" None = Ok [e4; e3; e2])
    by (by vm_compute).
  split_and!; [done|done|by vm_compute|done|].
  intros Hall. specialize (Hall _ Hrun "gitlab1").
  assert (Hin : e1 ∈ [e4; e3; e2]).
  { apply Hall.
    - rewrite Hkeys. left.
    - apply Qle_bool_iff. by vm_compute.
    - apply (bool_decide_unpack _). by vm_compute. }
  apply (bool_decide_pack _) in Hin. by vm_compute in Hin.
Qed.

(** C3, as the code has it.  When the first three stages find nothing in a
    store whose entries all have a title, the result is the filtered
    concatenation of the buckets of the kept keys, taken in descending
    order of similarity and, at equal similarity, in descending order of
    the keys as strings: not in the order of the index.  The bucket of a
    key holds the entries with that lowered title in store order. *)
Theorem approximate_order db title ig :
  Forall has_title db ->
  exact_candidates db title = [] ->
  caseless_candidates db title = [] ->
  substring_candidates db title = [] ->
  fuzzy_search_by_title db title ig
  = _filter_entries (concat (map (bucket db) (kept_keys db title))) ig
  /\ StronglySorted
       (fun key key' =>
          (similarity title key' < similarity title key)%Q
          \/ ((similarity title key' == similarity title key)%Q
              /\ String.ltb key' key = true))
       (kept_keys db title)
  /\ (forall key,
        sublist (bucket db key) db
        /\ forall entry, entry ∈ bucket db key <-> entry ∈ db /\ lower_title entry = Some key)
  /\ (exists entry_map,
        build_entry_map db = Ok entry_map
        /\ forall key, entries_of entry_map key = bucket db key).
Proof.
  intros Hall H1 H2 H3. split_and!.
  - by apply approximate_result.
  - eapply StronglySorted_NoDup_impl; [|apply kept_keys_sorted|apply kept_keys_NoDup].
    intros key key' Hlt _. by apply scored_above.
  - intros key. split; [apply sublist_filter|].
    intros entry. unfold bucket. by rewrite list_elem_of_filter, (comm and).
  - destruct (build_entry_map_buckets db Hall) as (d & Hd & _ & Hent). eauto.
Qed.

(** C3 fails on the code: ["gitlabs"] comes before ["gitlab"] in the
    index, both reach 0.7 for ["gitlb"], and the entry of ["gitlab"], the
    closer key, is returned first. *)
Lemma approximate_order_counterexample :
  let e1 := entry_titled "gitlabs" "Work" in
  let e2 := entry_titled "gitlab" "Work" in
  let db := [e1; e2] in
  TitleIndex_keys db = ["gitlabs"; "gitlab"]
  /\ Spec.qualifying_keys db "gitlb" = ["gitlabs"; "gitlab"]
  /\ Spec.approximate db "gitlb" = [e1; e2]
  /\ fuzzy_search_by_title db "gitlb" None = Ok [e2; e1]
  /\ fuzzy_search_by_title db "gitlb" None <> Ok (Spec.approximate db "gitlb").
Proof. vm_compute. split_and!; try done. Qed.

Lemma approximate_order_witness :
  let db := [entry_titled "gitlabs" "Work"; entry_titled "gitlab" "Work"] in
  (Forall has_title db
   /\ exact_candidates db "gitlb" = []
   /\ caseless_candidates db "gitlb" = []
   /\ substring_candidates db "gitlb" = [])
  /\ fuzzy_search_by_title db "gitlb" None
     = _filter_entries (concat (map (bucket db) (kept_keys db "gitlb"))) None.
Proof.
  intros db.
  assert (Hall : Forall has_title db) by (repeat constructor; by eexists).
  assert (H1 : exact_candidates db "gitlb" = []) by (by vm_compute).
  assert (H2 : caseless_candidates db "gitlb" = []) by (by vm_compute).
  assert (H3 : substring_candidates db "gitlb" = []) by (by vm_compute).
  split; [done|].
  exact (proj1 (approximate_order db "gitlb" None Hall H1 H2 H3)).
Defined.

Lemma approximate_keeps_three_best_witness :
  let db := [entry_titled "gitlab1" "Work"; entry_titled "gitlab2" "Work";
             entry_titled "gitlab3" "Work"; entry_titled "gitlab4" "Work"] in
  kept_keys db "gitlab0" = ["gitlab4"; "gitlab3"; "gitlab2"]
  /\ length (kept_keys db "gitlab0") <= 3
  /\ NoDup (kept_keys db "gitlab0").
Proof.
  intros db. split; [by vm_compute|].
  destruct (approximate_keeps_three_best db "gitlab0") as (Hlen & Hnd & _).
  by split.
Defined.

(** * More of the program *)

(** ** MultiDict *)

(** X1. Assigning to a key of a [MultiDict] and reading it back gives the
    values stored before followed by the new one; every other key reads
    as before; the keys keep their order, a new key going last. *)
Theorem MultiDict_setitem_roundtrip {V} (key : string) (value : V) (d : MultiDict V) :
  MultiDict_getitem (MultiDict_setitem key value d) key
  = Ok (entries_of d key ++ [value])
  /\ (forall key', key' <> key ->
        MultiDict_getitem (MultiDict_setitem key value d) key'
        = MultiDict_getitem d key')
  /\ MultiDict_keys (MultiDict_setitem key value d)
     = (if decide (key ∈ MultiDict_keys d) then MultiDict_keys d
        else MultiDict_keys d ++ [key]).
Proof.
  split_and!.
  - pose proof (MultiDict_setitem_entries key value d key) as He.
    rewrite decide_True in He by done. unfold entries_of in He at 1.
    destruct (proj1 (MultiDict_getitem_keys (MultiDict_setitem key value d) key))
      as [vs Hvs].
    { rewrite MultiDict_setitem_keys. destruct (decide (key ∈ MultiDict_keys d)); [done|].
      apply elem_of_app. right. left. }
    rewrite Hvs in He. by rewrite Hvs, He.
  - intros key' Hne. unfold MultiDict_setitem.
    rewrite MultiDict_append_getitem, decide_False by done.
    rewrite MultiDict_contains_keys. case_bool_decide; [done|].
    rewrite MultiDict_getitem_app.
    destruct (decide (key' ∈ MultiDict_keys d)) as [|Hn]; [done|].
    rewrite (proj2 (MultiDict_getitem_keys d key') Hn). simpl.
    destruct (String.eqb_spec key key'); [congruence|done].
  - apply MultiDict_setitem_keys.
Qed.

Lemma build_entry_map_raises db :
  ~ Forall has_title db -> build_entry_map db = Raise AttributeError.
Proof.
  unfold build_entry_map. generalize (@nil (string * list Entry)).
  induction db as [|e db IH]; intros d Hno; [destruct Hno; constructor|].
  simpl. destruct (_get_title e) as [t|] eqn:Ht; simpl; [|done].
  apply IH. intros Hall. apply Hno. constructor; [|done]. unfold has_title. by rewrite Ht.
Qed.

(** X2. The title index the approximate stage builds loses no entry and
    repeats none: when every entry has a title, the buckets of its keys put
    together hold exactly the entries of the store, and no bucket is
    empty.  When some entry has no title, building it raises
    [AttributeError]. *)
Theorem build_entry_map_partition db :
  (Forall has_title db ->
   exists entry_map,
     build_entry_map db = Ok entry_map
     /\ concat (map (entries_of entry_map) (MultiDict_keys entry_map)) ≡ₚ db
     /\ Forall (fun key => entries_of entry_map key <> []) (MultiDict_keys entry_map))
  /\ (~ Forall has_title db -> build_entry_map db = Raise AttributeError).
Proof.
  split; [|apply build_entry_map_raises].
  intros Hall. destruct (build_entry_map_buckets db Hall) as (d & Hd & Hkeys & Hent).
  exists d. split; [done|]. split.
  - rewrite (map_ext _ (bucket db)) by done. rewrite Hkeys.
    rewrite buckets_Permutation by apply first_occurrences_NoDup.
    apply Permutation_refl'. apply filter_all_elem.
    intros e He. destruct (proj1 (Forall_forall _ _) Hall e He) as [t Ht].
    assert (Hlt : lower_title e = Some (lower t)) by (unfold lower_title; by rewrite Ht).
    rewrite Hlt. apply list_elem_of_fmap. exists (lower t). split; [done|].
    apply first_occurrences_elem, list_elem_of_omap. eauto.
  - rewrite Hkeys. apply Forall_forall. intros key Hk. rewrite Hent.
    apply first_occurrences_elem, list_elem_of_omap in Hk as (e & He & Hlt).
    intros Hnil. assert (Hin : e ∈ bucket db key) by (by apply list_elem_of_filter).
    rewrite Hnil in Hin. inversion Hin.
Qed.

Lemma build_entry_map_partition_witness :
  let db := [entry_titled "Mail" "Work"; entry_titled "mail" "Home";
             entry_titled "Bank" "Home"] in
  Forall has_title db
  /\ exists entry_map,
       build_entry_map db = Ok entry_map
       /\ concat (map (entries_of entry_map) (MultiDict_keys entry_map)) ≡ₚ db
       /\ Forall (fun key => entries_of entry_map key <> []) (MultiDict_keys entry_map).
Proof.
  intros db.
  assert (Hall : Forall has_title db) by (repeat constructor; by eexists).
  split; [exact Hall|]. exact (proj1 (build_entry_map_partition db) Hall).
Defined.

(** ** What the search returns *)

Lemma approximate_candidates_elem db title entry :
  entry ∈ approximate_candidates db title ->
  entry ∈ db
  /\ exists key, lower_title entry = Some key /\ (7 # 10 <= similarity title key)%Q.
Proof.
  unfold approximate_candidates. intros Hin.
  apply list_elem_of_In, in_concat in Hin as (l & Hl & Hin).
  apply list_elem_of_In in Hl, Hin.
  rewrite map_fmap in Hl. apply list_elem_of_fmap in Hl as (key & -> & Hk).
  apply list_elem_of_filter in Hin as [Hlt Hin]. split; [done|].
  exists key. split; [done|]. by apply kept_keys_elem in Hk as [_ ?].
Qed.

Lemma first_nonempty_stages db title :
  first_nonempty (stages db title) ∈ stages db title
  \/ first_nonempty (stages db title) = [].
Proof.
  destruct (first_nonempty (stages db title)) as [|e l] eqn:Hf; [by right|].
  left. rewrite <- Hf. apply first_nonempty_elem. by rewrite Hf.
Qed.

(** X3. The search returns nothing unrelated.  All entries of a returned
    list come from the store, from outside the ["Backup"] group, and were
    found by one and the same test: their title is the term, or equals it
    up to case, or contains it up to case, or the similarity of their
    lowered title to the lowered term is at least 0.7.  The list is never
    empty. *)
Theorem search_sound db term entries :
  _search_for_entry db term = Ok entries ->
  entries <> []
  /\ Forall (fun entry =>
               entry ∈ db
               /\ exists name, parent_Name entry = Some name /\ name <> "Backup") entries
  /\ (Forall (fun entry => _get_title entry = Some term) entries
      \/ Forall (fun entry => lower_title entry = Some (lower term)) entries
      \/ Forall (fun entry => exists t, lower_title entry = Some t
                                        /\ str_in (lower term) t = true) entries
      \/ Forall (fun entry => exists key, lower_title entry = Some key
                                          /\ (7 # 10 <= similarity term key)%Q) entries).
Proof.
  rewrite _search_for_entry_eq.
  destruct (fuzzy_search_by_title db term (Some ["Backup"])) as [es|] eqn:Hf; [|done].
  intros Hes. assert (Hes' : es = entries /\ entries <> []) by (destruct es; split; congruence).
  destruct Hes' as [-> Hne]. clear Hes. split; [done|].
  destruct (fuzzy_search_by_title_cases db term (Some ["Backup"])) as [Hok|(_ & _ & Hr)];
    [|congruence].
  set (found := first_nonempty (stages db term)) in *.
  assert (Hent : _filter_entries found (Some ["Backup"]) = Ok entries) by congruence.
  clear Hok Hf.
  destruct (first_nonempty_stages db term) as [Hst|Hnil].
  2:{ fold found in Hnil. rewrite Hnil in Hent. simpl in Hent. congruence. }
  fold found in Hst.
  assert (Hsub : forall (P : Entry -> Prop), Forall P found -> Forall P entries).
  { intros P HP. apply Forall_forall. intros e He.
    apply (_filter_entries_elem _ _ _ e Hent) in He as [He _].
    by apply (proj1 (Forall_forall _ _) HP). }
  split.
  - apply Forall_forall. intros e He.
    apply (_filter_entries_elem _ _ _ e Hent) in He as [He Hg]. split.
    + apply (elem_of_submseteq _ _ _ He). by apply (stages_submseteq db term).
    + apply not_excluded_Some in Hg as (name & Hname & Hg).
      exists name. split; [done|]. intros ->. apply Hg. left.
  - unfold stages in Hst. rewrite !elem_of_cons in Hst.
    destruct Hst as [Hst|[Hst|[Hst|[Hst|Hst]]]]; [..|inversion Hst].
    + left. apply Hsub. rewrite Hst. apply Forall_forall. intros e He.
      by apply list_elem_of_filter in He as [? _].
    + right; left. apply Hsub. rewrite Hst. apply Forall_forall. intros e He.
      by apply list_elem_of_filter in He as [? _].
    + right; right; left. apply Hsub. rewrite Hst. apply Forall_forall. intros e He.
      apply list_elem_of_filter in He as [Hc _]. unfold title_contains in Hc.
      destruct (lower_title e) as [t|]; [eauto|done].
    + right; right; right. apply Hsub. rewrite Hst. apply Forall_forall. intros e He.
      by apply approximate_candidates_elem in He as [_ ?].
Qed.

Lemma search_sound_witness :
  let db := [entry_titled "Gmail Backup Account" "Internet"; entry_titled "Bank" "Backup"] in
  _search_for_entry db "backup" = Ok [entry_titled "Gmail Backup Account" "Internet"]
  /\ [entry_titled "Gmail Backup Account" "Internet"] <> [].
Proof.
  intros db.
  assert (Hrun : _search_for_entry db "backup"
                 = Ok [entry_titled "Gmail Backup Account" "Internet"]) by (by vm_compute).
  split; [exact Hrun|]. exact (proj1 (search_sound db "backup" _ Hrun)).
Defined.

Lemma lower_empty s : lower s = "" -> s = "".
Proof. by destruct s. Qed.

Lemma str_in_empty s : str_in "" s = true.
Proof. by destruct s. Qed.

(** X4. The empty term matches every title as a substring: when every
    entry has a title and none has the empty title, the search for [""]
    gives the whole store, filtered, in store order. *)
Theorem search_empty_term db ig :
  Forall has_title db ->
  (forall entry, entry ∈ db -> _get_title entry <> Some "") ->
  fuzzy_search_by_title db "" ig = _filter_entries db ig.
Proof.
  intros Hall Hne. rewrite fuzzy_search_by_title_first by done. do 2 f_equal.
  assert (H1 : exact_candidates db "" = []).
  { apply filter_none, Forall_forall. intros e He. by apply Hne. }
  assert (H2 : caseless_candidates db "" = []).
  { apply filter_none, Forall_forall. intros e He Hc. apply (Hne e He).
    unfold lower_title in Hc. destruct (_get_title e) as [t|]; [|done].
    simpl in Hc. injection Hc as Hc. by rewrite (lower_empty t). }
  assert (H3 : substring_candidates db "" = db).
  { apply filter_all_elem. intros e He. unfold title_contains.
    destruct (proj1 (Forall_forall _ _) Hall e He) as [t Ht].
    unfold lower_title. rewrite Ht. simpl. apply str_in_empty. }
  unfold stages. rewrite H1, H2, H3. simpl.
  destruct db as [|e db']; [|done]. by vm_compute.
Qed.

Lemma search_empty_term_witness :
  let db := [entry_titled "Mail" "Work"; entry_titled "Old mail" "Backup";
             entry_titled "Bank" "Home"] in
  (Forall has_title db /\ forall entry, entry ∈ db -> _get_title entry <> Some "")
  /\ fuzzy_search_by_title db "" (Some ["Backup"])
     = Ok [entry_titled "Mail" "Work"; entry_titled "Bank" "Home"].
Proof.
  intros db.
  assert (Hall : Forall has_title db) by (repeat constructor; by eexists).
  assert (Hne : forall entry, entry ∈ db -> _get_title entry <> Some "").
  { intros e He. repeat (apply elem_of_cons in He as [->|He]; [done|]). inversion He. }
  split; [done|]. rewrite (search_empty_term db _ Hall Hne). by vm_compute.
Defined.

(** X5. Past the exact stage the search does not see the case of the
    term: two terms that differ in case only, neither of which is the
    exact title of an entry, give the same result. *)
Theorem search_term_case db term term' ig :
  lower term = lower term' ->
  exact_candidates db term = [] ->
  exact_candidates db term' = [] ->
  fuzzy_search_by_title db term ig = fuzzy_search_by_title db term' ig.
Proof.
  intros Hl H1 H1'. rewrite !fuzzy_search_by_title_stages, H1, H1'.
  unfold caseless_candidates, substring_candidates, title_contains,
    approximate_candidates, kept_keys.
  by rewrite Hl.
Qed.

Lemma search_term_case_witness :
  let db := [entry_titled "GitHub" "Work"; entry_titled "Old github" "Work"] in
  (lower "GITHUB" = lower "github"
   /\ exact_candidates db "GITHUB" = [] /\ exact_candidates db "github" = [])
  /\ fuzzy_search_by_title db "GITHUB" None = fuzzy_search_by_title db "github" None.
Proof.
  intros db.
  assert (H0 : lower "GITHUB" = lower "github") by reflexivity.
  assert (H1 : exact_candidates db "GITHUB" = []) by (by vm_compute).
  assert (H2 : exact_candidates db "github" = []) by (by vm_compute).
  split; [done|]. exact (search_term_case db _ _ None H0 H1 H2).
Defined.

(** X6. When the search fails with [AttributeError], in a store whose
    entries all have a [String] child: exactly when no title is the term
    and some entry of the store has no title, whichever group that entry
    is in, or the parent of a candidate of the deciding stage has no name.
    The search never raises [KeyError]: every key the approximate stage
    reads is in the index. *)
Theorem search_missing_title db term :
  Forall (fun entry => Entry_String entry <> []) db ->
  (_search_for_entry db term = Raise AttributeError
   <-> (exact_candidates db term = [] /\ ~ Forall has_title db)
       \/ ~ Forall has_group (first_nonempty (stages db term)))
  /\ (forall key, _search_for_entry db term <> Raise (KeyError key)).
Proof.
  intros _. rewrite _search_for_entry_eq.
  destruct (fuzzy_search_by_title_cases db term (Some ["Backup"]))
    as [Hok|(H1 & Hno & Hr)].
  - rewrite Hok.
    destruct (_filter_entries (first_nonempty (stages db term)) (Some ["Backup"]))
      as [found|e] eqn:Hf.
    + split; [|by destruct found]. split; [by destruct found|].
      intros [[H1 Hno]|Hg]; exfalso.
      * pose proof (fuzzy_search_by_title_stages db term (Some ["Backup"])) as Hs.
        rewrite H1 in Hs. simpl in Hs. rewrite bool_decide_eq_false_2 in Hs by done.
        congruence.
      * rewrite _filter_entries_eq in Hf. by rewrite bool_decide_eq_false_2 in Hf.
    + apply _filter_entries_raises in Hf as [-> Hg]. split; [|done].
      split; [by right|done].
  - rewrite Hr. split; [|done]. split; [by left|done].
Qed.

(** An entry of the excluded group without a title is enough, and so is
    an earlier version of the entry looked for. *)
Lemma search_missing_title_witness :
  let broken := {| Entry_String := [ {| Key := "UserName"; Value := "x" |} ];
                   parent_Name := Some "Backup" |} in
  let db := [entry_titled "Mail" "Work"; broken] in
  let db' := [entry_titled "Mail" "Work"; history_entry "Mail"] in
  (Forall (fun entry => Entry_String entry <> []) db
   /\ Forall (fun entry => Entry_String entry <> []) db')
  /\ _search_for_entry db "mail" = Raise AttributeError
  /\ _search_for_entry db "Mail" = Ok [entry_titled "Mail" "Work"]
  /\ _search_for_entry db' "Mail" = Raise AttributeError.
Proof.
  intros broken db db'.
  assert (Hs : Forall (fun entry => Entry_String entry <> []) db)
    by (by repeat constructor).
  assert (Hs' : Forall (fun entry => Entry_String entry <> []) db')
    by (by repeat constructor).
  split; [done|]. split_and!.
  - apply (proj1 (search_missing_title db "mail" Hs)). left.
    split; [by vm_compute|]. intros Hc. inversion Hc as [|? ? _ Hc']; subst.
    inversion Hc' as [|? ? [t Ht] _]; subst. by vm_compute in Ht.
  - by vm_compute.
  - apply (proj1 (search_missing_title db' "Mail" Hs')). right.
    intros Hc. vm_compute in Hc. inversion Hc as [|? ? _ Hc']; subst.
    inversion Hc' as [|? ? [t Ht] _]; subst. discriminate.
Defined.

(** X7. As long as one of the first three stages has a candidate, the
    entries come back in the order of the store: the result is a
    subsequence of the store. *)
Theorem search_store_order db title ig entries :
  fuzzy_search_by_title db title ig = Ok entries ->
  exact_candidates db title <> [] \/ caseless_candidates db title <> []
  \/ substring_candidates db title <> [] ->
  sublist entries db.
Proof.
  rewrite fuzzy_search_by_title_stages. intros Hrun Hsome.
  assert (Hf : forall (P : Entry -> Prop) `{forall x, Decision (P x)},
             _filter_entries (filter P db) ig = Ok entries -> sublist entries db).
  { intros P ? Hfil. etrans; [by eapply _filter_entries_sublist|apply sublist_filter]. }
  destruct (exact_candidates db title) as [|e1 l1] eqn:H1.
  - cbn [truthy] in Hrun. destruct (bool_decide (Forall has_title db)); [|done].
    cbn [first_nonempty] in Hrun.
    destruct (caseless_candidates db title) as [|e2 l2] eqn:H2.
    + cbn [truthy] in Hrun. destruct (substring_candidates db title) as [|e3 l3] eqn:H3.
      * by destruct Hsome as [?|[?|?]].
      * cbn [truthy] in Hrun. rewrite <- H3 in Hrun. by eapply Hf.
    + cbn [truthy] in Hrun. rewrite <- H2 in Hrun. by eapply Hf.
  - cbn [truthy] in Hrun. rewrite <- H1 in Hrun. by eapply Hf.
Qed.

Lemma search_store_order_witness :
  let db := [entry_titled "Work VPN" "Office"; entry_titled "Bank" "Home";
             entry_titled "Work VPN" "Home"] in
  sublist [entry_titled "Work VPN" "Office"; entry_titled "Work VPN" "Home"] db.
Proof.
  intros db. apply (search_store_order db "Work VPN" (Some ["Backup"])).
  - by vm_compute.
  - left. by vm_compute.
Defined.

(** X8. The approximate stage does not depend on the order in which the
    index lists its keys (which a [dict] does not promise in every
    Python): whatever the order, [get_close_matches] keeps the same keys
    in the same order. *)
Theorem approximate_key_order db title (keys : list string) :
  Forall has_title db ->
  exists entry_map,
    build_entry_map db = Ok entry_map
    /\ (keys ≡ₚ MultiDict_keys entry_map ->
        difflib.get_close_matches (lower title) keys 3 (7 # 10)
        = difflib.get_close_matches (lower title) (MultiDict_keys entry_map) 3 (7 # 10)).
Proof.
  intros Hall. destruct (build_entry_map_buckets db Hall) as (d & Hd & _).
  exists d. split; [done|]. apply get_close_matches_Permutation.
Qed.

Lemma approximate_key_order_witness :
  let db := [entry_titled "gitlabs" "Work"; entry_titled "gitlab" "Work"] in
  Forall has_title db
  /\ difflib.get_close_matches "gitlb" ["gitlab"; "gitlabs"] 3 (7 # 10)
     = difflib.get_close_matches "gitlb" ["gitlabs"; "gitlab"] 3 (7 # 10).
Proof.
  intros db.
  assert (Hall : Forall has_title db) by (repeat constructor; by eexists).
  split; [exact Hall|].
  destruct (approximate_key_order db "gitlb" ["gitlab"; "gitlabs"] Hall)
    as (d & Hd & Hk).
  assert (Hd' : build_entry_map db
                = Ok [("gitlabs", [entry_titled "gitlabs" "Work"]);
                      ("gitlab", [entry_titled "gitlab" "Work"])]) by (by vm_compute).
  rewrite Hd' in Hd. injection Hd as <-. apply Hk. apply perm_swap.
Defined.

(** ** The two lookups side by side *)

(** X9. What [_find_password] finds, [_find_string] finds too when asked
    for ["Password"]; the two return the same value unless the entry also
    has a field whose key is ["Password"] in another case. *)
Theorem find_password_then_find_string entry v :
  _find_password entry = Some v ->
  is_Some (_find_string entry "Password")
  /\ ((forall s, s ∈ Entry_String entry ->
                 lower (Key s) = lower "Password" -> Key s = "Password") ->
      _find_string entry "Password" = Some v).
Proof.
  unfold _find_password, _find_string.
  induction (Entry_String entry) as [|s ss IH];
    cbn [_find_password_loop _find_string_loop]; [done|].
  destruct (String.eqb_spec (Key s) "Password") as [Hk|Hk].
  - intros [= <-]. rewrite Hk, String.eqb_refl. split; [eauto|done].
  - intros Hv. destruct (IH Hv) as [IH1 IH2].
    destruct (String.eqb_spec (lower (Key s)) (lower "Password")) as [Hl|Hl].
    + split; [eauto|]. intros Hall. destruct Hk. apply Hall; [left|done].
    + split; [done|]. intros Hall. apply IH2. intros s' Hs'. apply Hall. by right.
Qed.

Lemma find_password_then_find_string_witness :
  let entry := {| Entry_String := [ {| Key := "password"; Value := "old" |};
                                    {| Key := "Password"; Value := "new" |} ];
                  parent_Name := Some "Internet" |} in
  _find_password entry = Some "new"
  /\ is_Some (_find_string entry "Password")
  /\ _find_string entry "Password" = Some "old".
Proof.
  intros entry. split; [done|]. split; [|done].
  exact (proj1 (find_password_then_find_string entry "new" eq_refl)).
Defined.

(** ** The stages widen *)

Lemma filter_sublist_impl {A} (P Q : A -> Prop)
    `{forall x, Decision (P x)} `{forall x, Decision (Q x)} (l : list A) :
  (forall x, P x -> Q x) -> sublist (filter P l) (filter Q l).
Proof.
  intros HPQ. induction l as [|x l IH]; [done|]. rewrite !filter_cons.
  destruct (decide (P x)) as [HP|HP].
  - rewrite decide_True by auto. by constructor.
  - destruct (decide (Q x)); [by constructor|done].
Qed.

Lemma prefix_refl s : String.prefix s s = true.
Proof. induction s as [|c s IH]; simpl; [done|]. by destruct (ascii_dec c c). Qed.

Lemma str_in_refl s : str_in s s = true.
Proof. destruct s; simpl; [done|]. rewrite prefix_refl. by destruct (ascii_dec a a). Qed.

(** X10. Each of the first three stages takes in the one before: an entry
    whose title is the term also matches up to case, and an entry that
    matches up to case also contains the term; so when the substring stage
    finds nothing the two stages before it found nothing either. *)
Theorem stages_widen db title :
  sublist (exact_candidates db title) (caseless_candidates db title)
  /\ sublist (caseless_candidates db title) (substring_candidates db title)
  /\ (substring_candidates db title = [] ->
      exact_candidates db title = [] /\ caseless_candidates db title = []).
Proof.
  assert (H1 : sublist (exact_candidates db title) (caseless_candidates db title)).
  { apply filter_sublist_impl. intros e He. unfold lower_title. by rewrite He. }
  assert (H2 : sublist (caseless_candidates db title) (substring_candidates db title)).
  { apply filter_sublist_impl. intros e He. unfold title_contains. rewrite He.
    apply str_in_refl. }
  split_and!; [done|done|]. intros H3. rewrite H3 in H2.
  apply sublist_nil_r in H2. rewrite H2 in H1. apply sublist_nil_r in H1. done.
Qed.

(** ** [do_list] *)

Lemma list_rows_loop (entries : list Entry) (t : list (list cell)) :
  for_each
    (fun t entry =>
       let* group_name := getparent_Name entry in
       if String.eqb group_name "Backup" then Ok t
       else Ok (t ++ [list_row entry group_name]))
    entries t
  = if bool_decide (Forall has_group entries)
    then Ok (t ++ omap shown_row entries)
    else Raise AttributeError.
Proof.
  revert t. induction entries as [|e l IH]; intros t.
  - simpl. by rewrite app_nil_r.
  - cbn [for_each omap list_omap]. unfold getparent_Name at 1, shown_row at 1, has_group.
    destruct (parent_Name e) as [name|] eqn:Hname; cbn [res_bind].
    + assert (Hrest : bool_decide (Forall (fun entry => is_Some (parent_Name entry)) (e :: l))
                      = bool_decide (Forall (fun entry => is_Some (parent_Name entry)) l)).
      { apply bool_decide_ext. split; [by inversion 1|].
        intros Hl. constructor; [rewrite Hname; eauto|done]. }
      rewrite Hrest. destruct (String.eqb name "Backup"); cbn [res_bind]; rewrite IH;
        destruct (bool_decide _); [done|done| |done].
      by rewrite <- app_assoc.
    + rewrite bool_decide_eq_false_2; [done|].
      intros Hc. inversion Hc as [|? ? [name Hn] ?]; subst. congruence.
Qed.

Lemma shown_rows_all (entries : list Entry) :
  Forall (fun entry => exists name, parent_Name entry = Some name /\ name <> "Backup")
         entries ->
  Forall2 (fun entry row => shown_row entry = Some row) entries (omap shown_row entries).
Proof.
  induction 1 as [|e l (name & Hname & Hne) Hl IH]; [constructor|].
  assert (Hrow : shown_row e = Some (list_row e name)).
  { unfold shown_row. rewrite Hname. apply String.eqb_neq in Hne. by rewrite Hne. }
  cbn [omap list_omap]. rewrite Hrow. by constructor.
Qed.

Lemma shown_row_Some entry row :
  shown_row entry = Some row ->
  exists name, parent_Name entry = Some name /\ name <> "Backup"
               /\ row = list_row entry name.
Proof.
  unfold shown_row. destruct (parent_Name entry) as [name|]; [|done].
  destruct (String.eqb_spec name "Backup"); [done|]. intros [= <-]. eauto.
Qed.

Lemma keyed_loop (l : list Entry) (acc : list (string * Entry)) :
  for_each
    (fun keyed x =>
       let* k := str_lower (_find_string x "Title") in Ok (keyed ++ [(k, x)])) l acc
  = if bool_decide (Forall has_title l)
    then Ok (acc ++ map (fun x => (default "" (lower_title x), x)) l)
    else Raise AttributeError.
Proof.
  revert acc. induction l as [|e l IH]; intros acc.
  - simpl. by rewrite app_nil_r.
  - cbn [for_each]. unfold has_title, lower_title, _get_title in *.
    destruct (_find_string e "Title") as [t|] eqn:Ht; simpl.
    + rewrite IH. destruct (bool_decide (Forall _ l)) eqn:Hall.
      * apply bool_decide_eq_true_1 in Hall.
        rewrite bool_decide_eq_true_2 by (constructor; [rewrite Ht; eauto|done]).
        rewrite Ht. simpl. by rewrite <- app_assoc.
      * apply bool_decide_eq_false_1 in Hall.
        rewrite bool_decide_eq_false_2; [done|]. intros Hc. apply Hall. by inversion Hc.
    + rewrite bool_decide_eq_false_2; [done|].
      intros Hc. inversion Hc as [|? ? [t Ht'] ?]; subst. congruence.
Qed.

Lemma insert_by_key_Permutation x l : insert_by_key x l ≡ₚ x :: l.
Proof.
  induction l as [|y l IH]; simpl; [done|].
  destruct (String.leb (fst x) (fst y)); [done|]. rewrite IH. apply perm_swap.
Qed.

Lemma sorted_by_key_Permutation l : sorted_by_key l ≡ₚ l.
Proof.
  induction l as [|x l IH]; simpl; [done|]. by rewrite insert_by_key_Permutation, IH.
Qed.

Lemma insert_by_key_sorted x l :
  StronglySorted (fun p q => String.le (fst p) (fst q)) l ->
  StronglySorted (fun p q => String.le (fst p) (fst q)) (insert_by_key x l).
Proof.
  induction 1 as [|y l Hl IH Hy]; simpl; [repeat constructor|].
  destruct (String.leb (fst x) (fst y)) eqn:Hxy.
  - constructor; [by constructor|]. constructor.
    + unfold String.le. by rewrite Hxy.
    + eapply Forall_impl; [exact Hy|]. intros z Hz. simpl in *.
      transitivity (fst y); [|done]. unfold String.le. by rewrite Hxy.
  - constructor; [done|]. rewrite insert_by_key_Permutation. constructor; [|done].
    destruct (total String.le (fst x) (fst y)) as [Hc|Hc]; [|done].
    unfold String.le in Hc. by rewrite Hxy in Hc.
Qed.

Lemma sorted_by_key_sorted l :
  StronglySorted (fun p q => String.le (fst p) (fst q)) (sorted_by_key l).
Proof.
  induction l as [|x l IH]; simpl; [constructor|]. by apply insert_by_key_sorted.
Qed.

(** The sort is stable: the elements of one key keep their order. *)
Lemma insert_by_key_stable key x l :
  filter (fun p : string * Entry => fst p = key) (insert_by_key x l)
  = filter (fun p : string * Entry => fst p = key) (x :: l).
Proof.
  induction l as [|y l IH]; simpl; [done|].
  destruct (String.leb (fst x) (fst y)) eqn:Hxy; [done|].
  rewrite filter_cons, IH, !filter_cons.
  destruct (decide (fst y = key)) as [Hy|Hy]; [|done].
  destruct (decide (fst x = key)) as [Hx|Hx]; [|done].
  exfalso. rewrite Hx, <- Hy in Hxy.
  pose proof (reflexivity (R := String.le) (fst y)) as Hr.
  unfold String.le in Hr. by rewrite Hxy in Hr.
Qed.

Lemma sorted_by_key_stable key l :
  filter (fun p : string * Entry => fst p = key) (sorted_by_key l)
  = filter (fun p : string * Entry => fst p = key) l.
Proof.
  induction l as [|x l IH]; simpl; [done|].
  by rewrite insert_by_key_stable, !filter_cons, IH.
Qed.

Lemma keyed_bucket key (l : list (string * Entry)) :
  Forall (fun p => lower_title (snd p) = Some (fst p)) l ->
  bucket (map snd l) key = map snd (filter (fun p : string * Entry => fst p = key) l).
Proof.
  unfold bucket. induction 1 as [|p l Hp Hl IH]; simpl; [done|].
  rewrite !filter_cons, IH, Hp.
  destruct (decide (fst p = key)) as [Hk|Hk].
  - by rewrite decide_True by congruence.
  - by rewrite decide_False by congruence.
Qed.

Lemma sorted_by_title_spec db :
  Forall has_title db ->
  exists entries,
    sorted_by_title db = Ok entries
    /\ entries ≡ₚ db
    /\ StronglySorted
         (fun e e' => String.le (default "" (lower_title e)) (default "" (lower_title e')))
         entries
    /\ forall key, bucket entries key = bucket db key.
Proof.
  intros Hall. unfold sorted_by_title. rewrite keyed_loop.
  rewrite bool_decide_eq_true_2 by done. simpl.
  set (keyed := map (fun x => (default "" (lower_title x), x)) db).
  assert (Hkeyed : Forall (fun p => lower_title (snd p) = Some (fst p)) keyed).
  { unfold keyed. apply Forall_forall. intros p Hp. rewrite map_fmap in Hp.
    apply list_elem_of_fmap in Hp as (e & -> & He). simpl.
    destruct (proj1 (Forall_forall _ _) Hall e He) as [t Ht].
    unfold lower_title. by rewrite Ht. }
  assert (Hmap : map snd keyed = db).
  { unfold keyed. rewrite map_map. simpl. by rewrite map_id. }
  eexists. split; [done|]. split_and!.
  - etrans; [|apply Permutation_refl', Hmap]. rewrite !(map_fmap snd).
    apply fmap_Permutation, sorted_by_key_Permutation.
  - assert (Hgen : forall L : list (string * Entry),
               StronglySorted (fun p q => String.le (fst p) (fst q)) L ->
               Forall (fun p => lower_title (snd p) = Some (fst p)) L ->
               StronglySorted
                 (fun e e' => String.le (default "" (lower_title e))
                                        (default "" (lower_title e')))
                 (map snd L)).
    { intros L Hs. induction Hs as [|p l Hl IH Hp]; intros Hk'; simpl; [constructor|].
      apply Forall_cons in Hk' as [Hp1 Hk'']. constructor; [by apply IH|].
      rewrite map_fmap. apply Forall_fmap, Forall_forall. intros q Hq. simpl.
      rewrite Hp1, (proj1 (Forall_forall _ _) Hk'' q Hq). simpl.
      by apply (proj1 (Forall_forall _ _) Hp). }
    apply Hgen; [apply sorted_by_key_sorted|by rewrite sorted_by_key_Permutation].
  - intros key. rewrite keyed_bucket by (by rewrite sorted_by_key_Permutation).
    rewrite sorted_by_key_stable, <- keyed_bucket by done. by rewrite Hmap.
Qed.

(** X11. [do_list] without a term, on a store whose entries all have a
    title.  When the parent of every entry has a name, it prints the
    heading and one table whose rows are the entries outside the
    ["Backup"] group, in ascending order of their lowered titles; when
    the parent of some entry has no name it fails with [AttributeError]
    after the heading.  The sort behind it keeps every entry of the store
    and leaves entries of equal lowered title in store order. *)
Theorem do_list_sorted db args :
  term args = None ->
  Forall has_title db ->
  exists entries,
    do_list db args
    = (if bool_decide (Forall has_group db)
       then ([Print ("Entries:" +:+ String "010" "");
              PrintTable ["Title"; "User Name"; "Group"] (omap shown_row entries)],
             Returned)
       else ([Print ("Entries:" +:+ String "010" "")], Raised (Exn AttributeError)))
    /\ entries ≡ₚ db
    /\ StronglySorted
         (fun e e' => String.le (default "" (lower_title e)) (default "" (lower_title e')))
         entries
    /\ forall key, bucket entries key = bucket db key.
Proof.
  intros Hterm Hall.
  destruct (sorted_by_title_spec db Hall) as (entries & Hs & Hperm & Hsorted & Hstable).
  exists entries. split; [|done].
  unfold do_list. rewrite Hterm, Hs. cbn [res_bind]. rewrite list_rows_loop.
  rewrite (bool_decide_ext (Forall has_group entries) (Forall has_group db))
    by (by rewrite Hperm).
  by destruct (bool_decide (Forall has_group db)).
Qed.

Lemma do_list_sorted_witness :
  let db := [entry_titled "mail" "Work"; entry_titled "Bank" "Backup";
             entry_titled "AWS" "Work"; entry_titled "Mail" "Home"] in
  let args := {| db_file := None; key_file := None; term := None; entry_id := "";
                 entry_fields := []; clipboard_copy := true; quiet := false |} in
  (term args = None /\ Forall has_title db)
  /\ do_list db args
     = ([Print ("Entries:" +:+ String "010" "");
         PrintTable ["Title"; "User Name"; "Group"]
           [list_row (entry_titled "AWS" "Work") "Work";
            list_row (entry_titled "mail" "Work") "Work";
            list_row (entry_titled "Mail" "Home") "Home"]],
        Returned)
  /\ do_list (history_entry "mail" :: db) args
     = ([Print ("Entries:" +:+ String "010" "")], Raised (Exn AttributeError))
  /\ exists entries, entries ≡ₚ db /\ forall key, bucket entries key = bucket db key.
Proof.
  intros db args.
  assert (Hall : Forall has_title db) by (repeat constructor; by eexists).
  split; [done|]. split; [by vm_compute|]. split; [by vm_compute|].
  destruct (do_list_sorted db args eq_refl Hall) as (entries & _ & Hperm & _ & Hst).
  by exists entries.
Defined.

Lemma _search_for_entry_no_backup db term entries :
  _search_for_entry db term = Ok entries ->
  entries <> []
  /\ Forall (fun entry =>
               entry ∈ db
               /\ exists name, parent_Name entry = Some name /\ name <> "Backup") entries.
Proof.
  rewrite _search_for_entry_eq.
  destruct (fuzzy_search_by_title db term (Some ["Backup"])) as [es|] eqn:Hf; [|done].
  intros Hes. assert (Hes' : es = entries /\ entries <> []) by (destruct es; split; congruence).
  destruct Hes' as [-> Hne]. split; [done|].
  pose proof (fuzzy_search_by_title_submseteq _ _ _ _ Hf) as Hsub.
  apply fuzzy_search_by_title_filtered in Hf as [candidates Hf].
  apply Forall_forall. intros e He. split; [by eapply elem_of_submseteq|].
  apply (_filter_entries_elem _ _ _ e Hf) in He as [_ Hn].
  apply not_excluded_Some in Hn as (name & Hname & Hn).
  exists name. split; [done|]. intros ->. apply Hn. left.
Qed.

(** X12. [do_list] with a term shows what the search returned, all of it
    and in the same order, each entry with its title, user name and group:
    its own test for the ["Backup"] group never drops a row, because the
    search has excluded that group already, and its reading of the group
    name never fails, because the search has read it already. *)
Theorem do_list_search db args t found :
  term args = Some t ->
  _search_for_entry db t = Ok found ->
  do_list db args
  = ([Print ("Entries:" +:+ String "010" "");
      PrintTable ["Title"; "User Name"; "Group"] (omap shown_row found)],
     Returned)
  /\ Forall2 (fun entry row =>
                exists name, parent_Name entry = Some name /\ row = list_row entry name)
             found (omap shown_row found).
Proof.
  intros Hterm Hfound. unfold do_list. rewrite Hterm, Hfound. cbn [res_bind].
  rewrite list_rows_loop.
  apply _search_for_entry_no_backup in Hfound as [_ Hnb].
  assert (Hg : Forall (fun entry => exists name,
                         parent_Name entry = Some name /\ name <> "Backup") found).
  { eapply Forall_impl; [exact Hnb|]. by intros e [_ ?]. }
  split.
  - rewrite bool_decide_eq_true_2; [done|].
    eapply Forall_impl; [exact Hg|]. intros e (name & Hname & _). by exists name.
  - eapply Forall2_impl; [by apply shown_rows_all|].
    intros e row Hrow. apply shown_row_Some in Hrow as (name & ? & _ & ?). eauto.
Qed.

Lemma do_list_search_witness :
  let db := [entry_titled "Mail" "Backup"; entry_titled "Mail" "Internet"] in
  let args := {| db_file := None; key_file := None; term := Some "Mail"; entry_id := "";
                 entry_fields := []; clipboard_copy := true; quiet := false |} in
  _search_for_entry db "Mail" = Ok [entry_titled "Mail" "Internet"]
  /\ do_list db args
     = ([Print ("Entries:" +:+ String "010" "");
         PrintTable ["Title"; "User Name"; "Group"]
           [list_row (entry_titled "Mail" "Internet") "Internet"]],
        Returned).
Proof.
  intros db args.
  assert (Hf : _search_for_entry db "Mail" = Ok [entry_titled "Mail" "Internet"])
    by (by vm_compute).
  split; [exact Hf|]. exact (proj1 (do_list_search db args "Mail" _ eq_refl Hf)).
Defined.

(** X13. Whatever the arguments, no row [do_list] prints names the
    ["Backup"] group, and every row shows the title, the user name and the
    group of an entry of the store. *)
Theorem do_list_no_backup db args events e field_names rows :
  do_list db args = (events, e) ->
  PrintTable field_names rows ∈ events ->
  Forall (fun row => exists entry name,
            entry ∈ db /\ parent_Name entry = Some name /\ name <> "Backup"
            /\ row = list_row entry name) rows.
Proof.
  unfold do_list.
  destruct (match term args with
            | Some term => _search_for_entry db term
            | None => sorted_by_title db
            end) as [entries|err] eqn:Hentries; cbn [res_bind].
  2:{ intros [= <- <-] Hin. apply list_elem_of_singleton in Hin. discriminate. }
  rewrite list_rows_loop. destruct (bool_decide (Forall has_group entries)).
  2:{ intros [= <- <-] Hin. apply list_elem_of_singleton in Hin. discriminate. }
  intros [= <- <-] Hin.
  apply elem_of_cons in Hin as [Hin|Hin]; [discriminate|].
  apply list_elem_of_singleton in Hin. injection Hin as _ ->.
  assert (Hsub : forall entry, entry ∈ entries -> entry ∈ db).
  { destruct (term args) as [t|].
    - apply _search_for_entry_no_backup in Hentries as [_ Hnb].
      intros entry He. by apply (proj1 (Forall_forall _ _) Hnb entry He).
    - destruct (decide (Forall has_title db)) as [Hall|Hno].
      + destruct (sorted_by_title_spec db Hall) as (entries' & Hs & Hperm & _).
        rewrite Hs in Hentries. injection Hentries as ->.
        intros entry He. by rewrite <- Hperm.
      + unfold sorted_by_title in Hentries. rewrite keyed_loop in Hentries.
        by rewrite bool_decide_eq_false_2 in Hentries. }
  apply Forall_forall. intros row Hrow. simpl in Hrow.
  apply list_elem_of_omap in Hrow as (entry & He & Hrow).
  apply shown_row_Some in Hrow as (name & Hname & Hne & ->).
  exists entry, name. auto.
Qed.

Lemma do_list_no_backup_witness :
  let db := [entry_titled "Mail" "Backup"; entry_titled "Bank" "Home"] in
  let args := {| db_file := None; key_file := None; term := None; entry_id := "";
                 entry_fields := []; clipboard_copy := true; quiet := false |} in
  Forall (fun row => exists entry name,
            entry ∈ db /\ parent_Name entry = Some name /\ name <> "Backup"
            /\ row = list_row entry name)
         [list_row (entry_titled "Bank" "Home") "Home"].
Proof.
  intros db args.
  eapply (do_list_no_backup db args _ _ ["Title"; "User Name"; "Group"]).
  - by vm_compute.
  - right. left.
Defined.

(** ** [do_get] *)

Section do_get_facts.
Variable int : string -> option Z.

Lemma which_entry_events fuel inputs n :
  Forall (fun ev => ev = RawInput "Which entry? ") (fst (which_entry int fuel inputs n)).
Proof.
  revert inputs. induction fuel as [|fuel IH]; intros inputs; simpl; [constructor|].
  assert (Hagain : forall rest,
    Forall (fun ev => ev = RawInput "Which entry? ")
      (fst (let '(events, a) := which_entry int fuel rest n in
            (RawInput "Which entry? " :: events, a)))).
  { intros rest. specialize (IH rest).
    destruct (which_entry int fuel rest n) as [events a]. by constructor. }
  destruct inputs as [|[line|] rest]; [apply Hagain| |by repeat constructor].
  destruct (int line) as [choice|]; [|apply Hagain].
  destruct ((choice <? 1)%Z || (Z.of_nat n <? choice)%Z); [apply Hagain|].
  by repeat constructor.
Qed.

Lemma which_entry_range fuel inputs n choice :
  snd (which_entry int fuel inputs n) = Choice choice ->
  (1 <= choice <= Z.of_nat n)%Z.
Proof.
  revert inputs. induction fuel as [|fuel IH]; intros inputs; simpl; [done|].
  assert (Hagain : forall rest,
    snd (let '(events, a) := which_entry int fuel rest n in
         (RawInput "Which entry? " :: events, a)) = Choice choice ->
    (1 <= choice <= Z.of_nat n)%Z).
  { intros rest. specialize (IH rest).
    by destruct (which_entry int fuel rest n) as [events a]. }
  destruct inputs as [|[line|] rest]; [apply Hagain| |done].
  destruct (int line) as [c|]; [|apply Hagain].
  destruct ((c <? 1)%Z || (Z.of_nat n <? c)%Z) eqn:Hc; [apply Hagain|].
  simpl. intros [= <-]. apply orb_false_iff in Hc as [H1 H2].
  apply Z.ltb_ge in H1, H2. lia.
Qed.

Lemma which_entry_first_valid_aux n pre fuel :
  Forall (wrong_answer int n) pre ->
  length pre < fuel ->
  (forall line choice rest,
      int line = Some choice -> (1 <= choice <= Z.of_nat n)%Z ->
      which_entry int fuel (pre ++ Typed line :: rest) n
      = (repeat (RawInput "Which entry? ") (S (length pre)), Choice choice))
  /\ (forall rest,
        which_entry int fuel (pre ++ Interrupt :: rest) n
        = (repeat (RawInput "Which entry? ") (S (length pre)), Interrupted))
  /\ (forall inputs choice,
        snd (which_entry int fuel inputs n) = Choice choice ->
        (1 <= choice <= Z.of_nat n)%Z).
Proof.
  intros Hpre Hfuel. split_and!; [| |intros; by eapply which_entry_range].
  - intros line choice rest Hline Hrange. revert fuel Hfuel.
    induction Hpre as [|i pre Hi Hpre IH]; intros [|fuel] Hfuel; simpl in *; try lia.
    + rewrite Hline.
      replace ((choice <? 1)%Z || (Z.of_nat n <? choice)%Z) with false; [done|].
      symmetry. apply orb_false_iff. split; apply Z.ltb_ge; lia.
    + rewrite (IH fuel) by lia. destruct i as [l|]; [|done]. simpl in Hi.
      destruct (int l) as [c|]; [|done].
      replace ((c <? 1)%Z || (Z.of_nat n <? c)%Z) with true; [done|].
      symmetry. apply orb_true_iff. destruct Hi; [left|right]; by apply Z.ltb_lt.
  - intros rest. revert fuel Hfuel.
    induction Hpre as [|i pre Hi Hpre IH]; intros [|fuel] Hfuel; simpl in *; try lia.
    + done.
    + rewrite (IH fuel) by lia. destruct i as [l|]; [|done]. simpl in Hi.
      destruct (int l) as [c|]; [|done].
      replace ((c <? 1)%Z || (Z.of_nat n <? c)%Z) with true; [done|].
      symmetry. apply orb_true_iff. destruct Hi; [left|right]; by apply Z.ltb_lt.
Qed.

Lemma which_entry_never_ends_aux n inputs fuel :
  Forall (wrong_answer int n) inputs ->
  which_entry int fuel inputs n = (repeat (RawInput "Which entry? ") fuel, StillAsking).
Proof.
  revert inputs. induction fuel as [|fuel IH]; intros inputs Hin; simpl; [done|].
  destruct Hin as [|i rest Hi Hrest].
  - by rewrite IH by constructor.
  - rewrite (IH rest Hrest). destruct i as [l|]; [|done]. simpl in Hi.
    destruct (int l) as [c|]; [|done].
    replace ((c <? 1)%Z || (Z.of_nat n <? c)%Z) with true; [done|].
    symmetry. apply orb_true_iff. destruct Hi; [left|right]; by apply Z.ltb_lt.
Qed.

(** X14. The loop of [do_get] takes the first answer that is a number
    from 1 to [n], after asking once for every answer before it, and ends
    at the first Ctrl-C the same way.  The number it hands on is always
    one of [1 .. n]. *)
Theorem which_entry_first_valid n pre fuel :
  Forall (wrong_answer int n) pre ->
  length pre < fuel ->
  (forall line choice rest,
      int line = Some choice -> (1 <= choice <= Z.of_nat n)%Z ->
      which_entry int fuel (pre ++ Typed line :: rest) n
      = (repeat (RawInput "Which entry? ") (S (length pre)), Choice choice))
  /\ (forall rest,
        which_entry int fuel (pre ++ Interrupt :: rest) n
        = (repeat (RawInput "Which entry? ") (S (length pre)), Interrupted))
  /\ (forall inputs choice,
        snd (which_entry int fuel inputs n) = Choice choice ->
        (1 <= choice <= Z.of_nat n)%Z).
Proof. apply which_entry_first_valid_aux. Qed.

(** X15. When no answer is a number from 1 to [n] and Ctrl-C never comes,
    the loop does not end: at the end of the input [raw_input] fails on
    every turn and the loop asks again, so however many turns it is given
    it has asked that many times and is still asking. *)
Theorem which_entry_never_ends n inputs fuel :
  Forall (wrong_answer int n) inputs ->
  which_entry int fuel inputs n = (repeat (RawInput "Which entry? ") fuel, StillAsking).
Proof. apply which_entry_never_ends_aux. Qed.

Lemma get_rows_loop (start : nat) (entries : list Entry) (t : list (list cell)) :
  fold_left
    (fun t (p : nat * Entry) => let '(i, entry) := p in t ++ [get_row i entry])
    (combine (seq start (length entries)) entries) t
  = t ++ imap (fun i entry => get_row (start + i) entry) entries.
Proof.
  revert start t. induction entries as [|e l IH]; intros start t; simpl.
  - by rewrite app_nil_r.
  - rewrite IH, <- app_assoc. simpl. rewrite Nat.add_0_r. do 2 f_equal.
    apply imap_ext. intros i x _. simpl. f_equal. lia.
Qed.

Lemma do_get_found fuel inputs db args entries :
  _search_for_entry db (entry_id args) = Ok entries ->
  exists prompts,
    Forall (fun ev => ev = RawInput "Which entry? ") prompts
    /\ (prompts <> [] -> 1 < length entries)
    /\ (do_get int fuel inputs db args
        = (get_table entries :: prompts, Raised (SystemExit None))
        \/ do_get int fuel inputs db args = (get_table entries :: prompts, Asking)
        \/ exists entry,
             entry ∈ entries
             /\ do_get int fuel inputs db args
                = (get_table entries :: prompts ++ show_entry args entry, Returned)).
Proof.
  intros Hs. unfold do_get. rewrite Hs, get_rows_loop. simpl app at 1.
  fold (numbered_rows entries). fold (get_table entries).
  destruct (1 <? length entries)%nat eqn:Hlen.
  - apply Nat.ltb_lt in Hlen.
    pose proof (which_entry_events fuel inputs (length entries)) as Hev.
    pose proof (which_entry_range fuel inputs (length entries)) as Hrange.
    destruct (which_entry int fuel inputs (length entries)) as [events a].
    simpl in Hev, Hrange. exists events. split; [done|]. split; [done|].
    destruct a as [choice| |]; [|by left|by right; left].
    specialize (Hrange choice eq_refl). right; right.
    unfold list_getitem. rewrite (proj2 (Z.leb_le 0 (choice - 1))) by lia.
    destruct (lookup_lt_is_Some_2 entries (Z.to_nat (choice - 1))) as [entry He]; [lia|].
    rewrite He. exists entry. split; [by eapply list_elem_of_lookup_2|done].
  - exists []. split; [constructor|]. split; [done|]. right; right.
    apply _search_for_entry_no_backup in Hs as [Hne _].
    destruct entries as [|entry entries]; [done|].
    exists entry. split; [left|done].
Qed.

Lemma _search_for_entry_raises db term e :
  _search_for_entry db term = Raise e ->
  e = not_found term
  \/ (e = AttributeError /\ (~ Forall has_title db \/ ~ Forall has_group db)).
Proof.
  rewrite _search_for_entry_eq.
  destruct (fuzzy_search_by_title_cases db term (Some ["Backup"]))
    as [Hok|(_ & Hno & Hr)]; rewrite ?Hok, ?Hr.
  - destruct (_filter_entries _ _) as [[|entry found]|e'] eqn:Hf; [|done|].
    + intros [= <-]. by left.
    + intros [= <-]. apply _filter_entries_raises in Hf as [-> Hg].
      right. split; [done|]. right. intros Hall. apply Hg.
      destruct (first_nonempty_stages db term) as [Hst|Hnil];
        [|rewrite Hnil; constructor].
      apply Forall_forall. intros entry Hin.
      apply (proj1 (Forall_forall _ _) Hall).
      eapply elem_of_submseteq; [exact Hin|]. by apply (stages_submseteq db term).
  - intros [= <-]. right. split; [done|]. by left.
Qed.

(** X16. How [do_get] ends, in a store whose entries all have a [String]
    child: it returns; or it fails with [AttributeError], and then some
    entry of the store has no title or the parent of some entry has no
    name; or it leaves through [quit()]; or it is still asking.  The index
    [entries[selected]] is never out of range, and neither [KeyError] nor
    [EntryNotFoundError] leaves the command. *)
Theorem do_get_endings fuel inputs db args :
  Forall (fun entry => Entry_String entry <> []) db ->
  snd (do_get int fuel inputs db args) = Returned
  \/ (snd (do_get int fuel inputs db args) = Raised (Exn AttributeError)
      /\ (~ Forall has_title db \/ ~ Forall has_group db))
  \/ snd (do_get int fuel inputs db args) = Raised (SystemExit None)
  \/ snd (do_get int fuel inputs db args) = Asking.
Proof.
  intros _.
  destruct (_search_for_entry db (entry_id args)) as [entries|err] eqn:Hs.
  - destruct (do_get_found fuel inputs db args entries Hs)
      as (prompts & _ & _ & [H|[H|(entry & _ & H)]]); rewrite H; simpl; auto.
  - unfold do_get. rewrite Hs.
    apply _search_for_entry_raises in Hs as [->|[-> Hno]]; simpl; auto.
Qed.

(** X17. Whatever [do_get] hands to the clipboard is the value of the
    field keyed exactly [Password] of an entry of the store outside the
    ["Backup"] group; it does so only when copying was not switched off,
    at most after the table and the prompts, and then the command
    returns. *)
Theorem do_get_clipboard fuel inputs db args events e text :
  do_get int fuel inputs db args = (events, e) ->
  ClipboardCopy text ∈ events ->
  clipboard_copy args = true
  /\ e = Returned
  /\ exists entry name,
       entry ∈ db /\ parent_Name entry = Some name /\ name <> "Backup"
       /\ text = _find_password entry.
Proof.
  intros Hget Hin.
  destruct (_search_for_entry db (entry_id args)) as [entries|err] eqn:Hs.
  - pose proof (_search_for_entry_no_backup _ _ _ Hs) as [_ Hnb].
    destruct (do_get_found fuel inputs db args entries Hs)
      as (prompts & Hp & _ & [H|[H|(entry & He & H)]]);
      rewrite H in Hget; injection Hget as <- <-.
    1,2: exfalso; apply elem_of_cons in Hin as [Hin|Hin]; [discriminate|];
         by apply (proj1 (Forall_forall _ _) Hp) in Hin.
    apply elem_of_cons in Hin as [Hin|Hin]; [discriminate|].
    apply elem_of_app in Hin as [Hin|Hin];
      [by apply (proj1 (Forall_forall _ _) Hp) in Hin|].
    unfold show_entry in Hin.
    destruct (clipboard_copy args); [|by apply elem_of_nil in Hin].
    split; [done|]. split; [done|].
    destruct (proj1 (Forall_forall _ _) Hnb entry He) as [Hdb (name & Hname & Hg)].
    exists entry, name. split; [done|]. split; [done|]. split; [done|].
    apply elem_of_app in Hin as [Hin|Hin].
    + apply list_elem_of_singleton in Hin. congruence.
    + exfalso. apply elem_of_app in Hin as [Hin|Hin].
      * destruct (negb (quiet args)); [|by apply elem_of_nil in Hin].
        apply elem_of_app in Hin as [Hin|Hin].
        -- apply list_elem_of_singleton in Hin. discriminate.
        -- rewrite map_fmap in Hin. apply list_elem_of_fmap in Hin as (f & Hf & _).
           discriminate.
      * apply list_elem_of_singleton in Hin. discriminate.
  - exfalso. unfold do_get in Hget. rewrite Hs in Hget.
    destruct err; injection Hget as <- <-.
    1,2: by apply elem_of_nil in Hin.
    apply elem_of_cons in Hin as [Hin|Hin]; [discriminate|].
    apply list_elem_of_singleton in Hin. discriminate.
Qed.

(** X18. With copying switched off ([-n]) [do_get] shows the table and
    nothing of the entry: no field is printed, whatever fields were asked
    for and whether or not [quiet] is set, and nothing reaches the
    clipboard. *)
Theorem do_get_no_clipboard fuel inputs db args ev :
  clipboard_copy args = false ->
  ev ∈ fst (do_get int fuel inputs db args) ->
  match ev with
  | Print _ | ClipboardCopy _ | Getpass _ => False
  | PrintTable _ _ | RawInput _ | StderrWrite _ => True
  end.
Proof.
  intros Hn Hin.
  destruct (_search_for_entry db (entry_id args)) as [entries|err] eqn:Hs.
  - destruct (do_get_found fuel inputs db args entries Hs)
      as (prompts & Hp & _ & [H|[H|(entry & He & H)]]);
      rewrite H in Hin; simpl in Hin.
    3: unfold show_entry in Hin; rewrite Hn, app_nil_r in Hin.
    all: apply elem_of_cons in Hin as [->|Hin]; [done|];
         by rewrite (proj1 (Forall_forall _ _) Hp ev Hin).
  - unfold do_get in Hin. rewrite Hs in Hin. destruct err; simpl in Hin.
    1,2: by apply elem_of_nil in Hin.
    apply elem_of_cons in Hin as [->|Hin]; [done|].
    by apply list_elem_of_singleton in Hin as ->.
Qed.

(** X19. When the search returns several entries and the first acceptable
    answer is the number [choice], [do_get] goes on with the entry shown
    in the table row numbered [choice]: it prints the table, asks once for
    every answer up to that one, and then shows that entry. *)
Theorem do_get_choice fuel pre line rest db args entries choice :
  _search_for_entry db (entry_id args) = Ok entries ->
  1 < length entries ->
  Forall (wrong_answer int (length entries)) pre ->
  length pre < fuel ->
  int line = Some choice ->
  (1 <= choice <= Z.of_nat (length entries))%Z ->
  exists entry,
    entries !! Z.to_nat (choice - 1) = Some entry
    /\ numbered_rows entries !! Z.to_nat (choice - 1)
       = Some (get_row (Z.to_nat choice) entry)
    /\ do_get int fuel (pre ++ Typed line :: rest) db args
       = (get_table entries
            :: repeat (RawInput "Which entry? ") (S (length pre))
            ++ show_entry args entry,
          Returned).
Proof.
  intros Hs Hlen Hpre Hfuel Hline Hrange.
  destruct (lookup_lt_is_Some_2 entries (Z.to_nat (choice - 1))) as [entry He]; [lia|].
  exists entry. split; [done|]. split.
  - unfold numbered_rows. rewrite list_lookup_imap, He. simpl. do 2 f_equal. lia.
  - unfold do_get. rewrite Hs, get_rows_loop. simpl app at 1.
    fold (numbered_rows entries). fold (get_table entries).
    rewrite (proj2 (Nat.ltb_lt _ _) Hlen).
    destruct (which_entry_first_valid_aux (length entries) pre fuel Hpre Hfuel) as [H1 _].
    rewrite (H1 line choice rest Hline Hrange).
    unfold list_getitem. rewrite (proj2 (Z.leb_le 0 (choice - 1))) by lia.
    by rewrite He.
Qed.

(** X20. When the search returns several entries and no acceptable answer
    comes, nothing of any entry is shown or copied: at the first Ctrl-C
    [do_get] leaves through [quit()] after the table and the prompts so
    far, and without one it keeps asking, however long it runs. *)
Theorem do_get_no_choice fuel pre rest db args entries :
  _search_for_entry db (entry_id args) = Ok entries ->
  1 < length entries ->
  Forall (wrong_answer int (length entries)) pre ->
  (length pre < fuel ->
   do_get int fuel (pre ++ Interrupt :: rest) db args
   = (get_table entries :: repeat (RawInput "Which entry? ") (S (length pre)),
      Raised (SystemExit None)))
  /\ do_get int fuel pre db args
     = (get_table entries :: repeat (RawInput "Which entry? ") fuel, Asking).
Proof.
  intros Hs Hlen Hpre. split; [intros Hfuel|].
  - unfold do_get. rewrite Hs, get_rows_loop. simpl app at 1.
    fold (numbered_rows entries). fold (get_table entries).
    rewrite (proj2 (Nat.ltb_lt _ _) Hlen).
    destruct (which_entry_first_valid_aux (length entries) pre fuel Hpre Hfuel) as (_ & H2 & _).
    by rewrite (H2 rest).
  - unfold do_get. rewrite Hs, get_rows_loop. simpl app at 1.
    fold (numbered_rows entries). fold (get_table entries).
    rewrite (proj2 (Nat.ltb_lt _ _) Hlen).
    by rewrite (which_entry_never_ends_aux (length entries) pre fuel Hpre).
Qed.

(** X21. [do_get] asks which entry is meant exactly when the search
    returned more than one; a single match is shown without reading any
    input. *)
Theorem do_get_asks fuel inputs db args entries :
  _search_for_entry db (entry_id args) = Ok entries ->
  0 < fuel ->
  (exists prompt, RawInput prompt ∈ fst (do_get int fuel inputs db args))
  <-> 1 < length entries.
Proof.
  intros Hs Hfuel. split.
  - intros [prompt Hin].
    destruct (do_get_found fuel inputs db args entries Hs)
      as (prompts & Hp & Hlen & H).
    apply Hlen. intros ->.
    destruct H as [H|[H|(entry & He & H)]]; rewrite H in Hin; simpl in Hin;
      apply elem_of_cons in Hin as [Hin|Hin]; try discriminate;
      try (by apply elem_of_nil in Hin).
    unfold show_entry in Hin.
    destruct (clipboard_copy args); [|by apply elem_of_nil in Hin].
    apply elem_of_cons in Hin as [Hin|Hin]; [discriminate|].
    apply elem_of_app in Hin as [Hin|Hin].
    + destruct (negb (quiet args)); [|by apply elem_of_nil in Hin].
      apply elem_of_cons in Hin as [Hin|Hin]; [discriminate|].
      rewrite map_fmap in Hin. apply list_elem_of_fmap in Hin as (f & Hf & _).
      discriminate.
    + apply list_elem_of_singleton in Hin. discriminate.
  - intros Hlen. exists "Which entry? ".
    unfold do_get. rewrite Hs, get_rows_loop.
    rewrite (proj2 (Nat.ltb_lt _ _) Hlen).
    assert (Hfirst : exists events a,
               which_entry int fuel inputs (length entries)
               = (RawInput "Which entry? " :: events, a)).
    { destruct fuel as [|fuel]; [lia|]. simpl.
      destruct (which_entry int fuel [] (length entries)) as [ev0 a0].
      destruct inputs as [|[l|] rest]; [by eexists _, _| |by eexists _, _].
      destruct (which_entry int fuel rest (length entries)) as [ev1 a1].
      destruct (int l) as [c|]; [|by eexists _, _].
      destruct ((c <? 1)%Z || (Z.of_nat (length entries) <? c)%Z); by eexists _, _. }
    destruct Hfirst as (events & a & ->).
    destruct a as [c| |]; simpl.
    + destruct (list_getitem entries (c - 1)); simpl; right; left.
    + right; left.
    + right; left.
Qed.

End do_get_facts.

Lemma which_entry_first_valid_witness :
  let pre := [Typed "x"; Typed "0"; Typed "7"] in
  (Forall (wrong_answer int_decimal 3) pre /\ length pre < 5)
  /\ which_entry int_decimal 5 (pre ++ [Typed "2"; Typed "1"]) 3
     = (repeat (RawInput "Which entry? ") 4, Choice 2)
  /\ which_entry int_decimal 5 (pre ++ [Interrupt; Typed "1"]) 3
     = (repeat (RawInput "Which entry? ") 4, Interrupted).
Proof.
  intros pre.
  assert (Hpre : Forall (wrong_answer int_decimal 3) pre).
  { repeat constructor; simpl; lia. }
  assert (Hfuel : length pre < 5) by (simpl; lia).
  split; [done|].
  destruct (which_entry_first_valid int_decimal 3 pre 5 Hpre Hfuel) as (H1 & H2 & _).
  split; [apply (H1 "2" 2%Z [Typed "1"]); [reflexivity|lia] | apply H2].
Defined.

Lemma which_entry_never_ends_witness :
  Forall (wrong_answer int_decimal 2) [Typed "three"; Typed "3"]
  /\ which_entry int_decimal 6 [Typed "three"; Typed "3"] 2
     = (repeat (RawInput "Which entry? ") 6, StillAsking).
Proof.
  assert (Hin : Forall (wrong_answer int_decimal 2) [Typed "three"; Typed "3"]).
  { repeat constructor; simpl; lia. }
  split; [done|]. exact (which_entry_never_ends int_decimal 2 _ 6 Hin).
Defined.

Lemma do_get_endings_witness :
  let db := [entry_titled "Mail" "Internet"; history_entry "Mail"] in
  let args := {| db_file := None; key_file := None; term := None; entry_id := "Mail";
                 entry_fields := []; clipboard_copy := true; quiet := true |} in
  Forall (fun entry => Entry_String entry <> []) db
  /\ do_get int_decimal 1 [] db args = ([], Raised (Exn AttributeError))
  /\ (snd (do_get int_decimal 1 [] db args) = Returned
      \/ (snd (do_get int_decimal 1 [] db args) = Raised (Exn AttributeError)
          /\ (~ Forall has_title db \/ ~ Forall has_group db))
      \/ snd (do_get int_decimal 1 [] db args) = Raised (SystemExit None)
      \/ snd (do_get int_decimal 1 [] db args) = Asking).
Proof.
  intros db args.
  assert (Hs : Forall (fun entry => Entry_String entry <> []) db)
    by (by repeat constructor).
  split; [done|]. split; [by vm_compute|].
  exact (do_get_endings int_decimal 1 [] db args Hs).
Defined.

Lemma do_get_clipboard_witness :
  let db := [entry_titled "Mail" "Backup"; entry_titled "Mail" "Internet"] in
  let args := {| db_file := None; key_file := None; term := None; entry_id := "mail";
                 entry_fields := []; clipboard_copy := true; quiet := true |} in
  ClipboardCopy (Some "secret") ∈ fst (do_get int_decimal 1 [] db args)
  /\ clipboard_copy args = true
  /\ snd (do_get int_decimal 1 [] db args) = Returned
  /\ exists entry name,
       entry ∈ db /\ parent_Name entry = Some name /\ name <> "Backup"
       /\ Some "secret" = _find_password entry.
Proof.
  intros db args.
  assert (Hin : ClipboardCopy (Some "secret") ∈ fst (do_get int_decimal 1 [] db args)).
  { vm_compute. right. left. }
  split; [done|].
  exact (do_get_clipboard int_decimal 1 [] db args _ _ (Some "secret")
           (surjective_pairing _) Hin).
Defined.

Lemma do_get_no_clipboard_witness :
  let db := [entry_titled "Mail" "Internet"] in
  let args := {| db_file := None; key_file := None; term := None; entry_id := "mail";
                 entry_fields := ["password"]; clipboard_copy := false; quiet := false |} in
  clipboard_copy args = false
  /\ do_get int_decimal 1 [] db args = ([get_table db], Returned)
  /\ match get_table db with
     | Print _ | ClipboardCopy _ | Getpass _ => False
     | PrintTable _ _ | RawInput _ | StderrWrite _ => True
     end.
Proof.
  intros db args. split; [done|]. split; [by vm_compute|].
  apply (do_get_no_clipboard int_decimal 1 [] db args (get_table db) eq_refl).
  vm_compute. left.
Defined.

Lemma do_get_choice_witness :
  let db := [entry_titled "Mail" "Work"; entry_titled "mail" "Home";
             entry_titled "MAIL" "Backup"; entry_titled "Mail" "Home"] in
  let found := [entry_titled "Mail" "Work"; entry_titled "Mail" "Home"] in
  let args := {| db_file := None; key_file := None; term := None; entry_id := "Mail";
                 entry_fields := []; clipboard_copy := true; quiet := true |} in
  (_search_for_entry db (entry_id args) = Ok found
   /\ 1 < length found
   /\ Forall (wrong_answer int_decimal (length found)) [Typed "3"]
   /\ length [Typed "3"] < 4
   /\ int_decimal "2" = Some 2%Z
   /\ (1 <= 2 <= Z.of_nat (length found))%Z)
  /\ exists entry,
       found !! Z.to_nat (2 - 1) = Some entry
       /\ numbered_rows found !! Z.to_nat (2 - 1) = Some (get_row (Z.to_nat 2) entry)
       /\ do_get int_decimal 4 ([Typed "3"] ++ Typed "2" :: []) db args
          = (get_table found
               :: repeat (RawInput "Which entry? ") (S (length [Typed "3"]))
               ++ show_entry args entry,
             Returned).
Proof.
  intros db found args.
  assert (Hs : _search_for_entry db (entry_id args) = Ok found) by (by vm_compute).
  assert (Hlen : 1 < length found) by (simpl; lia).
  assert (Hpre : Forall (wrong_answer int_decimal (length found)) [Typed "3"]).
  { repeat constructor; simpl; lia. }
  assert (Hfuel : length [Typed "3"] < 4) by (simpl; lia).
  assert (Hrange : (1 <= 2 <= Z.of_nat (length found))%Z) by (simpl; lia).
  split; [done|].
  exact (do_get_choice int_decimal 4 [Typed "3"] "2" [] db args found 2%Z
           Hs Hlen Hpre Hfuel eq_refl Hrange).
Defined.

Lemma do_get_no_choice_witness :
  let db := [entry_titled "Mail" "Work"; entry_titled "Mail" "Home"] in
  let args := {| db_file := None; key_file := None; term := None; entry_id := "Mail";
                 entry_fields := []; clipboard_copy := true; quiet := false |} in
  (_search_for_entry db (entry_id args) = Ok db
   /\ 1 < length db
   /\ Forall (wrong_answer int_decimal (length db)) [Typed ""; Typed "9"]
   /\ length [Typed ""; Typed "9"] < 3)
  /\ do_get int_decimal 3 ([Typed ""; Typed "9"] ++ Interrupt :: [Typed "1"]) db args
     = (get_table db :: repeat (RawInput "Which entry? ") 3, Raised (SystemExit None))
  /\ do_get int_decimal 3 [Typed ""; Typed "9"] db args
     = (get_table db :: repeat (RawInput "Which entry? ") 3, Asking).
Proof.
  intros db args.
  assert (Hs : _search_for_entry db (entry_id args) = Ok db) by (by vm_compute).
  assert (Hlen : 1 < length db) by (simpl; lia).
  assert (Hpre : Forall (wrong_answer int_decimal (length db)) [Typed ""; Typed "9"]).
  { repeat constructor; simpl; lia. }
  assert (Hfuel : length [Typed ""; Typed "9"] < 3) by (simpl; lia).
  split; [done|].
  destruct (do_get_no_choice int_decimal 3 [Typed ""; Typed "9"] [Typed "1"] db args db
              Hs Hlen Hpre) as [H1 H2].
  split; [exact (H1 Hfuel)|exact H2].
Defined.

Lemma do_get_asks_witness :
  let db := [entry_titled "Mail" "Work"; entry_titled "Bank" "Home"] in
  let args := {| db_file := None; key_file := None; term := None; entry_id := "bank";
                 entry_fields := []; clipboard_copy := true; quiet := true |} in
  (_search_for_entry db (entry_id args) = Ok [entry_titled "Bank" "Home"] /\ 0 < 2)
  /\ ~ exists prompt, RawInput prompt ∈ fst (do_get int_decimal 2 [Typed "1"] db args).
Proof.
  intros db args.
  assert (Hs : _search_for_entry db (entry_id args) = Ok [entry_titled "Bank" "Home"])
    by (by vm_compute).
  assert (Hfuel : 0 < 2) by lia.
  split; [done|]. intros Hex.
  apply (do_get_asks int_decimal 2 [Typed "1"] db args _ Hs Hfuel) in Hex.
  simpl in Hex. lia.
Defined.

(** X22. With the default fields [do_get] shows, after the copy, the
    values of the fields [Title], [UserName] and [URL] of the entry, the
    ones of its table row, under the names [title], [username] and [url];
    a field the entry does not have is shown as [None]. *)
Theorem show_entry_default_fields args entry :
  clipboard_copy args = true ->
  quiet args = false ->
  entry_fields args = [] ->
  show_entry args entry
  = [ClipboardCopy (_find_password entry);
     StderrWrite (String "010" "");
     Print ("title:     " +:+ str_of (_find_string entry "Title"));
     Print ("username:  " +:+ str_of (_find_string entry "UserName"));
     Print ("url:       " +:+ str_of (_find_string entry "URL"));
     StderrWrite (String "010" "Password has been copied to clipboard."
                  +:+ String "010" "")]
  /\ (_find_string entry "URL" = None <->
      forall s, s ∈ Entry_String entry -> lower (Key s) <> "url").
Proof.
  intros Hc Hq Hf. split.
  - unfold show_entry. rewrite Hc, Hq, Hf. simpl. unfold field_line, _find_string.
    rewrite (_find_string_loop_lower _ "Title" "title") by reflexivity.
    rewrite (_find_string_loop_lower _ "UserName" "username") by reflexivity.
    rewrite (_find_string_loop_lower _ "URL" "url") by reflexivity.
    reflexivity.
  - unfold _find_string. by rewrite _find_string_loop_None.
Qed.

Lemma show_entry_default_fields_witness :
  let args := {| db_file := None; key_file := None; term := None; entry_id := "Mail";
                 entry_fields := []; clipboard_copy := true; quiet := false |} in
  show_entry args (entry_titled "Mail" "Work")
  = [ClipboardCopy (Some "secret");
     StderrWrite (String "010" "");
     Print "title:     Mail"; Print "username:  user"; Print "url:       None";
     StderrWrite (String "010" "Password has been copied to clipboard."
                  +:+ String "010" "")].
Proof.
  intros args.
  destruct (show_entry_default_fields args (entry_titled "Mail" "Work")
              eq_refl eq_refl eq_refl) as [H _].
  rewrite H. reflexivity.
Defined.

(** ** A term that finds nothing, an entry without a title *)

(** X23. When, in a store whose entries all have a title, every candidate
    of the deciding stage lies in the ["Backup"] group, the two commands
    part ways: [do_get] writes the message that names the term and a
    newline to standard error and returns, with no table, prompt or copy;
    [do_list] prints its heading and lets [EntryNotFoundError] escape with
    the same message. *)
Theorem not_found_list_and_get int fuel inputs db args args' t :
  term args = Some t ->
  entry_id args' = t ->
  Forall has_title db ->
  Forall (fun entry => parent_Name entry = Some "Backup") (first_nonempty (stages db t)) ->
  do_list db args
  = ([Print ("Entries:" +:+ String "010" "")],
     Raised (Exn (EntryNotFoundError ("Could not find an entry for: " +:+ t))))
  /\ do_get int fuel inputs db args'
     = ([StderrWrite ("Could not find an entry for: " +:+ t);
         StderrWrite (String "010" "")],
        Returned).
Proof.
  intros Hterm Hid Hall Hbackup.
  assert (Hs : _search_for_entry db t = Raise (not_found t)).
  { rewrite _search_for_entry_eq, fuzzy_search_by_title_first by done.
    rewrite _filter_entries_groups
      by (eapply Forall_impl; [exact Hbackup|]; intros e He; by exists "Backup").
    rewrite filter_none; [done|].
    eapply Forall_impl; [exact Hbackup|]. intros e He Hn.
    apply not_excluded_Some in Hn as (name & Hname & Hn). apply Hn.
    rewrite He in Hname. injection Hname as <-. left. }
  unfold not_found in Hs. split.
  - unfold do_list. by rewrite Hterm, Hs.
  - unfold do_get. by rewrite Hid, Hs.
Qed.

Lemma not_found_list_and_get_witness :
  let db := [entry_titled "Mail" "Backup"; entry_titled "Webmail" "Internet"] in
  let args := {| db_file := None; key_file := None; term := Some "mail"; entry_id := "";
                 entry_fields := []; clipboard_copy := true; quiet := false |} in
  let args' := {| db_file := None; key_file := None; term := None; entry_id := "mail";
                  entry_fields := []; clipboard_copy := true; quiet := false |} in
  (Forall has_title db
   /\ Forall (fun entry => parent_Name entry = Some "Backup")
        (first_nonempty (stages db "mail")))
  /\ do_list db args
     = ([Print ("Entries:" +:+ String "010" "")],
        Raised (Exn (EntryNotFoundError "Could not find an entry for: mail")))
  /\ do_get int_decimal 3 [Typed "1"] db args'
     = ([StderrWrite "Could not find an entry for: mail";
         StderrWrite (String "010" "")],
        Returned).
Proof.
  intros db args args'.
  assert (Hall : Forall has_title db) by (repeat constructor; by eexists).
  assert (Hb : Forall (fun entry => parent_Name entry = Some "Backup")
                 (first_nonempty (stages db "mail"))).
  { vm_compute. by repeat constructor. }
  split; [done|].
  exact (not_found_list_and_get int_decimal 3 [Typed "1"] db args args' "mail"
           eq_refl eq_refl Hall Hb).
Defined.

(** X24. One entry without a [Title] field anywhere in the store, the
    ["Backup"] group included, makes [do_list] without a term fail with
    [AttributeError] once the heading is printed: no table is shown. *)
Theorem do_list_untitled db args entry :
  term args = None ->
  entry ∈ db ->
  _find_string entry "Title" = None ->
  do_list db args
  = ([Print ("Entries:" +:+ String "010" "")], Raised (Exn AttributeError)).
Proof.
  intros Hterm Hin Hno. unfold do_list, sorted_by_title.
  rewrite Hterm, keyed_loop, bool_decide_eq_false_2; [done|].
  intros Hall. apply (proj1 (Forall_forall _ _) Hall) in Hin.
  unfold has_title, _get_title in Hin. rewrite Hno in Hin. by destruct Hin.
Qed.

Lemma do_list_untitled_witness :
  let untitled := {| Entry_String := [ {| Key := "Password"; Value := "old" |} ];
                     parent_Name := Some "Backup" |} in
  let db := [entry_titled "Mail" "Work"; untitled] in
  let args := {| db_file := None; key_file := None; term := None; entry_id := "";
                 entry_fields := []; clipboard_copy := true; quiet := false |} in
  do_list db args
  = ([Print ("Entries:" +:+ String "010" "")], Raised (Exn AttributeError)).
Proof.
  intros untitled db args.
  apply (do_list_untitled db args untitled); [reflexivity| |reflexivity].
  right. left.
Defined.

(** ** Locating the database *)

(** X25. Where the database and the key file come from: the command-line
    flag first, then the configuration file, then the environment
    ([KP_DB_FILE], [KP_KEY_FILE]); the name taken goes through
    [expanduser].  Without a database from any of the three the program
    writes its message to standard error and exits with status 1 before it
    asks for the password; a missing key file is no error. *)
Theorem locate_db_precedence (expanduser : string -> string) config args environ :
  locate_db expanduser config args environ
  = match first_given [db_file args; config_get config "db_file";
                       environ !! "KP_DB_FILE"] with
    | None =>
        ([StderrWrite ("Must supply a db filename." +:+ String "010" "")],
         inl (SystemExit (Some 1%Z)))
    | Some f =>
        ([Getpass "Password: "],
         inr (expanduser f,
              expanduser <$> first_given [key_file args; config_get config "key_file";
                                          environ !! "KP_KEY_FILE"]))
    end.
Proof.
  unfold locate_db, create_db, merge_config_file_values, config_get.
  destruct args as [df kf ? ? ? ? ?].
  destruct config as [[d|]|]; simpl;
    destruct df as [df|]; destruct kf as [kf|]; simpl;
    repeat match goal with
           | |- context [?m !! ?k] =>
               lazymatch type of m with
               | gmap string string => destruct (m !! k); simpl
               end
           end; reflexivity.
Qed.
